(** * Lead scoring engine: events, rules, score history, recalculation

    A shallow embedding of [services/scoringEngine.js] together with the
    Mongoose schemas it works on ([models/Lead.js], [models/Event.js],
    [models/ScoreHistory.js], [models/ScoringRule.js]) and the notifier of
    [services/websocket.js].

    The collections are lists in insertion order.  Dates are integers
    (milliseconds since the epoch).  Every awaited call on a collection may
    reject; the component [faults] of the world says how many such calls
    still succeed, so that an operation can be observed after it failed
    partway.  The clock read by [new Date()] and by the [Date.now] schema
    defaults is the argument [now] of an operation. *)

From Stdlib Require Import ZArith List String Bool Lia DecimalString.
From Stdlib Require Import Sorting.Sorted Sorting.Permutation.
Import ListNotations.
Open Scope string_scope.
Open Scope Z_scope.

Definition ObjectId := string.
Definition Date := Z.
Definition Mixed := list (string * string).

(** ** Documents *)

Module Lead.
Record t := make {
  _id : ObjectId;
  name : string;
  email : string;
  company : option string;
  currentScore : Z;
  status : string;
  createdAt : Date;
  updatedAt : Date
}.

(** [lead.currentScore = s; lead.updatedAt = now] *)
Definition rescore (s : Z) (now : Date) (l : t) : t :=
  make (_id l) (name l) (email l) (company l) s (status l) (createdAt l) now.
End Lead.

Module Event.
Record t := make {
  eventId : string;
  eventType : string;
  leadId : ObjectId;
  timestamp : Date;
  metadata : Mixed;
  processed : bool;
  processedAt : option Date;
  createdAt : Date
}.

(** [new Event({eventId, eventType, leadId, timestamp, metadata})]:
    [processed] defaults to [false], [createdAt] to [Date.now]. *)
Definition new (eventId eventType : string) (leadId : ObjectId)
    (timestamp : Date) (metadata : Mixed) (now : Date) : t :=
  make eventId eventType leadId timestamp metadata false None now.

(** [event.processed = true; event.processedAt = new Date()] *)
Definition mark_processed (now : Date) (e : t) : t :=
  make (eventId e) (eventType e) (leadId e) (timestamp e) (metadata e)
       true (Some now) (createdAt e).
End Event.

Module ScoringRule.
Record t := make {
  eventType : string;
  points : Z;
  active : bool;
  description : option string
}.
End ScoringRule.

Module ScoreHistory.
(** The object literal handed to [new ScoreHistory] or to [insertMany]. *)
Record fields := literal {
  f_leadId : ObjectId;
  f_score : Z;
  f_previousScore : Z;
  f_change : Z;
  f_eventId : string;
  f_eventType : string;
  f_reason : string;
  f_timestamp : Date
}.

(** The stored document: the schema adds [createdAt], default [Date.now]. *)
Record t := make {
  leadId : ObjectId;
  score : Z;
  previousScore : Z;
  change : Z;
  eventId : string;
  eventType : string;
  reason : string;
  timestamp : Date;
  createdAt : Date
}.

Definition new (now : Date) (o : fields) : t :=
  make (f_leadId o) (f_score o) (f_previousScore o) (f_change o)
       (f_eventId o) (f_eventType o) (f_reason o) (f_timestamp o) now.

(** What the engine supplied, without the schema default. *)
Definition supplied (h : t) : fields :=
  literal (leadId h) (score h) (previousScore h) (change h)
          (eventId h) (eventType h) (reason h) (timestamp h).
End ScoreHistory.

(** The payload of [emitScoreUpdate]; [outOfOrder] is absent on the in-order
    path. *)
Record ScoreUpdate := mkScoreUpdate {
  u_leadId : ObjectId;
  u_leadName : string;
  u_leadEmail : string;
  u_previousScore : Z;
  u_newScore : Z;
  u_change : Z;
  u_eventType : string;
  u_timestamp : Date;
  u_outOfOrder : option bool
}.

(** The argument of [processEvent]; [timestamp] and [metadata] may be
    missing. *)
Record EventData := mkEventData {
  d_eventId : string;
  d_eventType : string;
  d_leadId : ObjectId;
  d_timestamp : option Date;
  d_metadata : option Mixed
}.

(** ** The world: four collections, the socket server, the fault budget *)

Record World := mkWorld {
  leads : list Lead.t;
  events : list Event.t;
  scoreHistory : list ScoreHistory.t;
  scoringRules : list ScoringRule.t;
  io : bool;
  emitted : list (string * ScoreUpdate);
  faults : option nat
}.

Definition set_leads (x : list Lead.t) (w : World) : World :=
  mkWorld x (events w) (scoreHistory w) (scoringRules w) (io w) (emitted w) (faults w).
Definition set_events (x : list Event.t) (w : World) : World :=
  mkWorld (leads w) x (scoreHistory w) (scoringRules w) (io w) (emitted w) (faults w).
Definition set_scoreHistory (x : list ScoreHistory.t) (w : World) : World :=
  mkWorld (leads w) (events w) x (scoringRules w) (io w) (emitted w) (faults w).
Definition set_scoringRules (x : list ScoringRule.t) (w : World) : World :=
  mkWorld (leads w) (events w) (scoreHistory w) x (io w) (emitted w) (faults w).
Definition set_emitted (x : list (string * ScoreUpdate)) (w : World) : World :=
  mkWorld (leads w) (events w) (scoreHistory w) (scoringRules w) (io w) x (faults w).
Definition set_faults (x : option nat) (w : World) : World :=
  mkWorld (leads w) (events w) (scoreHistory w) (scoringRules w) (io w) (emitted w) x.

(** ** Exceptions and the monad of async functions *)

Inductive Exception :=
| Error (message : string)
| ReferenceError (identifier : string)
| StoreError.

Inductive Completion (A : Type) :=
| Return (a : A)
| Throw (e : Exception).
Arguments Return {A} a.
Arguments Throw {A} e.

(** A thrown exception keeps the world as it was when it was thrown. *)
Definition M (A : Type) := World -> World * Completion A.

Definition ret {A} (a : A) : M A := fun w => (w, Return a).
Definition throw {A} (e : Exception) : M A := fun w => (w, Throw e).
Definition bind {A B} (m : M A) (f : A -> M B) : M B :=
  fun w => match m w with
           | (w', Return a) => f a w'
           | (w', Throw e) => (w', Throw e)
           end.

Declare Scope async_scope.
Delimit Scope async_scope with async.
Notation "x <- m ;; k" := (bind m (fun x => k))
  (at level 100, m at next level, right associativity) : async_scope.
Notation "m ;; k" := (bind m (fun _ => k))
  (at level 100, right associativity) : async_scope.
Open Scope async_scope.

(** [await op]: the call is rejected when the fault budget is used up. *)
Definition await {A} (op : World -> World * A) : M A :=
  fun w => match faults w with
           | Some O => (w, Throw StoreError)
           | Some (S n) => let (w', a) := op (set_faults (Some n) w) in (w', Return a)
           | None => let (w', a) := op w in (w', Return a)
           end.

Definition query {A} (q : World -> A) : World -> World * A := fun w => (w, q w).
Definition update (u : World -> World) : World -> World * unit := fun w => (u w, tt).

(** Reading an identifier that no scope binds. *)
Definition unbound {A} (identifier : string) : M A :=
  throw (ReferenceError identifier).

(** ** Collection calls *)

Definition find_event (eventId : string) (l : list Event.t) : option Event.t :=
  find (fun e => String.eqb (Event.eventId e) eventId) l.

Definition find_lead (id : ObjectId) (l : list Lead.t) : option Lead.t :=
  find (fun x => String.eqb (Lead._id x) id) l.

(** [ScoringRule.findOne({eventType, active: true})] *)
Definition find_active_rule (eventType : string) (l : list ScoringRule.t)
  : option ScoringRule.t :=
  find (fun r => String.eqb (ScoringRule.eventType r) eventType && ScoringRule.active r) l.

(** A saved document replaces the stored one with its key ([_id] for leads;
    for events the unique [eventId] stands for it). *)
Definition replace_lead (x : Lead.t) (l : list Lead.t) : list Lead.t :=
  map (fun y => if String.eqb (Lead._id y) (Lead._id x) then x else y) l.

Definition replace_event (x : Event.t) (l : list Event.t) : list Event.t :=
  map (fun y => if String.eqb (Event.eventId y) (Event.eventId x) then x else y) l.

Definition of_lead (leadId : ObjectId) (h : ScoreHistory.t) : bool :=
  String.eqb (ScoreHistory.leadId h) leadId.

(** [findOne(...).sort({timestamp: -1}).limit(1)]: a document with the
    greatest timestamp.  The store fixes no order among documents with the
    same timestamp; this function takes the first of them in collection
    order, and [processEvent] reads nothing but its timestamp. *)
Fixpoint latest (l : list ScoreHistory.t) : option ScoreHistory.t :=
  match l with
  | [] => None
  | h :: t =>
      match latest t with
      | Some m => if ScoreHistory.timestamp h <? ScoreHistory.timestamp m
                  then Some m else Some h
      | None => Some h
      end
  end.

(** [.sort({timestamp: 1})]: ascending in [timestamp], the only sort key;
    [Event] has no sequence field.  The store fixes no order among
    documents with the same timestamp; this function leaves them in
    collection order, which is one of the orders the store may return.
    What is stated about the order of a replay is stated for an ascending
    order, not for this choice among equal timestamps. *)
Fixpoint insert_by_timestamp (e : Event.t) (l : list Event.t) : list Event.t :=
  match l with
  | [] => [e]
  | x :: t => if Event.timestamp e <=? Event.timestamp x
              then e :: x :: t
              else x :: insert_by_timestamp e t
  end.

Fixpoint sort_by_timestamp (l : list Event.t) : list Event.t :=
  match l with
  | [] => []
  | e :: t => insert_by_timestamp e (sort_by_timestamp t)
  end.

Definition processed_events_of (leadId : ObjectId) (l : list Event.t) : list Event.t :=
  filter (fun e => String.eqb (Event.leadId e) leadId && Event.processed e) l.

Definition Event_findOne (eventId : string) : M (option Event.t) :=
  await (query (fun w => find_event eventId (events w))).

(** [Lead.findById(id)].  Mongoose casts [id] to an ObjectId before it
    looks anything up and rejects the call with a CastError when the string
    is none.  The ids of this model are ObjectIds; which exception an id
    without a lead gets is stated only for ids that a stored lead carried. *)
Definition Lead_findById (id : ObjectId) : M (option Lead.t) :=
  await (query (fun w => find_lead id (leads w))).

Definition ScoringRule_findOne (eventType : string) : M (option ScoringRule.t) :=
  await (query (fun w => find_active_rule eventType (scoringRules w))).

Definition ScoreHistory_findLatest (leadId : ObjectId) : M (option ScoreHistory.t) :=
  await (query (fun w => latest (filter (of_lead leadId) (scoreHistory w)))).

Definition Event_find_processed (leadId : ObjectId) : M (list Event.t) :=
  await (query (fun w => sort_by_timestamp (processed_events_of leadId (events w)))).

Definition Event_insert (e : Event.t) : M unit :=
  await (update (fun w => set_events (events w ++ [e]) w)).

Definition Event_save (e : Event.t) : M unit :=
  await (update (fun w => set_events (replace_event e (events w)) w)).

Definition Lead_save (l : Lead.t) : M unit :=
  await (update (fun w => set_leads (replace_lead l (leads w)) w)).

Definition ScoreHistory_save (h : ScoreHistory.t) : M unit :=
  await (update (fun w => set_scoreHistory (scoreHistory w ++ [h]) w)).

Definition ScoreHistory_deleteMany (leadId : ObjectId) : M unit :=
  await (update (fun w =>
    set_scoreHistory (filter (fun h => negb (of_lead leadId h)) (scoreHistory w)) w)).

Definition ScoreHistory_insertMany (now : Date) (l : list ScoreHistory.fields) : M unit :=
  await (update (fun w =>
    set_scoreHistory (scoreHistory w ++ map (ScoreHistory.new now) l) w)).

(** [emitScoreUpdate]: nothing before the socket server exists; otherwise a
    broadcast and a message to the room of the lead ([data.leadId] is a
    non-empty id, hence truthy). *)
Definition emitScoreUpdate (data : ScoreUpdate) : M unit :=
  fun w =>
    if io w
    then (set_emitted (emitted w ++ [("score:updated", data);
                                     ("lead:score:updated", data)]) w, Return tt)
    else (w, Return tt).

(** ** The engine *)

Definition string_of_Z (z : Z) : string := NilZero.string_of_int (Z.to_int z).

(** [`${eventType} (+${rule.points} points)`] *)
Definition reason_of (eventType : string) (points : Z) : string :=
  eventType ++ " (+" ++ string_of_Z points ++ " points)".

(** [parseInt(process.env.MAX_SCORE) || 1000]; [None] is [NaN]. *)
Definition MAX_SCORE_of_env (parsed : option Z) : Z :=
  match parsed with
  | Some n => if n =? 0 then 1000 else n
  | None => 1000
  end.

Inductive ProcessResult :=
| Duplicate
| Recalculated (leadId : ObjectId) (previousScore newScore change : Z) (eventType : string)
| Scored (leadId : ObjectId) (previousScore newScore change : Z) (eventType : string).

Record RecalcResult := mkRecalcResult {
  r_leadId : ObjectId;
  r_previousScore : Z;
  r_newScore : Z;
  r_eventsProcessed : nat
}.

Definition isOutOfOrder (latestHistory : option ScoreHistory.t) (eventTimestamp : Date) : bool :=
  match latestHistory with
  | Some h => eventTimestamp <? ScoreHistory.timestamp h
  | None => false
  end.

Section Engine.

Variable MAX_SCORE : Z.

(** [if (s > MAX_SCORE) s = MAX_SCORE; if (s < 0) s = 0;] *)
Definition cap (s : Z) : Z :=
  let s1 := if s >? MAX_SCORE then MAX_SCORE else s in
  if s1 <? 0 then 0 else s1.

(** The body of the [for] loop of [recalculateLeadScore], with the loop
    variables [totalScore] and [newHistory]. *)
Fixpoint replay (leadId : ObjectId) (evs : list Event.t)
    (totalScore : Z) (newHistory : list ScoreHistory.fields)
  : M (Z * list ScoreHistory.fields) :=
  match evs with
  | [] => ret (totalScore, newHistory)
  | event :: rest =>
      rule <- ScoringRule_findOne (Event.eventType event) ;;
      match rule with
      | Some rule =>
          let prevScore := totalScore in
          let totalScore := cap (totalScore + ScoringRule.points rule) in
          replay leadId rest totalScore
            (newHistory ++
             [ScoreHistory.literal leadId totalScore prevScore (totalScore - prevScore)
                (Event.eventId event) (Event.eventType event)
                (reason_of (Event.eventType event) (ScoringRule.points rule))
                (Event.timestamp event)])
      | None => replay leadId rest totalScore newHistory
      end
  end.

Definition recalculateLeadScore (now : Date) (leadId : ObjectId) : M RecalcResult :=
  lead <- Lead_findById leadId ;;
  match lead with
  | None => throw (Error "Lead not found")
  | Some lead =>
      let previousScore := Lead.currentScore lead in
      events <- Event_find_processed leadId ;;
      r <- replay leadId events 0 [] ;;
      let totalScore := fst r in
      let newHistory := snd r in
      ScoreHistory_deleteMany leadId ;;
      (if (0 <? List.length newHistory)%nat
       then ScoreHistory_insertMany now newHistory
       else ret tt) ;;
      Lead_save (Lead.rescore totalScore now lead) ;;
      ret (mkRecalcResult leadId previousScore totalScore (List.length events))
  end.

Definition processEvent (now : Date) (eventData : EventData) : M ProcessResult :=
  let eventId := d_eventId eventData in
  let eventType := d_eventType eventData in
  let leadId := d_leadId eventData in
  let timestamp := d_timestamp eventData in
  let metadata := match d_metadata eventData with Some m => m | None => [] end in
  existingEvent <- Event_findOne eventId ;;
  if match existingEvent with Some e => Event.processed e | None => false end
  then ret Duplicate
  else
    lead <- Lead_findById leadId ;;
    match lead with
    | None => throw (Error ("Lead " ++ leadId ++ " not found"))
    | Some lead =>
        rule <- ScoringRule_findOne eventType ;;
        match rule with
        | None => throw (Error ("No active scoring rule found for event type: " ++ eventType))
        | Some rule =>
            event <- match existingEvent with
                     | Some e => ret e
                     | None =>
                         let e := Event.new eventId eventType leadId
                                    (match timestamp with Some t => t | None => now end)
                                    metadata now in
                         Event_insert e ;; ret e
                     end ;;
            let eventTimestamp := Event.timestamp event in
            latestHistory <- ScoreHistory_findLatest leadId ;;
            if isOutOfOrder latestHistory eventTimestamp
            then
              Event_save (Event.mark_processed now event) ;;
              recalcResult <- recalculateLeadScore now leadId ;;
              emitScoreUpdate
                (mkScoreUpdate (Lead._id lead) (Lead.name lead) (Lead.email lead)
                   (r_previousScore recalcResult) (r_newScore recalcResult)
                   (r_newScore recalcResult - r_previousScore recalcResult)
                   eventType (Event.timestamp event) (Some true)) ;;
              ret (Recalculated (Lead._id lead)
                     (r_previousScore recalcResult) (r_newScore recalcResult)
                     (r_newScore recalcResult - r_previousScore recalcResult)
                     eventType)
            else
              let previousScore := Lead.currentScore lead in
              let newScore := cap (previousScore + ScoringRule.points rule) in
              Lead_save (Lead.rescore newScore now lead) ;;
              (* [change] is read in the object literals below and is bound
                 neither in the function nor in the module *)
              change <- unbound "change" ;;
              ScoreHistory_save
                (ScoreHistory.new now
                   (ScoreHistory.literal (Lead._id lead) newScore previousScore change
                      eventId eventType (reason_of eventType (ScoringRule.points rule))
                      (Event.timestamp event))) ;;
              Event_save (Event.mark_processed now event) ;;
              emitScoreUpdate
                (mkScoreUpdate (Lead._id lead) (Lead.name lead) (Lead.email lead)
                   previousScore newScore change eventType (Event.timestamp event) None) ;;
              ret (Scored (Lead._id lead) previousScore newScore change eventType)
        end
    end.

End Engine.

(** ** What the specification calls things *)

(** [clamp(x, lo, hi)] *)
Definition clamp (x lo hi : Z) : Z := Z.max lo (Z.min hi x).

(** The world after the event of [eventData] has its document: the stored
    one when there is one, a new one at the end of the collection
    otherwise. *)
Definition ledgered (now : Date) (eventData : EventData) (w : World) : World * Event.t :=
  match find_event (d_eventId eventData) (events w) with
  | Some e => (w, e)
  | None =>
      let e := Event.new (d_eventId eventData) (d_eventType eventData) (d_leadId eventData)
                 (match d_timestamp eventData with Some t => t | None => now end)
                 (match d_metadata eventData with Some m => m | None => [] end) now in
      (set_events (events w ++ [e]) w, e)
  end.

(** The event is in the ledger and marked processed. *)
Definition already_processed (eventId : string) (w : World) : bool :=
  match find_event eventId (events w) with
  | Some e => Event.processed e
  | None => false
  end.

(** Number of ScoreHistory documents that carry [eventId]. *)
Definition rows_for (eventId : string) (l : list ScoreHistory.t) : nat :=
  List.length (filter (fun h => String.eqb (ScoreHistory.eventId h) eventId) l).

(** The unique index on [Event.eventId]. *)
Definition unique_eventIds (w : World) : Prop :=
  NoDup (map Event.eventId (events w)).

(** Every ScoreHistory document names an event of the ledger, of the same
    lead. *)
Definition history_refers_to_events (w : World) : Prop :=
  forall h, In h (scoreHistory w) ->
    exists e, In e (events w) /\
              Event.eventId e = ScoreHistory.eventId h /\
              Event.leadId e = ScoreHistory.leadId h.

(** A redelivered event carries the lead and the type it was recorded
    with. *)
Definition same_payload (eventData : EventData) (w : World) : Prop :=
  forall e, find_event (d_eventId eventData) (events w) = Some e ->
    Event.leadId e = d_leadId eventData /\ Event.eventType e = d_eventType eventData.

(** The entry with the greatest (timestamp, sequence), the sequence being
    the position in the collection: among equal timestamps the later
    document wins. *)
Fixpoint greatest_from (m : ScoreHistory.t) (l : list ScoreHistory.t) : ScoreHistory.t :=
  match l with
  | [] => m
  | h :: t =>
      greatest_from (if ScoreHistory.timestamp m <=? ScoreHistory.timestamp h then h else m) t
  end.

Definition greatest (l : list ScoreHistory.t) : option ScoreHistory.t :=
  match l with
  | [] => None
  | h :: t => Some (greatest_from h t)
  end.

Definition ledger_score (leadId : ObjectId) (l : list ScoreHistory.t) : Z :=
  match greatest (filter (of_lead leadId) l) with
  | Some h => ScoreHistory.score h
  | None => 0
  end.

Definition ledger_consistent (w : World) : Prop :=
  forall l, In l (leads w) ->
    Lead.currentScore l = ledger_score (Lead._id l) (scoreHistory w).

(** The lead's ledger and score, as an observer reads them. *)
Definition ledger_of (leadId : ObjectId) (w : World)
  : list ScoreHistory.t * option Z :=
  (filter (of_lead leadId) (scoreHistory w),
   option_map Lead.currentScore (find_lead leadId (leads w))).

Definition ascending (l : list Event.t) : Prop :=
  StronglySorted (fun a b => Event.timestamp a <= Event.timestamp b) l.

(** A most recent entry of the lead: one of its entries that none of its
    entries is later than.  Entries with the same timestamp are equally
    recent; nothing else orders them. *)
Definition most_recent_entry (leadId : ObjectId) (l : list ScoreHistory.t)
    (h : ScoreHistory.t) : Prop :=
  In h l /\ ScoreHistory.leadId h = leadId /\
  forall h', In h' l -> ScoreHistory.leadId h' = leadId ->
    ScoreHistory.timestamp h' <= ScoreHistory.timestamp h.

Section Vocabulary.

Variable MAX_SCORE : Z.

(** Replay from a score: each event with an active rule adds its points,
    clamped to [0, MAX] at that step, and yields one row. *)
Fixpoint replayed (rules : list ScoringRule.t) (leadId : ObjectId)
    (evs : list Event.t) (score : Z) : list ScoreHistory.fields :=
  match evs with
  | [] => []
  | e :: rest =>
      match find_active_rule (Event.eventType e) rules with
      | Some rule =>
          let s := clamp (score + ScoringRule.points rule) 0 MAX_SCORE in
          ScoreHistory.literal leadId s score (s - score)
            (Event.eventId e) (Event.eventType e)
            (reason_of (Event.eventType e) (ScoringRule.points rule))
            (Event.timestamp e)
          :: replayed rules leadId rest s
      | None => replayed rules leadId rest score
      end
  end.

(** The score of the last row, or the starting score without rows. *)
Definition final_score (start : Z) (rows : list ScoreHistory.fields) : Z :=
  last (map ScoreHistory.f_score rows) start.

Definition bounded (w : World) : Prop :=
  Forall (fun l => 0 <= Lead.currentScore l <= MAX_SCORE) (leads w) /\
  Forall (fun h => 0 <= ScoreHistory.score h <= MAX_SCORE) (scoreHistory w).

(** What can happen to the world: the two operations of the engine, a
    change of the rule table, a change of how many store calls succeed. *)
Inductive Command :=
| ProcessEvent (now : Date) (eventData : EventData)
| Recalculate (now : Date) (leadId : ObjectId)
| ConfigureRules (rules : list ScoringRule.t)
| InjectFaults (budget : option nat).

Definition exec (c : Command) (w : World) : World :=
  match c with
  | ProcessEvent now eventData => fst (processEvent MAX_SCORE now eventData w)
  | Recalculate now leadId => fst (recalculateLeadScore MAX_SCORE now leadId w)
  | ConfigureRules rules => set_scoringRules rules w
  | InjectFaults budget => set_faults budget w
  end.

Definition exec_all (cs : list Command) (w : World) : World :=
  fold_left (fun w c => exec c w) cs w.

End Vocabulary.

(** ** Triples for runs in which calls may fail *)

Definition hoare {A} (P : World -> Prop) (m : M A)
    (Q : Completion A -> World -> Prop) : Prop :=
  forall w, P w -> Q (snd (m w)) (fst (m w)).

(** A property of the collections, whatever the fault budget. *)
Definition stable (P : World -> Prop) : Prop :=
  forall n w, P w -> P (set_faults n w).

(** Two worlds with the same collections, socket and messages. *)
Definition same_store (a b : World) : Prop :=
  set_faults None a = set_faults None b.

(** The stages of the ledger replacement in [recalculateLeadScore]. *)
Definition deleted (leadId : ObjectId) (w : World) : World :=
  set_scoreHistory (filter (fun h => negb (of_lead leadId h)) (scoreHistory w)) w.

Definition inserted (now : Date) (rows : list ScoreHistory.fields) (w : World) : World :=
  set_scoreHistory (scoreHistory w ++ map (ScoreHistory.new now) rows) w.

Definition saved (l : Lead.t) (w : World) : World :=
  set_leads (replace_lead l (leads w)) w.

(** Rows in ascending timestamp order. *)
Definition by_row_time (a b : ScoreHistory.fields) : Prop :=
  ScoreHistory.f_timestamp a <= ScoreHistory.f_timestamp b.

Definition has_eventId (eventId : string) (e : Event.t) : bool :=
  String.eqb (Event.eventId e) eventId.

Definition has_active_rule (rules : list ScoringRule.t) (e : Event.t) : bool :=
  match find_active_rule (Event.eventType e) rules with
  | Some _ => true
  | None => false
  end.

(** ** A small world

    One lead with one scored page view at time 200; purchases have a rule
    that is switched off. *)

Definition ann : Lead.t :=
  Lead.make "L1" "Ann" "ann@example.com" None 5 "new" 0 3.

Definition page_view_rule : ScoringRule.t :=
  ScoringRule.make "page_view" 5 true None.

Definition purchase_rule_off : ScoringRule.t :=
  ScoringRule.make "purchase" 100 false None.

Definition first_view : Event.t :=
  Event.make "e0" "page_view" "L1" 200 [] true (Some 3) 3.

Definition first_row : ScoreHistory.t :=
  ScoreHistory.make "L1" 5 0 5 "e0" "page_view" "page_view (+5 points)" 200 3.

Definition small_world : World :=
  mkWorld [ann] [first_view] [first_row] [page_view_rule; purchase_rule_off] true [] None.

Definition later_view : EventData := mkEventData "e1" "page_view" "L1" (Some 300) None.
Definition earlier_view : EventData := mkEventData "e2" "page_view" "L1" (Some 100) None.

(** ** Batches, default rules and priorities

    [processBatch] and [initializeScoringRules] of [services/scoringEngine.js],
    [getPriority] of [services/eventQueue.js]. *)

(** [try { await call } catch (error) { ... }]: the exception becomes a
    value. *)
Definition attempt {A} (m : M A) : M (Completion A) :=
  fun w => let (w', c) := m w in (w', Return c).

(** The counters of [processBatch]; an entry of [errors] holds the eventId
    and the exception whose message is reported. *)
Record BatchResults := mkBatchResults {
  b_processed : nat;
  b_failed : nat;
  b_duplicates : nat;
  b_errors : list (string * Exception)
}.

Definition count_processed (r : BatchResults) : BatchResults :=
  mkBatchResults (S (b_processed r)) (b_failed r) (b_duplicates r) (b_errors r).
Definition count_duplicate (r : BatchResults) : BatchResults :=
  mkBatchResults (b_processed r) (b_failed r) (S (b_duplicates r)) (b_errors r).
Definition count_failed (eventId : string) (error : Exception) (r : BatchResults)
  : BatchResults :=
  mkBatchResults (b_processed r) (S (b_failed r)) (b_duplicates r)
    (b_errors r ++ [(eventId, error)]).

(** [result.duplicate] *)
Definition is_duplicate (r : ProcessResult) : bool :=
  match r with
  | Duplicate => true
  | _ => false
  end.

Section Batch.

Variable MAX_SCORE : Z.

(** [events.sort((a, b) => new Date(a.timestamp) - new Date(b.timestamp))]:
    some rearrangement of the batch; which one is left to the caller of
    the model, since events may lack a timestamp. *)
Variable sort_events : list EventData -> list EventData.

(** The clock at each turn of the loop. *)
Variable clock : nat -> Date.

Fixpoint processBatch_loop (i : nat) (sortedEvents : list EventData)
    (results : BatchResults) : M BatchResults :=
  match sortedEvents with
  | [] => ret results
  | event :: rest =>
      c <- attempt (processEvent MAX_SCORE (clock i) event) ;;
      match c with
      | Return result =>
          if is_duplicate result
          then processBatch_loop (S i) rest (count_duplicate results)
          else processBatch_loop (S i) rest (count_processed results)
      | Throw error =>
          processBatch_loop (S i) rest (count_failed (d_eventId event) error results)
      end
  end.

Definition processBatch (events : list EventData) : M BatchResults :=
  processBatch_loop 0 (sort_events events) (mkBatchResults 0 0 0 []).

End Batch.

(** A stable sort of a batch by timestamp, for batches whose events all
    carry one. *)
Definition batch_time (d : EventData) : Date :=
  match d_timestamp d with
  | Some t => t
  | None => 0
  end.

Fixpoint insert_event_data (d : EventData) (l : list EventData) : list EventData :=
  match l with
  | [] => [d]
  | x :: t => if batch_time d <=? batch_time x
              then d :: x :: t
              else x :: insert_event_data d t
  end.

Fixpoint sort_batch (l : list EventData) : list EventData :=
  match l with
  | [] => []
  | d :: t => insert_event_data d (sort_batch t)
  end.

(** [defaultRules] of [initializeScoringRules]: eventType, points,
    description. *)
Definition defaultRules : list (string * Z * string) :=
  [("email_open", 10, "Lead opened an email");
   ("page_view", 5, "Lead viewed a page");
   ("form_submission", 20, "Lead submitted a form");
   ("demo_request", 50, "Lead requested a demo");
   ("purchase", 100, "Lead made a purchase")].

(** [findOneAndUpdate({eventType}, {eventType, points, description},
    {upsert: true})]: the first rule of the type gets the points and the
    description and keeps its other fields; without one, a rule is
    inserted, [active] by the schema default. *)
Fixpoint upsert_rule (eventType : string) (points : Z) (description : string)
    (l : list ScoringRule.t) : list ScoringRule.t :=
  match l with
  | [] => [ScoringRule.make eventType points true (Some description)]
  | r :: t =>
      if String.eqb (ScoringRule.eventType r) eventType
      then ScoringRule.make eventType points (ScoringRule.active r) (Some description) :: t
      else r :: upsert_rule eventType points description t
  end.

Definition ScoringRule_findOneAndUpdate (eventType : string) (points : Z)
    (description : string) : M unit :=
  await (update (fun w =>
    set_scoringRules (upsert_rule eventType points description (scoringRules w)) w)).

Fixpoint upsert_all (rules : list (string * Z * string)) : M unit :=
  match rules with
  | [] => ret tt
  | (eventType, points, description) :: rest =>
      ScoringRule_findOneAndUpdate eventType points description ;;
      upsert_all rest
  end.

Definition initializeScoringRules : M unit := upsert_all defaultRules.

(** The rules as a pure function of the rule table, one upsert after the
    other. *)
Definition with_default_rules (l : list ScoringRule.t) : list ScoringRule.t :=
  fold_left (fun acc r => upsert_rule (fst (fst r)) (snd (fst r)) (snd r) acc) defaultRules l.

(** [ScoringRule.findOne({eventType})], active or not. *)
Definition find_rule (eventType : string) (l : list ScoringRule.t) : option ScoringRule.t :=
  find (fun r => String.eqb (ScoringRule.eventType r) eventType) l.

(** The keys every object inherits from [Object.prototype]. *)
Definition inherited_keys : list string :=
  ["constructor"; "__defineGetter__"; "__defineSetter__"; "hasOwnProperty";
   "__lookupGetter__"; "__lookupSetter__"; "isPrototypeOf"; "propertyIsEnumerable";
   "toString"; "valueOf"; "__proto__"; "toLocaleString"].

Definition priorities : list (string * Z) :=
  [("purchase", 1); ("demo_request", 2); ("form_submission", 3);
   ("email_open", 4); ("page_view", 5)].

Fixpoint assoc {A} (key : string) (l : list (string * A)) : option A :=
  match l with
  | [] => None
  | (k, v) :: t => if String.eqb k key then Some v else assoc key t
  end.

(** [priorities[eventType] || 5]: the number of the table, 5 for a missing
    key; [None] when the key is one every object inherits, whose value is a
    function or an object and comes back as it is. *)
Definition getPriority (eventType : string) : option Z :=
  match assoc eventType priorities with
  | Some p => Some (if p =? 0 then 5 else p)
  | None =>
      if existsb (String.eqb eventType) inherited_keys then None else Some 5
  end.

(** ** Routes of [server.js] that drive the engine *)

Record ReplayRow := mkReplayRow {
  p_leadId : ObjectId;
  p_leadName : string;
  p_previousScore : Z;
  p_newScore : Z;
  p_change : Z;
  p_eventsProcessed : nat
}.

Record ReplayResponse := mkReplayResponse {
  p_success : bool;
  p_message : string;
  p_results : list ReplayRow
}.

Definition Lead_find_all : M (list Lead.t) :=
  await (query (fun w => leads w)).

(** [Lead.findByIdAndDelete(id)]: the first lead with the id is removed and
    returned.  As with [Lead.findById], a string that is no ObjectId makes
    Mongoose reject the call; such strings are not ids of this model. *)
Fixpoint remove_lead (id : ObjectId) (l : list Lead.t) : list Lead.t :=
  match l with
  | [] => []
  | x :: t => if String.eqb (Lead._id x) id then t else x :: remove_lead id t
  end.

Definition Lead_findByIdAndDelete (id : ObjectId) : M (option Lead.t) :=
  await (fun w => (set_leads (remove_lead id (leads w)) w, find_lead id (leads w))).

Definition Event_deleteMany (leadId : ObjectId) : M unit :=
  await (update (fun w =>
    set_events (filter (fun e => negb (String.eqb (Event.leadId e) leadId)) (events w)) w)).

Inductive DeleteResponse :=
| LeadNotFound404
| LeadDeleted (deletedLead : string).

(** [app.delete('/api/leads/:id', ...)] *)
Definition delete_lead (id : ObjectId) : M DeleteResponse :=
  lead <- Lead_findByIdAndDelete id ;;
  match lead with
  | None => ret LeadNotFound404
  | Some lead =>
      Event_deleteMany id ;;
      ScoreHistory_deleteMany id ;;
      ret (LeadDeleted (Lead.name lead))
  end.

Section Routes.

Variable MAX_SCORE : Z.

(** The [for] loop of [app.post('/api/replay', ...)]; [clock i] is the
    time of the recalculation at turn [i]. *)
Fixpoint replay_all_loop (clock : nat -> Date) (i : nat) (ls : list Lead.t)
    (results : list ReplayRow) : M (list ReplayRow) :=
  match ls with
  | [] => ret results
  | lead :: rest =>
      result <- recalculateLeadScore MAX_SCORE (clock i) (Lead._id lead) ;;
      replay_all_loop clock (S i) rest
        (results ++
         [mkReplayRow (Lead._id lead) (Lead.name lead)
            (r_previousScore result) (r_newScore result)
            (r_newScore result - r_previousScore result)
            (r_eventsProcessed result)])
  end.

Definition replay_all (clock : nat -> Date) : M ReplayResponse :=
  ls <- Lead_find_all ;;
  results <- replay_all_loop clock 0 ls [] ;;
  ret (mkReplayResponse true
         ("Recalculated scores for " ++ string_of_Z (Z.of_nat (List.length ls)) ++ " leads")
         results).

End Routes.

(** ** Request validation ([middleware/validation.js]) *)

(** The values of a parsed JSON body.  Of a number only whether it is zero
    matters below. *)
#[local] Unset Elimination Schemes.
Inductive JsValue :=
| JUndefined
| JNull
| JBool (b : bool)
| JNumber (n : Z)
| JString (s : string)
| JArray (items : list JsValue)
| JObject (fields : list (string * JsValue)).
#[local] Set Elimination Schemes.

Definition truthy (v : JsValue) : bool :=
  match v with
  | JUndefined | JNull => false
  | JBool b => b
  | JNumber n => negb (n =? 0)
  | JString s => negb (String.eqb s "")
  | JArray _ | JObject _ => true
  end.

Definition is_string (v : JsValue) : bool :=
  match v with
  | JString _ => true
  | _ => false
  end.

(** [v.key]: the property of an object, whose keys are listed once each;
    [undefined] for a missing key and for a number, string, boolean or
    array, which have no such property. *)
Definition field (key : string) (v : JsValue) : JsValue :=
  match v with
  | JObject fields => match assoc key fields with Some x => x | None => JUndefined end
  | _ => JUndefined
  end.

Definition validEventTypes : list string :=
  ["email_open"; "page_view"; "form_submission"; "demo_request"; "purchase"].

(** [validEventTypes.includes(v)] *)
Definition includes_type (v : JsValue) : bool :=
  match v with
  | JString s => existsb (String.eqb s) validEventTypes
  | _ => false
  end.

(** [list.join(', ')] *)
Fixpoint join (l : list string) : string :=
  match l with
  | [] => ""
  | [s] => s
  | s :: t => s ++ ", " ++ join t
  end.

(** [null] and [undefined]: reading a property of either throws. *)
Definition nullish (v : JsValue) : bool :=
  match v with
  | JUndefined | JNull => true
  | _ => false
  end.

(** What a validator does: call [next()], answer 400, or throw the
    TypeError of a property read on [null]. *)
Inductive Answer :=
| Next
| Status400 (error : string) (details : list string) (totalErrors : option nat)
| ThrowsTypeError.

Section Validation.

(** [mongoose.Types.ObjectId.isValid] and whether [new Date(v).getTime()]
    is a number: library code, taken as given. *)
Variable ObjectId_isValid : JsValue -> bool.
Variable is_date : JsValue -> bool.

Definition validateEvent_errors (body : JsValue) : list string :=
  let eventId := field "eventId" body in
  let eventType := field "eventType" body in
  let leadId := field "leadId" body in
  let timestamp := field "timestamp" body in
  (if negb (truthy eventId) || negb (is_string eventId)
   then ["eventId is required and must be a string"] else []) ++
  (if negb (truthy eventType) || negb (is_string eventType)
   then ["eventType is required and must be a string"] else []) ++
  (if truthy eventType && negb (includes_type eventType)
   then ["eventType must be one of: " ++ join validEventTypes] else []) ++
  (if negb (truthy leadId) || negb (is_string leadId)
   then ["leadId is required and must be a string"] else []) ++
  (if truthy leadId && negb (ObjectId_isValid leadId)
   then ["leadId must be a valid MongoDB ObjectId"] else []) ++
  (if truthy timestamp && negb (is_date timestamp)
   then ["timestamp must be a valid ISO 8601 date string"] else []).

Definition validateEvent (body : JsValue) : Answer :=
  if nullish body then ThrowsTypeError
  else
    let errors := validateEvent_errors body in
    if (0 <? List.length errors)%nat
    then Status400 "Validation failed" errors None
    else Next.

(** The body of [events.forEach((event, index) => ...)]. *)
Definition batch_event_errors (index : nat) (event : JsValue) : list string :=
  let at_index := "Event " ++ string_of_Z (Z.of_nat index) in
  (if negb (truthy (field "eventId" event))
   then [at_index ++ ": eventId is required"] else []) ++
  (if negb (truthy (field "eventType" event)) || negb (includes_type (field "eventType" event))
   then [at_index ++ ": invalid eventType"] else []) ++
  (if negb (truthy (field "leadId" event)) || negb (ObjectId_isValid (field "leadId" event))
   then [at_index ++ ": invalid leadId"] else []).

Fixpoint batch_errors (index : nat) (events : list JsValue) : list string :=
  match events with
  | [] => []
  | event :: rest => batch_event_errors index event ++ batch_errors (S index) rest
  end.

Definition validateBatchEvents (body : JsValue) : Answer :=
  if nullish body then ThrowsTypeError else
  match field "events" body with
  | JArray events =>
      if (List.length events =? 0)%nat
      then Status400 "events array cannot be empty" [] None
      else if (1000 <? List.length events)%nat
      then Status400 "Maximum 1000 events allowed per batch" [] None
      else if existsb nullish events
      then ThrowsTypeError
      else
        let errors := batch_errors 0 events in
        if (0 <? List.length errors)%nat
        then Status400 "Batch validation failed" (firstn 10 errors)
               (Some (List.length errors))
        else Next
  | _ => Status400 "events must be an array" [] None
  end.

End Validation.

(** No ScoreHistory row and no processed event. *)
Definition unscored (w : World) : Prop :=
  scoreHistory w = [] /\ Forall (fun e => Event.processed e = false) (events w).

(** A history that reads as a chain from [start]: each row starts at the
    score of the one before and records the difference. *)
Fixpoint chained (start : Z) (rows : list ScoreHistory.t) : Prop :=
  match rows with
  | [] => True
  | r :: rest =>
      ScoreHistory.previousScore r = start /\
      ScoreHistory.change r = ScoreHistory.score r - start /\
      chained (ScoreHistory.score r) rest
  end.

(** The points of the events that have an active rule, added up. *)
Fixpoint total_points (rules : list ScoringRule.t) (evs : list Event.t) : Z :=
  match evs with
  | [] => 0
  | e :: rest =>
      match find_active_rule (Event.eventType e) rules with
      | Some rule => ScoringRule.points rule + total_points rules rest
      | None => total_points rules rest
      end
  end.

(** The same event handed to [processEvent] again and again, as a queue
    does with a failing job. *)
Fixpoint attempts (MAX_SCORE : Z) (clock : nat -> Date) (i n : nat)
    (eventData : EventData) (w : World) : World :=
  match n with
  | O => w
  | S k =>
      attempts MAX_SCORE clock (S i) k eventData
        (fst (processEvent MAX_SCORE (clock i) eventData w))
  end.

(** Two worlds with the same collections and fault budget; the socket
    server and the messages sent may differ. *)
Definition same_data (a b : World) : Prop :=
  leads a = leads b /\ events a = events b /\ scoreHistory a = scoreHistory b /\
  scoringRules a = scoringRules b /\ faults a = faults b.

(** A computation that does not look at the socket server. *)
Definition deaf {A} (m : M A) : Prop :=
  forall a b, same_data a b ->
    same_data (fst (m a)) (fst (m b)) /\ snd (m a) = snd (m b).

(** The leads with an id of [ids] have the score of their ledger. *)
Definition consistent_for (ids : list ObjectId) (w : World) : Prop :=
  forall l, In l (leads w) -> In (Lead._id l) ids ->
    Lead.currentScore l = ledger_score (Lead._id l) (scoreHistory w).

(** What [processEvent] has sent when it completes with [c]: the broadcast
    and the room message of an out-of-order result when the socket server
    is up, nothing otherwise. *)
Definition announced (up : bool) (before after : list (string * ScoreUpdate))
    (c : Completion ProcessResult) : Prop :=
  match c with
  | Return (Recalculated id p n ch t) =>
      if up
      then exists data,
             after = (before ++ [("score:updated", data); ("lead:score:updated", data)])%list /\
             u_leadId data = id /\ u_previousScore data = p /\ u_newScore data = n /\
             u_change data = ch /\ u_eventType data = t /\ u_outOfOrder data = Some true
      else after = before
  | _ => after = before
  end.

(** An event of a batch that [validateBatchEvents] finds no fault with. *)
Definition batch_event_ok (ObjectId_isValid : JsValue -> bool) (event : JsValue) : Prop :=
  truthy (field "eventId" event) = true /\
  includes_type (field "eventType" event) = true /\
  truthy (field "leadId" event) = true /\
  ObjectId_isValid (field "leadId" event) = true.

(** ** More sample data *)

(** The lead before anything was scored. *)
Definition fresh_world : World :=
  mkWorld [Lead.make "L1" "Ann" "ann@example.com" None 0 "new" 0 0] [] []
    [page_view_rule] true [] None.

(** The small world without a socket server. *)
Definition quiet_world : World :=
  mkWorld [ann] [first_view] [first_row] [page_view_rule; purchase_rule_off] false [] None.

Definition second_view : Event.t :=
  Event.make "e5" "page_view" "L1" 300 [] true (Some 4) 4.

(** Two processed page views, delivered in either order. *)
Definition world_in_order : World :=
  mkWorld [ann] [first_view; second_view] [first_row]
    [page_view_rule; purchase_rule_off] true [] None.

Definition world_reordered : World :=
  mkWorld [ann] [second_view; first_view] [first_row]
    [page_view_rule; purchase_rule_off] true [] None.

Definition ticking (i : nat) : Date := 7 + Z.of_nat i.

(** Stand-ins for the two library checks: 24 characters make an ObjectId,
    any string is a date. *)
Definition sample_isValid (v : JsValue) : bool :=
  match v with
  | JString s => (String.length s =? 24)%nat
  | _ => false
  end.

Definition sample_is_date (v : JsValue) : bool := is_string v.

Definition sample_event : JsValue :=
  JObject [("eventId", JString "e1"); ("eventType", JString "page_view");
           ("leadId", JString "64b7f0c2a1d3e4f5a6b7c8d9")].


(** ** A busier world

    Ann has four scored page views, stored out of time order, two of them
    at time 400; the latest entry of the collection is Bob's. *)

Definition bob : Lead.t :=
  Lead.make "L2" "Bob" "bob@example.com" None 5 "new" 0 6.

Definition view_at (eventId : string) (t : Date) : Event.t :=
  Event.make eventId "page_view" "L1" t [] true (Some 6) 6.

Definition row_at (eventId : string) (t : Date) (score : Z) : ScoreHistory.t :=
  ScoreHistory.make "L1" score (score - 5) 5 eventId "page_view" "page_view (+5 points)" t 6.

Definition bobs_view : Event.t :=
  Event.make "b0" "page_view" "L2" 900 [] true (Some 6) 6.

Definition busy_world : World :=
  mkWorld [Lead.make "L1" "Ann" "ann@example.com" None 20 "new" 0 6; bob]
    [view_at "e0" 200; view_at "e5" 400; view_at "e6" 300; view_at "e8" 400; bobs_view]
    [row_at "e0" 200 5; row_at "e5" 400 15; row_at "e6" 300 10; row_at "e8" 400 20;
     ScoreHistory.make "L2" 5 0 5 "b0" "page_view" "page_view (+5 points)" 900 6]
    [page_view_rule; purchase_rule_off] true [] None.

(** A view that is later than Ann's first and last stored entries and
    earlier than her entries at 400, and one at 400. *)
Definition between_view : EventData := mkEventData "e7" "page_view" "L1" (Some 350) None.
Definition tied_view : EventData := mkEventData "e9" "page_view" "L1" (Some 400) None.

(** ** A ledger that reaches both ends of the range

    Rules with a large gain and a loss; the form rule is switched off. *)









(** ** Running calls that do not fail *)

Lemma set_faults_same w : set_faults (faults w) w = w.
Proof. destruct w; reflexivity. Qed.

Lemma bind_await_query {A B} (q : World -> A) (f : A -> M B) w :
  faults w = None -> bind (await (query q)) f w = f (q w) w.
Proof. intros H. unfold bind, await, query. rewrite H. reflexivity. Qed.

Lemma bind_await_update {B} (u : World -> World) (f : unit -> M B) w :
  faults w = None -> bind (await (update u)) f w = f tt (u w).
Proof. intros H. unfold bind, await, update. rewrite H. reflexivity. Qed.

Lemma bind_ret {A B} (a : A) (f : A -> M B) w : bind (ret a) f w = f a w.
Proof. reflexivity. Qed.

Lemma bind_throw {A B} e (f : A -> M B) w : bind (throw e) f w = (w, Throw e).
Proof. reflexivity. Qed.

Lemma bind_assoc {A B C} (m : M A) (f : A -> M B) (g : B -> M C) w :
  bind (bind m f) g w = bind m (fun a => bind (f a) g) w.
Proof. unfold bind. destruct (m w) as [w' [a|e]]; reflexivity. Qed.

Ltac calls :=
  unfold Event_findOne, Lead_findById, ScoringRule_findOne, ScoreHistory_findLatest,
    Event_find_processed, Event_insert, Event_save, Lead_save, ScoreHistory_save,
    ScoreHistory_deleteMany, ScoreHistory_insertMany.

Ltac step :=
  first [ rewrite bind_await_query by (simpl; assumption)
        | rewrite bind_await_update by (simpl; assumption)
        | rewrite bind_ret
        | rewrite bind_throw ]; simpl.

Section EngineFacts.

Variable MAX_SCORE : Z.

Lemma cap_clamp s : cap MAX_SCORE s = clamp s 0 MAX_SCORE.
Proof.
  unfold cap, clamp.
  destruct (s >? MAX_SCORE) eqn:H1.
  - destruct (MAX_SCORE <? 0) eqn:H2; lia.
  - destruct (s <? 0) eqn:H2; lia.
Qed.

Lemma cap_bounds s : 0 <= MAX_SCORE -> 0 <= cap MAX_SCORE s <= MAX_SCORE.
Proof. intros H. rewrite cap_clamp. unfold clamp. lia. Qed.

(** The three ways out of [processEvent] past its guards, when no call
    fails. *)
Lemma processEvent_past_guards now eventData w lead rule :
  faults w = None ->
  already_processed (d_eventId eventData) w = false ->
  find_lead (d_leadId eventData) (leads w) = Some lead ->
  find_active_rule (d_eventType eventData) (scoringRules w) = Some rule ->
  processEvent MAX_SCORE now eventData w =
    let w1 := fst (ledgered now eventData w) in
    let event := snd (ledgered now eventData w) in
    if isOutOfOrder (latest (filter (of_lead (d_leadId eventData)) (scoreHistory w)))
         (Event.timestamp event)
    then
      match recalculateLeadScore MAX_SCORE now (d_leadId eventData)
              (set_events (replace_event (Event.mark_processed now event) (events w1)) w1)
      with
      | (w3, Return r) =>
          (fst (emitScoreUpdate
                  (mkScoreUpdate (Lead._id lead) (Lead.name lead) (Lead.email lead)
                     (r_previousScore r) (r_newScore r) (r_newScore r - r_previousScore r)
                     (d_eventType eventData) (Event.timestamp event) (Some true)) w3),
           Return (Recalculated (Lead._id lead) (r_previousScore r) (r_newScore r)
                     (r_newScore r - r_previousScore r) (d_eventType eventData)))
      | (w3, Throw e) => (w3, Throw e)
      end
    else
      (set_leads
         (replace_lead
            (Lead.rescore (cap MAX_SCORE (Lead.currentScore lead + ScoringRule.points rule))
               now lead) (leads w1)) w1,
       Throw (ReferenceError "change")).
Proof.
  intros Hf Hdup Hlead Hrule.
  unfold already_processed in Hdup.
  unfold processEvent, ledgered. calls.
  step. rewrite Hdup. step. rewrite Hlead. step. rewrite Hrule.
  destruct (find_event (d_eventId eventData) (events w)) as [e|] eqn:He.
  - step. step.
    destruct (isOutOfOrder _ _).
    + step. unfold bind at 1.
      destruct (recalculateLeadScore _ _ _ _) as [w3 [r|e']]; [|reflexivity].
      unfold bind, emitScoreUpdate, ret. simpl. destruct (io w3); reflexivity.
    + step. unfold unbound. step. reflexivity.
  - rewrite bind_assoc. step. step. step.
    destruct (isOutOfOrder _ _).
    + step. unfold bind at 1.
      destruct (recalculateLeadScore _ _ _ _) as [w3 [r|e']]; [|reflexivity].
      unfold bind, emitScoreUpdate, ret. simpl. destruct (io w3); reflexivity.
    + step. unfold unbound. step. reflexivity.
Qed.

End EngineFacts.

(** ** The timestamp sort *)

Lemma insert_by_timestamp_Forall (P : Event.t -> Prop) e l :
  P e -> Forall P l -> Forall P (insert_by_timestamp e l).
Proof.
  intros He Hl. induction Hl as [|x t Hx Ht IH]; simpl.
  - constructor; [assumption | constructor].
  - destruct (Event.timestamp e <=? Event.timestamp x); repeat constructor; assumption.
Qed.

Lemma insert_by_timestamp_ascending e l :
  ascending l -> ascending (insert_by_timestamp e l).
Proof.
  unfold ascending. intros Hl. induction Hl as [|x t Ht IH Hx]; simpl.
  - repeat constructor.
  - destruct (Event.timestamp e <=? Event.timestamp x) eqn:Hle.
    + apply Z.leb_le in Hle. constructor.
      * constructor; assumption.
      * constructor; [assumption|].
        eapply Forall_impl; [|exact Hx]. simpl. intros; lia.
    + apply Z.leb_gt in Hle. constructor; [assumption|].
      apply insert_by_timestamp_Forall; [lia | assumption].
Qed.

Lemma sort_by_timestamp_ascending l : ascending (sort_by_timestamp l).
Proof.
  induction l as [|e t IH]; simpl.
  - constructor.
  - apply insert_by_timestamp_ascending, IH.
Qed.

Lemma filter_insert_by_timestamp (p : Event.t -> bool) e l :
  List.length (filter p (insert_by_timestamp e l)) = List.length (filter p (e :: l)).
Proof.
  induction l as [|x r IH]; simpl; [reflexivity|].
  destruct (Event.timestamp e <=? Event.timestamp x); [reflexivity|].
  simpl in *. destruct (p x), (p e); simpl in *; lia.
Qed.

Lemma filter_sort_by_timestamp (p : Event.t -> bool) l :
  List.length (filter p (sort_by_timestamp l)) = List.length (filter p l).
Proof.
  induction l as [|e r IH]; simpl; [reflexivity|].
  rewrite filter_insert_by_timestamp. simpl. destruct (p e); simpl; lia.
Qed.

Lemma insert_by_timestamp_perm e l : Permutation (insert_by_timestamp e l) (e :: l).
Proof.
  induction l as [|x t IH]; simpl; [reflexivity|].
  destruct (Event.timestamp e <=? Event.timestamp x); [reflexivity|].
  rewrite IH. apply perm_swap.
Qed.

Lemma sort_by_timestamp_perm l : Permutation (sort_by_timestamp l) l.
Proof.
  induction l as [|e t IH]; simpl; [reflexivity|].
  rewrite insert_by_timestamp_perm, IH. reflexivity.
Qed.

Lemma ascending_strict l :
  ascending l -> NoDup (map Event.timestamp l) ->
  StronglySorted (fun a b => Event.timestamp a < Event.timestamp b) l.
Proof.
  unfold ascending. induction 1 as [|a t Ht IH Ha]; intros Hnd; simpl in *.
  - constructor.
  - inversion Hnd as [|? ? Hnot Hnd']; subst.
    constructor; [apply IH, Hnd'|].
    rewrite Forall_forall in *. intros x Hx. specialize (Ha x Hx).
    assert (Event.timestamp a <> Event.timestamp x).
    { intros E. apply Hnot. rewrite E. apply in_map, Hx. }
    lia.
Qed.

Lemma strictly_sorted_unique : forall l1 l2,
  StronglySorted (fun a b => Event.timestamp a < Event.timestamp b) l1 ->
  StronglySorted (fun a b => Event.timestamp a < Event.timestamp b) l2 ->
  (forall x, In x l1 <-> In x l2) ->
  l1 = l2.
Proof.
  induction l1 as [|a t1 IH]; intros l2 H1 H2 Hin.
  - destruct l2 as [|b t2]; [reflexivity|].
    exfalso. apply (proj2 (Hin b)). left. reflexivity.
  - destruct l2 as [|b t2].
    { exfalso. apply (proj1 (Hin a)). left. reflexivity. }
    inversion H1 as [|? ? S1 F1]; subst. inversion H2 as [|? ? S2 F2]; subst.
    rewrite Forall_forall in F1, F2.
    assert (Hab : a = b).
    { destruct (proj1 (Hin a) (or_introl eq_refl)) as [Hb|Hb]; [congruence|].
      destruct (proj2 (Hin b) (or_introl eq_refl)) as [Ha|Ha]; [congruence|].
      specialize (F1 b Ha). specialize (F2 a Hb). lia. }
    subst b. f_equal. apply IH; try assumption.
    intros x. split; intros Hx.
    + destruct (proj1 (Hin x) (or_intror Hx)) as [E|E]; [|exact E].
      subst x. specialize (F1 a Hx). lia.
    + destruct (proj2 (Hin x) (or_intror Hx)) as [E|E]; [|exact E].
      subst x. specialize (F2 a Hx). lia.
Qed.

(** ** The most recent entry *)

Lemma latest_greatest l m :
  latest l = Some m ->
  In m l /\
  Forall (fun h => ScoreHistory.timestamp h <= ScoreHistory.timestamp m) l.
Proof.
  revert m. induction l as [|h t IH]; intros m; simpl; [discriminate|].
  destruct (latest t) as [m0|] eqn:Ht.
  - destruct (IH m0 eq_refl) as [Hin Hall].
    destruct (ScoreHistory.timestamp h <? ScoreHistory.timestamp m0) eqn:Hlt;
      intros E; injection E as <-.
    + apply Z.ltb_lt in Hlt. split; [right; exact Hin|].
      constructor; [lia | exact Hall].
    + apply Z.ltb_ge in Hlt. split; [left; reflexivity|].
      constructor; [lia|].
      eapply Forall_impl; [|exact Hall]. simpl. intros; lia.
  - intros E; injection E as <-. split; [left; reflexivity|].
    constructor; [lia|].
    destruct t as [|x t']; [constructor|].
    simpl in Ht. destruct (latest t'); [destruct (_ <? _)|]; discriminate.
Qed.

Lemma latest_some l h : In h l -> exists m, latest l = Some m.
Proof.
  destruct l as [|x t]; [contradiction|]. intros _. simpl.
  destruct (latest t) as [m0|]; [destruct (_ <? _)|]; eauto.
Qed.

(** Whichever most recent entry one looks at, [latest] has its timestamp. *)
Lemma latest_most_recent leadId l h :
  most_recent_entry leadId l h ->
  exists m, latest (filter (of_lead leadId) l) = Some m /\
            ScoreHistory.timestamp m = ScoreHistory.timestamp h.
Proof.
  intros (Hin & Hid & Hmax).
  assert (Hh : In h (filter (of_lead leadId) l)).
  { apply filter_In. split; [exact Hin|]. unfold of_lead. rewrite Hid.
    apply String.eqb_refl. }
  destruct (latest_some _ _ Hh) as [m Hm]. exists m. split; [exact Hm|].
  destruct (latest_greatest _ _ Hm) as [Hmin Hall].
  rewrite Forall_forall in Hall. specialize (Hall h Hh).
  apply filter_In in Hmin. destruct Hmin as [Hml Hmid].
  unfold of_lead in Hmid. apply String.eqb_eq in Hmid.
  specialize (Hmax m Hml Hmid). lia.
Qed.

Lemma last_cons {A} (a d : A) l : last (a :: l) d = last l a.
Proof.
  revert a d. induction l as [|b t IH]; intros a d; [reflexivity|].
  change (last (a :: b :: t) d) with (last (b :: t) d).
  rewrite !IH. reflexivity.
Qed.

Section RecalculationFacts.

Variable MAX_SCORE : Z.

(** The loop computes the replay and touches nothing. *)
Lemma replay_fault_free leadId evs : forall totalScore newHistory w,
  faults w = None ->
  replay MAX_SCORE leadId evs totalScore newHistory w =
    (w, Return (final_score totalScore (replayed MAX_SCORE (scoringRules w) leadId evs totalScore),
                (newHistory ++ replayed MAX_SCORE (scoringRules w) leadId evs totalScore)%list)).
Proof.
  induction evs as [|e rest IH]; intros totalScore newHistory w Hf; simpl.
  - unfold ret. rewrite app_nil_r. reflexivity.
  - calls. step.
    destruct (find_active_rule (Event.eventType e) (scoringRules w)) as [rule|].
    + rewrite IH by assumption. rewrite cap_clamp.
      unfold final_score. simpl map. rewrite last_cons.
      rewrite <- app_assoc. reflexivity.
    + apply IH; assumption.
Qed.

Lemma recalculateLeadScore_unknown_lead now leadId w :
  faults w = None ->
  find_lead leadId (leads w) = None ->
  recalculateLeadScore MAX_SCORE now leadId w = (w, Throw (Error "Lead not found")).
Proof.
  intros Hf Hl. unfold recalculateLeadScore. calls. step. rewrite Hl. reflexivity.
Qed.

Lemma recalculateLeadScore_fault_free now leadId w lead :
  faults w = None ->
  find_lead leadId (leads w) = Some lead ->
  let evs := sort_by_timestamp (processed_events_of leadId (events w)) in
  let rows := replayed MAX_SCORE (scoringRules w) leadId evs 0 in
  recalculateLeadScore MAX_SCORE now leadId w =
    (set_leads (replace_lead (Lead.rescore (final_score 0 rows) now lead) (leads w))
       (set_scoreHistory
          (filter (fun h => negb (of_lead leadId h)) (scoreHistory w)
           ++ map (ScoreHistory.new now) rows) w),
     Return (mkRecalcResult leadId (Lead.currentScore lead) (final_score 0 rows)
               (List.length evs))).
Proof.
  intros Hf Hl evs rows. unfold recalculateLeadScore. calls.
  step. rewrite Hl. step.
  unfold bind at 1. rewrite replay_fault_free by assumption. simpl.
  fold evs. fold rows.
  step.
  destruct rows as [|r rs] eqn:Hrows; simpl.
  - step. step. unfold ret. rewrite app_nil_r. reflexivity.
  - step. step. reflexivity.
Qed.

End RecalculationFacts.

(** ** The event ledger *)

Lemma find_event_eventId eventId l e :
  find_event eventId l = Some e -> Event.eventId e = eventId.
Proof.
  unfold find_event. intros H. apply find_some in H. apply String.eqb_eq, H.
Qed.

Lemma find_event_replace e l e0 :
  find_event (Event.eventId e) l = Some e0 ->
  find_event (Event.eventId e) (replace_event e l) = Some e.
Proof.
  unfold find_event, replace_event. induction l as [|y r IH]; simpl; [discriminate|].
  destruct (String.eqb (Event.eventId y) (Event.eventId e)) eqn:Hy.
  - intros _. rewrite String.eqb_refl. reflexivity.
  - rewrite Hy. exact IH.
Qed.

Lemma find_event_new eventId l e :
  find_event eventId l = None -> Event.eventId e = eventId ->
  find_event eventId (l ++ [e]) = Some e.
Proof.
  unfold find_event. intros Hn He. induction l as [|y r IH]; simpl in *.
  - rewrite He, String.eqb_refl. reflexivity.
  - destruct (String.eqb (Event.eventId y) eventId); [discriminate | auto].
Qed.

Lemma ledgered_found now eventData w :
  find_event (d_eventId eventData) (events (fst (ledgered now eventData w)))
    = Some (snd (ledgered now eventData w)).
Proof.
  unfold ledgered.
  destruct (find_event (d_eventId eventData) (events w)) eqn:He; simpl.
  - assumption.
  - apply find_event_new; [assumption | reflexivity].
Qed.

Lemma ledgered_eventId now eventData w :
  Event.eventId (snd (ledgered now eventData w)) = d_eventId eventData.
Proof. eapply find_event_eventId, ledgered_found. Qed.

Lemma ledgered_rest now eventData w :
  leads (fst (ledgered now eventData w)) = leads w /\
  scoreHistory (fst (ledgered now eventData w)) = scoreHistory w /\
  scoringRules (fst (ledgered now eventData w)) = scoringRules w /\
  faults (fst (ledgered now eventData w)) = faults w.
Proof.
  unfold ledgered. destruct (find_event _ _); simpl; auto.
Qed.

Lemma marked_is_processed now eventData w :
  let w1 := fst (ledgered now eventData w) in
  let event := snd (ledgered now eventData w) in
  find_event (d_eventId eventData)
    (replace_event (Event.mark_processed now event) (events w1))
  = Some (Event.mark_processed now event).
Proof.
  intros w1 event.
  pose proof (ledgered_found now eventData w) as Hf.
  pose proof (ledgered_eventId now eventData w) as Hid.
  fold w1 event in Hf, Hid.
  replace (d_eventId eventData) with (Event.eventId (Event.mark_processed now event))
    by exact Hid.
  eapply find_event_replace. simpl. rewrite Hid. exact Hf.
Qed.

Lemma emitScoreUpdate_store data w :
  leads (fst (emitScoreUpdate data w)) = leads w /\
  events (fst (emitScoreUpdate data w)) = events w /\
  scoreHistory (fst (emitScoreUpdate data w)) = scoreHistory w /\
  scoringRules (fst (emitScoreUpdate data w)) = scoringRules w /\
  faults (fst (emitScoreUpdate data w)) = faults w.
Proof. unfold emitScoreUpdate. destruct (io w); simpl; auto. Qed.

Section Guards.

Variable MAX_SCORE : Z.

Lemma processEvent_already_processed now eventData w :
  faults w = None ->
  already_processed (d_eventId eventData) w = true ->
  processEvent MAX_SCORE now eventData w = (w, Return Duplicate).
Proof.
  intros Hf Hdup. unfold already_processed in Hdup.
  unfold processEvent. calls. step. rewrite Hdup. reflexivity.
Qed.

Lemma processEvent_unknown_lead now eventData w :
  faults w = None ->
  already_processed (d_eventId eventData) w = false ->
  find_lead (d_leadId eventData) (leads w) = None ->
  processEvent MAX_SCORE now eventData w =
    (w, Throw (Error ("Lead " ++ d_leadId eventData ++ " not found"))).
Proof.
  intros Hf Hdup Hl. unfold already_processed in Hdup.
  unfold processEvent. calls. step. rewrite Hdup. step. rewrite Hl. reflexivity.
Qed.

Lemma processEvent_rule_guard now eventData w lead :
  faults w = None ->
  already_processed (d_eventId eventData) w = false ->
  find_lead (d_leadId eventData) (leads w) = Some lead ->
  find_active_rule (d_eventType eventData) (scoringRules w) = None ->
  processEvent MAX_SCORE now eventData w =
    (w, Throw (Error ("No active scoring rule found for event type: "
                      ++ d_eventType eventData))).
Proof.
  intros Hf Hdup Hl Hr. unfold already_processed in Hdup.
  unfold processEvent. calls.
  step. rewrite Hdup. step. rewrite Hl. step. rewrite Hr. reflexivity.
Qed.

End Guards.

(** ** Leads and ledger rows after a recalculation *)

Lemma find_lead_id id l x : find_lead id l = Some x -> Lead._id x = id.
Proof.
  unfold find_lead. intros H. apply find_some in H. apply String.eqb_eq, H.
Qed.

Lemma find_lead_replace id l x0 x :
  find_lead id l = Some x0 -> Lead._id x = id ->
  find_lead id (replace_lead x l) = Some x.
Proof.
  unfold find_lead, replace_lead. intros H Hx. subst id.
  induction l as [|y r IH]; simpl in *; [discriminate|].
  destruct (String.eqb (Lead._id y) (Lead._id x)) eqn:Hy.
  - rewrite String.eqb_refl. reflexivity.
  - rewrite Hy. auto.
Qed.

Lemma replayed_leadId MAX_SCORE rules leadId evs : forall s,
  Forall (fun r => ScoreHistory.f_leadId r = leadId) (replayed MAX_SCORE rules leadId evs s).
Proof.
  induction evs as [|e rest IH]; intros s; simpl; [constructor|].
  destruct (find_active_rule _ _); [constructor|]; auto.
Qed.

Lemma filter_of_lead_new now leadId rows :
  Forall (fun r => ScoreHistory.f_leadId r = leadId) rows ->
  filter (of_lead leadId) (map (ScoreHistory.new now) rows) = map (ScoreHistory.new now) rows.
Proof.
  induction 1 as [|r rs Hr _ IH]; simpl; [reflexivity|].
  unfold of_lead at 1. simpl. rewrite Hr, String.eqb_refl, IH. reflexivity.
Qed.

Lemma filter_of_lead_deleted leadId l :
  filter (of_lead leadId) (filter (fun h => negb (of_lead leadId h)) l) = [].
Proof.
  induction l as [|h t IH]; simpl; [reflexivity|].
  destruct (of_lead leadId h) eqn:Hh; simpl; [assumption|].
  rewrite Hh. assumption.
Qed.

Lemma ledger_after_recalculation MAX_SCORE now leadId rules evs l :
  filter (of_lead leadId)
    (filter (fun h => negb (of_lead leadId h)) l
     ++ map (ScoreHistory.new now) (replayed MAX_SCORE rules leadId evs 0))
  = map (ScoreHistory.new now) (replayed MAX_SCORE rules leadId evs 0).
Proof.
  rewrite filter_app, filter_of_lead_deleted. simpl.
  apply filter_of_lead_new, replayed_leadId.
Qed.

Lemma filter_others_new now leadId rows :
  Forall (fun r => ScoreHistory.f_leadId r = leadId) rows ->
  filter (fun h => negb (of_lead leadId h)) (map (ScoreHistory.new now) rows) = [].
Proof.
  induction 1 as [|r rs Hr _ IH]; simpl; [reflexivity|].
  unfold of_lead at 1. simpl. rewrite Hr, String.eqb_refl. simpl. exact IH.
Qed.

Lemma filter_others_twice leadId l :
  filter (fun h => negb (of_lead leadId h)) (filter (fun h => negb (of_lead leadId h)) l)
  = filter (fun h => negb (of_lead leadId h)) l.
Proof.
  induction l as [|h t IH]; simpl; [reflexivity|].
  destruct (of_lead leadId h) eqn:Hh; simpl; [assumption|].
  rewrite Hh. simpl. f_equal. assumption.
Qed.

Lemma others_after_recalculation MAX_SCORE now leadId rules evs l :
  filter (fun h => negb (of_lead leadId h))
    (filter (fun h => negb (of_lead leadId h)) l
     ++ map (ScoreHistory.new now) (replayed MAX_SCORE rules leadId evs 0))
  = filter (fun h => negb (of_lead leadId h)) l.
Proof.
  rewrite filter_app, filter_others_twice, filter_others_new, app_nil_r;
    [reflexivity | apply replayed_leadId].
Qed.

(** ** The claims on runs without failing calls *)

Section FaultFreeClaims.

Variable MAX_SCORE : Z.


End FaultFreeClaims.

(** Past the guards and in order, every run without failing calls saves the
    lead's new score and then stops at the unbound [change]: no row is
    written, the event stays unprocessed, nothing is emitted. *)
Lemma in_order_path_throws MAX_SCORE now eventData w lead rule :
  faults w = None ->
  already_processed (d_eventId eventData) w = false ->
  find_lead (d_leadId eventData) (leads w) = Some lead ->
  find_active_rule (d_eventType eventData) (scoringRules w) = Some rule ->
  isOutOfOrder (latest (filter (of_lead (d_leadId eventData)) (scoreHistory w)))
    (Event.timestamp (snd (ledgered now eventData w))) = false ->
  let w' := fst (processEvent MAX_SCORE now eventData w) in
  snd (processEvent MAX_SCORE now eventData w) = Throw (ReferenceError "change") /\
  scoreHistory w' = scoreHistory w /\
  emitted w' = emitted w /\
  already_processed (d_eventId eventData) w' = false /\
  find_lead (d_leadId eventData) (leads w') =
    Some (Lead.rescore (clamp (Lead.currentScore lead + ScoringRule.points rule) 0 MAX_SCORE)
            now lead).
Proof.
  intros Hf Hdup Hl Hr Hin w'. subst w'.
  rewrite (processEvent_past_guards MAX_SCORE now eventData w lead rule Hf Hdup Hl Hr).
  simpl. rewrite Hin. simpl.
  destruct (ledgered_rest now eventData w) as (Hleads & Hhist & _).
  split; [reflexivity|]. split; [exact Hhist|].
  split.
  { unfold ledgered. destruct (find_event _ _); reflexivity. }
  split.
  { unfold already_processed in *. simpl. rewrite ledgered_found.
    unfold ledgered. destruct (find_event (d_eventId eventData) (events w)); [exact Hdup|].
    reflexivity. }
  rewrite Hleads, cap_clamp.
  eapply find_lead_replace; [eassumption|]. simpl. eapply find_lead_id; eassumption.
Qed.

(** ** Order: the replay and the out-of-order test *)

Lemma marked_in_ledger now eventData w :
  let event := Event.mark_processed now (snd (ledgered now eventData w)) in
  In event (replace_event event (events (fst (ledgered now eventData w)))).
Proof.
  intros event.
  pose proof (marked_is_processed now eventData w) as Hm. simpl in Hm.
  unfold find_event in Hm. apply find_some in Hm. exact (proj1 Hm).
Qed.


Section OrderClaims.

Variable MAX_SCORE : Z.


(** C3. An event whose timestamp is earlier than that of a most recent
    ScoreHistory entry of its lead gets no local delta.  [processEvent]
    marks it processed and runs the recalculation of the lead on the ledger
    that now holds it; the lead's score becomes the total of a replay, in
    ascending timestamp order, of the lead's processed events, the new one
    among them; and the result is the out-of-order one, with the lead's
    score before as previousScore and that total as newScore. *)
Theorem out_of_order_event_recalculates now eventData w lead rule h :
  faults w = None ->
  already_processed (d_eventId eventData) w = false ->
  find_lead (d_leadId eventData) (leads w) = Some lead ->
  find_active_rule (d_eventType eventData) (scoringRules w) = Some rule ->
  most_recent_entry (d_leadId eventData) (scoreHistory w) h ->
  Event.timestamp (snd (ledgered now eventData w)) < ScoreHistory.timestamp h ->
  let leadId := d_leadId eventData in
  let w1 := fst (ledgered now eventData w) in
  let event := Event.mark_processed now (snd (ledgered now eventData w)) in
  let w2 := set_events (replace_event event (events w1)) w1 in
  exists w3 r loaded,
    recalculateLeadScore MAX_SCORE now leadId w2 = (w3, Return r) /\
    processEvent MAX_SCORE now eventData w =
      (fst (emitScoreUpdate
              (mkScoreUpdate (Lead._id lead) (Lead.name lead) (Lead.email lead)
                 (r_previousScore r) (r_newScore r) (r_newScore r - r_previousScore r)
                 (d_eventType eventData) (Event.timestamp event) (Some true)) w3),
       Return (Recalculated (Lead._id lead) (r_previousScore r) (r_newScore r)
                 (r_newScore r - r_previousScore r) (d_eventType eventData))) /\
    find_event (d_eventId eventData) (events w3) = Some event /\
    Event.processed event = true /\
    already_processed (d_eventId eventData) w3 = true /\
    Permutation loaded
      (filter (fun e => String.eqb (Event.leadId e) leadId && Event.processed e)
         (events w2)) /\
    ascending loaded /\
    (Event.leadId event = leadId -> In event loaded) /\
    r_previousScore r = Lead.currentScore lead /\
    r_newScore r = final_score 0 (replayed MAX_SCORE (scoringRules w) leadId loaded 0) /\
    filter (of_lead leadId) (scoreHistory w3) =
      map (ScoreHistory.new now) (replayed MAX_SCORE (scoringRules w) leadId loaded 0) /\
    option_map Lead.currentScore (find_lead leadId (leads w3)) = Some (r_newScore r) /\
    find_lead leadId (leads w3) = Some (Lead.rescore (r_newScore r) now lead).
Proof.
  intros Hf Hdup Hl Hr Hrecent Hlt leadId w1 event w2. subst leadId.
  destruct (latest_most_recent _ _ _ Hrecent) as (m & Hlatest & Hm).
  destruct (ledgered_rest now eventData w) as (Hleads & Hhist & Hrules & Hfaults).
  fold w1 in Hleads, Hhist, Hrules, Hfaults.
  assert (Hf2 : faults w2 = None) by (simpl; congruence).
  assert (Hl2 : find_lead (d_leadId eventData) (leads w2) = Some lead) by (simpl; congruence).
  pose proof (recalculateLeadScore_fault_free MAX_SCORE now (d_leadId eventData) w2 lead Hf2 Hl2) as Hrec.
  cbv zeta in Hrec.
  pose proof (marked_is_processed now eventData w) as Hmarked. cbv zeta in Hmarked.
  fold w1 event in Hmarked.
  set (loaded := sort_by_timestamp (processed_events_of (d_leadId eventData) (events w2))) in *.
  assert (Hperm : Permutation loaded
            (filter (fun e => String.eqb (Event.leadId e) (d_leadId eventData) && Event.processed e)
               (events w2))) by apply sort_by_timestamp_perm.
  eexists. exists (mkRecalcResult (d_leadId eventData) (Lead.currentScore lead)
                     (final_score 0
                        (replayed MAX_SCORE (scoringRules w2) (d_leadId eventData) loaded 0))
                     (List.length loaded)), loaded.
  split; [exact Hrec|].
  split.
  { rewrite (processEvent_past_guards MAX_SCORE now eventData w lead rule Hf Hdup Hl Hr).
    cbv zeta. rewrite Hlatest. unfold isOutOfOrder.
    assert (Hb : (Event.timestamp (snd (ledgered now eventData w))
                  <? ScoreHistory.timestamp m) = true) by (apply Z.ltb_lt; lia).
    rewrite Hb. fold w1 event w2. rewrite Hrec. reflexivity. }
  cbn [events leads scoreHistory set_leads set_scoreHistory r_previousScore r_newScore].
  split; [exact Hmarked|].
  split; [reflexivity|].
  split.
  { unfold already_processed. cbn [events set_leads set_scoreHistory].
    change (events w2) with (replace_event event (events w1)).
    rewrite Hmarked. reflexivity. }
  split; [exact Hperm|].
  split; [apply sort_by_timestamp_ascending|].
  split.
  { intros Hid. eapply Permutation_in; [symmetry; exact Hperm|].
    apply filter_In. split; [apply (marked_in_ledger now eventData w)|].
    rewrite Hid, String.eqb_refl. reflexivity. }
  assert (Hrules2 : scoringRules w2 = scoringRules w) by (simpl; congruence).
  rewrite Hrules2.
  match goal with
  | |- context [replace_lead ?x (leads w2)] =>
      assert (Hfind : find_lead (d_leadId eventData) (replace_lead x (leads w2)) = Some x)
  end.
  { eapply find_lead_replace; [exact Hl2|]. simpl. eapply find_lead_id; exact Hl. }
  split; [reflexivity|]. split; [reflexivity|].
  split; [apply ledger_after_recalculation|].
  split; [rewrite Hfind; reflexivity | exact Hfind].
Qed.

(** C10. Only timestamps are compared, strictly, and no sequence number or
    position takes part: an event whose timestamp equals that of a most
    recent ScoreHistory entry of its lead, whichever of the equally recent
    entries that is, is in order.  [processEvent] applies the local delta,
    the lead's score becomes clamp(currentScore + points, 0, MAX); it runs
    no recalculation, the rows stay as they were, and it gives no
    out-of-order result.  (It then stops at the unbound [change]: the event
    is recorded but not marked processed and nothing is emitted.) *)
Theorem equal_timestamp_is_in_order now eventData w lead rule h :
  faults w = None ->
  already_processed (d_eventId eventData) w = false ->
  find_lead (d_leadId eventData) (leads w) = Some lead ->
  find_active_rule (d_eventType eventData) (scoringRules w) = Some rule ->
  most_recent_entry (d_leadId eventData) (scoreHistory w) h ->
  Event.timestamp (snd (ledgered now eventData w)) = ScoreHistory.timestamp h ->
  let run := processEvent MAX_SCORE now eventData w in
  let w' := fst run in
  let newScore := clamp (Lead.currentScore lead + ScoringRule.points rule) 0 MAX_SCORE in
  isOutOfOrder (Some h) (Event.timestamp (snd (ledgered now eventData w))) = false /\
  option_map Lead.currentScore (find_lead (d_leadId eventData) (leads w')) = Some newScore /\
  leads w' = replace_lead (Lead.rescore newScore now lead) (leads w) /\
  scoreHistory w' = scoreHistory w /\
  events w' = events (fst (ledgered now eventData w)) /\
  already_processed (d_eventId eventData) w' = false /\
  emitted w' = emitted w /\
  snd run = Throw (ReferenceError "change") /\
  (forall id p n c t, snd run <> Return (Recalculated id p n c t)).
Proof.
  intros Hf Hdup Hl Hr Hrecent Heq run w' newScore.
  destruct (latest_most_recent _ _ _ Hrecent) as (m & Hlatest & Hm).
  assert (Hin : isOutOfOrder (latest (filter (of_lead (d_leadId eventData)) (scoreHistory w)))
                  (Event.timestamp (snd (ledgered now eventData w))) = false).
  { rewrite Hlatest. unfold isOutOfOrder. apply Z.ltb_ge. lia. }
  split; [unfold isOutOfOrder; apply Z.ltb_ge; lia|].
  destruct (in_order_path_throws MAX_SCORE now eventData w lead rule Hf Hdup Hl Hr Hin)
    as (Hthrow & Hhist & Hemit & Hnot & Hlead).
  fold run in Hthrow, Hhist, Hemit, Hnot, Hlead. fold w' in Hhist, Hemit, Hnot, Hlead.
  fold newScore in Hlead.
  split; [rewrite Hlead; reflexivity|].
  assert (Hrun : run = (set_leads (replace_lead (Lead.rescore newScore now lead)
                                     (leads (fst (ledgered now eventData w))))
                          (fst (ledgered now eventData w)),
                        Throw (ReferenceError "change"))).
  { unfold run.
    rewrite (processEvent_past_guards MAX_SCORE now eventData w lead rule Hf Hdup Hl Hr).
    cbv zeta. rewrite Hin. unfold newScore. rewrite cap_clamp. reflexivity. }
  destruct (ledgered_rest now eventData w) as (Hleads & _).
  split; [unfold w'; rewrite Hrun; simpl; rewrite Hleads; reflexivity|].
  split; [exact Hhist|].
  split; [unfold w'; rewrite Hrun; reflexivity|].
  split; [exact Hnot|].
  split; [exact Hemit|].
  split; [exact Hthrow|].
  intros id p n c t. rewrite Hthrow. discriminate.
Qed.

End OrderClaims.

(** ** Counting the rows of an event *)

Lemma filter_swap {A} (p q : A -> bool) l :
  filter p (filter q l) = filter q (filter p l).
Proof.
  induction l as [|a t IH]; simpl; [reflexivity|].
  destruct (p a) eqn:Hp, (q a) eqn:Hq; simpl; rewrite ?Hp, ?Hq, IH; reflexivity.
Qed.

Lemma filter_andb {A} (p q : A -> bool) l :
  filter (fun x => p x && q x) l = filter q (filter p l).
Proof.
  induction l as [|a t IH]; simpl; [reflexivity|].
  destruct (p a) eqn:Hp; simpl; [destruct (q a)|]; rewrite IH; reflexivity.
Qed.

Lemma rows_for_app eventId l1 l2 :
  rows_for eventId (l1 ++ l2) = (rows_for eventId l1 + rows_for eventId l2)%nat.
Proof. unfold rows_for. rewrite filter_app, length_app. reflexivity. Qed.

Lemma rows_for_replayed MAX_SCORE now eventId rules leadId evs : forall s,
  rows_for eventId (map (ScoreHistory.new now) (replayed MAX_SCORE rules leadId evs s)) =
  List.length (filter (has_active_rule rules) (filter (has_eventId eventId) evs)).
Proof.
  unfold rows_for, has_eventId, has_active_rule.
  induction evs as [|e rest IH]; intros s; simpl; [reflexivity|].
  destruct (find_active_rule (Event.eventType e) rules) as [rule|] eqn:Hr; simpl.
  - destruct (String.eqb (Event.eventId e) eventId); simpl; rewrite ?Hr; simpl;
      rewrite IH; reflexivity.
  - destruct (String.eqb (Event.eventId e) eventId); simpl; rewrite ?Hr; apply IH.
Qed.

Lemma unique_key {A} (f : A -> string) l a b :
  NoDup (map f l) -> In a l -> In b l -> f a = f b -> a = b.
Proof.
  induction l as [|x t IH]; simpl; intros Hnd Ha Hb Hab; [contradiction|].
  inversion Hnd as [|? ? Hx Ht]; subst.
  destruct Ha as [Ha|Ha], Hb as [Hb|Hb]; subst.
  - reflexivity.
  - exfalso. apply Hx. rewrite Hab. apply in_map. assumption.
  - exfalso. apply Hx. rewrite <- Hab. apply in_map. assumption.
  - auto.
Qed.

Lemma filter_has_eventId_unique eventId l e :
  NoDup (map Event.eventId l) -> find_event eventId l = Some e ->
  filter (has_eventId eventId) l = [e].
Proof.
  unfold find_event, has_eventId.
  induction l as [|x t IH]; simpl; intros Hnd Hfind; [discriminate|].
  inversion Hnd as [|? ? Hx Ht]; subst.
  destruct (String.eqb (Event.eventId x) eventId) eqn:Hxe.
  - injection Hfind as ->. f_equal.
    apply String.eqb_eq in Hxe.
    destruct (filter (fun e0 => String.eqb (Event.eventId e0) eventId) t) as [|y r] eqn:Hfil;
      [reflexivity|].
    exfalso. apply Hx.
    assert (Hy : In y (filter (fun e0 => String.eqb (Event.eventId e0) eventId) t))
      by (rewrite Hfil; left; reflexivity).
    apply filter_In in Hy. destruct Hy as [Hy1 Hy2].
    apply String.eqb_eq in Hy2. rewrite Hxe, <- Hy2. apply in_map. assumption.
  - auto.
Qed.

Lemma filter_has_eventId_none eventId l :
  find_event eventId l = None -> filter (has_eventId eventId) l = [].
Proof.
  unfold find_event, has_eventId. induction l as [|x t IH]; simpl; [reflexivity|].
  destruct (String.eqb (Event.eventId x) eventId); [discriminate | assumption].
Qed.

Lemma filter_has_eventId_replace x l :
  filter (has_eventId (Event.eventId x)) (replace_event x l) =
  map (fun _ => x) (filter (has_eventId (Event.eventId x)) l).
Proof.
  unfold has_eventId, replace_event. induction l as [|y t IH]; simpl; [reflexivity|].
  destruct (String.eqb (Event.eventId y) (Event.eventId x)) eqn:Hy; simpl.
  - rewrite String.eqb_refl, IH. reflexivity.
  - rewrite Hy. assumption.
Qed.

Lemma ledgered_unique now eventData w :
  unique_eventIds w ->
  filter (has_eventId (d_eventId eventData)) (events (fst (ledgered now eventData w)))
  = [snd (ledgered now eventData w)].
Proof.
  unfold unique_eventIds, ledgered. intros Hu.
  destruct (find_event (d_eventId eventData) (events w)) as [e|] eqn:He; simpl.
  - apply filter_has_eventId_unique; assumption.
  - rewrite filter_app, filter_has_eventId_none by assumption.
    simpl. unfold has_eventId. simpl. rewrite String.eqb_refl. reflexivity.
Qed.

Lemma ledgered_payload now eventData w :
  same_payload eventData w ->
  Event.leadId (snd (ledgered now eventData w)) = d_leadId eventData /\
  Event.eventType (snd (ledgered now eventData w)) = d_eventType eventData.
Proof.
  unfold same_payload, ledgered. intros Hp.
  destruct (find_event (d_eventId eventData) (events w)) as [e|] eqn:He; simpl; auto.
Qed.

(** No row of another lead carries the event's id. *)
Lemma rows_for_other_leads eventData w :
  unique_eventIds w -> history_refers_to_events w -> same_payload eventData w ->
  rows_for (d_eventId eventData)
    (filter (fun h => negb (of_lead (d_leadId eventData) h)) (scoreHistory w)) = 0%nat.
Proof.
  intros Hu Href Hp. unfold rows_for.
  destruct (filter _ (filter _ (scoreHistory w))) as [|h r] eqn:Hfil; [reflexivity|].
  exfalso.
  assert (Hh : In h (filter (fun h => String.eqb (ScoreHistory.eventId h) (d_eventId eventData))
                       (filter (fun h => negb (of_lead (d_leadId eventData) h)) (scoreHistory w))))
    by (rewrite Hfil; left; reflexivity).
  apply filter_In in Hh. destruct Hh as [Hh Hid].
  apply filter_In in Hh. destruct Hh as [Hin Hother].
  apply String.eqb_eq in Hid.
  destruct (Href h Hin) as (e & He & Heid & Hlead).
  destruct (find_event (d_eventId eventData) (events w)) as [e0|] eqn:Hfind.
  - destruct (Hp e0 Hfind) as [Hl0 _].
    assert (e0 = e).
    { unfold find_event in Hfind. apply find_some in Hfind. destruct Hfind as [Hin0 Hid0].
      apply String.eqb_eq in Hid0.
      eapply (unique_key Event.eventId); eauto. congruence. }
    subst e0. unfold of_lead in Hother.
    rewrite <- Hlead, Hl0, String.eqb_refl in Hother. discriminate.
  - unfold find_event in Hfind.
    eapply find_none in Hfind; [|exact He]. simpl in Hfind.
    rewrite Heid, Hid, String.eqb_refl in Hfind. discriminate.
Qed.

Section Idempotency.

Variable MAX_SCORE : Z.

(** Without failing calls [processEvent] returns in two ways only: the
    duplicate answer, or the out-of-order answer after a recalculation. *)
Lemma processEvent_returns now eventData w w' r :
  faults w = None ->
  processEvent MAX_SCORE now eventData w = (w', Return r) ->
  (already_processed (d_eventId eventData) w = true /\ w' = w /\ r = Duplicate) \/
  (exists lead rule,
     already_processed (d_eventId eventData) w = false /\
     find_lead (d_leadId eventData) (leads w) = Some lead /\
     find_active_rule (d_eventType eventData) (scoringRules w) = Some rule /\
     let w1 := fst (ledgered now eventData w) in
     let event := snd (ledgered now eventData w) in
     let w2 := set_events (replace_event (Event.mark_processed now event) (events w1)) w1 in
     exists w3 rr,
       recalculateLeadScore MAX_SCORE now (d_leadId eventData) w2 = (w3, Return rr) /\
       w' = fst (emitScoreUpdate
                   (mkScoreUpdate (Lead._id lead) (Lead.name lead) (Lead.email lead)
                      (r_previousScore rr) (r_newScore rr)
                      (r_newScore rr - r_previousScore rr)
                      (d_eventType eventData) (Event.timestamp event) (Some true)) w3) /\
       r = Recalculated (Lead._id lead) (r_previousScore rr) (r_newScore rr)
             (r_newScore rr - r_previousScore rr) (d_eventType eventData)).
Proof.
  intros Hf Hrun.
  destruct (already_processed (d_eventId eventData) w) eqn:Hdup.
  - rewrite processEvent_already_processed in Hrun by assumption.
    injection Hrun as <- <-. left. auto.
  - right.
    destruct (find_lead (d_leadId eventData) (leads w)) as [lead|] eqn:Hl.
    2:{ rewrite processEvent_unknown_lead in Hrun by assumption. discriminate. }
    destruct (find_active_rule (d_eventType eventData) (scoringRules w)) as [rule|] eqn:Hr.
    2:{ rewrite (processEvent_rule_guard MAX_SCORE now eventData w lead) in Hrun
          by assumption. discriminate. }
    exists lead, rule. repeat (split; [reflexivity|]).
    rewrite (processEvent_past_guards MAX_SCORE now eventData w lead rule Hf Hdup Hl Hr)
      in Hrun.
    simpl in Hrun. intros w1 event w2. fold w1 event in Hrun. fold w2 in Hrun.
    destruct (isOutOfOrder _ _); [|discriminate].
    destruct (recalculateLeadScore MAX_SCORE now (d_leadId eventData) w2) as [w3 [rr|e]];
      [|discriminate].
    exists w3, rr. injection Hrun as <- <-. auto.
Qed.

End Idempotency.

Section IdempotencyClaim.

Variable MAX_SCORE : Z.

(** C2. After [processEvent] has processed an event, processing the same
    eventId again only observes: it returns the duplicate answer and leaves
    the world as it is.  With the unique index on eventId, rows that name
    events of the ledger and a redelivery that carries the recorded lead
    and type, exactly one ScoreHistory row carries the eventId. *)
Theorem reprocessing_is_pure_observation now now' eventData eventData' w w' r :
  faults w = None ->
  processEvent MAX_SCORE now eventData w = (w', Return r) ->
  r <> Duplicate ->
  d_eventId eventData' = d_eventId eventData ->
  processEvent MAX_SCORE now' eventData' w' = (w', Return Duplicate) /\
  (unique_eventIds w -> history_refers_to_events w -> same_payload eventData w ->
   rows_for (d_eventId eventData) (scoreHistory w') = 1%nat /\
   rows_for (d_eventId eventData)
     (scoreHistory (fst (processEvent MAX_SCORE now' eventData' w'))) = 1%nat).
Proof.
  intros Hf Hrun Hnd Hid.
  destruct (processEvent_returns MAX_SCORE now eventData w w' r Hf Hrun)
    as [(_ & _ & Hr)|(lead & rule & Hdup & Hl & Hrule & Hrest)]; [contradiction|].
  simpl in Hrest. destruct Hrest as (w3 & rr & Hrec & Hw' & _).
  set (w1 := fst (ledgered now eventData w)) in *.
  set (event := snd (ledgered now eventData w)) in *.
  set (w2 := set_events (replace_event (Event.mark_processed now event) (events w1)) w1) in *.
  destruct (ledgered_rest now eventData w) as (Hleads & Hhist & Hrules & Hfaults).
  fold w1 in Hleads, Hhist, Hrules, Hfaults.
  assert (Hf2 : faults w2 = None) by (simpl; congruence).
  assert (Hl2 : find_lead (d_leadId eventData) (leads w2) = Some lead)
    by (simpl; congruence).
  rewrite (recalculateLeadScore_fault_free MAX_SCORE now _ w2 lead Hf2 Hl2) in Hrec.
  injection Hrec as Hw3 _.
  match type of Hw' with _ = fst (emitScoreUpdate ?d _) =>
    destruct (emitScoreUpdate_store d w3) as (_ & Hev & Hh & _ & Hfl) end.
  rewrite <- Hw' in Hev, Hh, Hfl.
  assert (Hfw' : faults w' = None) by (rewrite Hfl, <- Hw3; exact Hf2).
  assert (Hseen : already_processed (d_eventId eventData') w' = true).
  { unfold already_processed. rewrite Hid, Hev, <- Hw3. simpl.
    pose proof (marked_is_processed now eventData w) as Hm. simpl in Hm.
    fold w1 event in Hm. rewrite Hm. reflexivity. }
  pose proof (processEvent_already_processed MAX_SCORE now' eventData' w' Hfw' Hseen) as Hdone.
  split; [exact Hdone|].
  intros Hu Href Hp.
  rewrite Hdone. simpl.
  assert (Hone : rows_for (d_eventId eventData) (scoreHistory w') = 1%nat).
  { rewrite Hh, <- Hw3. simpl. rewrite rows_for_app, Hhist.
    rewrite rows_for_other_leads by assumption.
    rewrite rows_for_replayed. simpl.
    unfold processed_events_of.
    rewrite <- filter_andb, filter_sort_by_timestamp, filter_andb.
    rewrite (filter_swap (has_eventId (d_eventId eventData))).
    pose proof (ledgered_eventId now eventData w) as Heid. fold event in Heid.
    replace (d_eventId eventData) with (Event.eventId (Event.mark_processed now event))
      by exact Heid.
    rewrite filter_has_eventId_replace.
    simpl Event.eventId. rewrite Heid.
    pose proof (ledgered_unique now eventData w Hu) as Huniq. fold w1 event in Huniq.
    rewrite Huniq. simpl.
    destruct (ledgered_payload now eventData w Hp) as [Hlead Htype].
    fold event in Hlead, Htype.
    rewrite Hlead, String.eqb_refl. simpl.
    unfold has_active_rule. simpl. rewrite Htype, Hrules, Hrule. reflexivity. }
  split; exact Hone.
Qed.

End IdempotencyClaim.

(** ** Rules for triples *)

Lemma hoare_ret {A} (P : World -> Prop) (a : A) (Q : Completion A -> World -> Prop) :
  (forall w, P w -> Q (Return a) w) -> hoare P (ret a) Q.
Proof. intros H w Hw. apply H, Hw. Qed.

Lemma hoare_throw {A} (P : World -> Prop) e (Q : Completion A -> World -> Prop) :
  (forall w, P w -> Q (Throw e) w) -> hoare P (throw e) Q.
Proof. intros H w Hw. apply H, Hw. Qed.

Lemma hoare_bind {A B} (P : World -> Prop) (m : M A) (f : A -> M B)
    (R : A -> World -> Prop) (Q : Completion B -> World -> Prop) :
  hoare P m (fun c w => match c with Return a => R a w | Throw e => Q (Throw e) w end) ->
  (forall a, hoare (R a) (f a) Q) ->
  hoare P (bind m f) Q.
Proof.
  intros Hm Hf w Hw. specialize (Hm w Hw). unfold bind.
  destruct (m w) as [w1 [a|e]]; simpl in *.
  - apply Hf, Hm.
  - exact Hm.
Qed.

Lemma hoare_weaken {A} (P P' : World -> Prop) (m : M A)
    (Q Q' : Completion A -> World -> Prop) :
  hoare P' m Q' -> (forall w, P w -> P' w) -> (forall c w, Q' c w -> Q c w) ->
  hoare P m Q.
Proof. intros H HP HQ w Hw. apply HQ, H, HP, Hw. Qed.

Lemma hoare_pure {A} (fact : Prop) (P : World -> Prop) (m : M A)
    (Q : Completion A -> World -> Prop) :
  (forall w, P w -> fact) -> (fact -> hoare P m Q) -> hoare P m Q.
Proof. intros Hfact H w Hw. apply H; [eapply Hfact, Hw | exact Hw]. Qed.

Lemma await_cases {A} (op : World -> World * A) w :
  await op w = (w, Throw StoreError) \/
  exists n, await op w = (fst (op (set_faults n w)), Return (snd (op (set_faults n w)))).
Proof.
  unfold await. destruct (faults w) as [[|k]|] eqn:Hf.
  - left. reflexivity.
  - right. exists (Some k). destruct (op _). reflexivity.
  - right. exists None. rewrite <- Hf, set_faults_same. destruct (op w). reflexivity.
Qed.

Lemma hoare_query {A B} (P : World -> Prop) (q : World -> A) (f : A -> M B)
    (Q : Completion B -> World -> Prop) :
  stable P ->
  (forall n w, q (set_faults n w) = q w) ->
  (forall w, P w -> Q (Throw StoreError) w) ->
  (forall a, hoare (fun w => P w /\ q w = a) (f a) Q) ->
  hoare P (bind (await (query q)) f) Q.
Proof.
  intros HP Hq Hfail Hnext w Hw. unfold bind.
  destruct (await_cases (query q) w) as [E|[n E]]; rewrite E; simpl.
  - apply Hfail, Hw.
  - apply (Hnext (q (set_faults n w)) (set_faults n w)). split; [apply HP, Hw | reflexivity].
Qed.

Lemma hoare_update {B} (P P' : World -> Prop) (u : World -> World) (f : unit -> M B)
    (Q : Completion B -> World -> Prop) :
  (forall w, P w -> Q (Throw StoreError) w) ->
  (forall n w, P w -> P' (u (set_faults n w))) ->
  hoare P' (f tt) Q ->
  hoare P (bind (await (update u)) f) Q.
Proof.
  intros Hfail Hu Hnext w Hw. unfold bind.
  destruct (await_cases (update u) w) as [E|[n E]]; rewrite E; simpl.
  - apply Hfail, Hw.
  - apply Hnext, Hu, Hw.
Qed.

Lemma same_store_refl w : same_store w w.
Proof. reflexivity. Qed.

Lemma same_store_fields a b :
  same_store a b ->
  leads a = leads b /\ events a = events b /\ scoreHistory a = scoreHistory b /\
  scoringRules a = scoringRules b /\ io a = io b /\ emitted a = emitted b.
Proof.
  unfold same_store. destruct a, b; simpl. intros H. injection H. intros. subst. auto 10.
Qed.

Lemma same_store_stable b : stable (fun w => same_store w b).
Proof. intros n w H. exact H. Qed.

Ltac same_store_tac :=
  repeat match goal with
         | H : same_store _ _ |- _ => apply same_store_fields in H
         | H : _ /\ _ |- _ => destruct H
         end;
  unfold same_store, deleted, inserted, saved,
    set_leads, set_events, set_scoreHistory, set_faults, set_emitted in *;
  simpl in *; try congruence.

Section RecalculationTriples.

Variable MAX_SCORE : Z.

Lemma replay_triple w0 leadId evs : forall totalScore newHistory,
  hoare (fun w => same_store w w0)
    (replay MAX_SCORE leadId evs totalScore newHistory)
    (fun c w => same_store w w0 /\
       match c with
       | Return v =>
           v = (final_score totalScore
                  (replayed MAX_SCORE (scoringRules w0) leadId evs totalScore),
                (newHistory ++ replayed MAX_SCORE (scoringRules w0) leadId evs totalScore)%list)
       | Throw _ => True
       end).
Proof.
  induction evs as [|e rest IH]; intros totalScore newHistory; simpl.
  - apply hoare_ret. intros w Hw. split; [assumption|]. rewrite app_nil_r. reflexivity.
  - unfold ScoringRule_findOne. apply hoare_query.
    + apply same_store_stable.
    + reflexivity.
    + intros w Hw. split; [assumption | exact I].
    + intros rule.
      apply (hoare_pure (find_active_rule (Event.eventType e) (scoringRules w0) = rule)).
      { intros w [Hs Hq]. same_store_tac. }
      intros Hrule. rewrite Hrule.
      destruct rule as [rule|].
      * eapply hoare_weaken; [apply IH | intros w Hw; exact (proj1 Hw) |].
        intros c w [Hs Hc]. split; [assumption|].
        destruct c as [v|]; [|exact I].
        rewrite Hc, cap_clamp. unfold final_score. simpl map. rewrite last_cons.
        rewrite <- app_assoc. reflexivity.
      * eapply hoare_weaken; [apply IH | intros w Hw; exact (proj1 Hw) |].
        intros c w Hc. exact Hc.
Qed.

(** Where [recalculateLeadScore] can leave the world: untouched, with the
    ledger of the lead deleted, with the new ledger and the old score, or
    with the new ledger and the new score. *)
Lemma recalculateLeadScore_triple now leadId w0 :
  hoare (fun w => same_store w w0)
    (recalculateLeadScore MAX_SCORE now leadId)
    (fun c w =>
       match find_lead leadId (leads w0) with
       | None => same_store w w0 /\ forall r, c <> Return r
       | Some lead =>
           let evs := sort_by_timestamp (processed_events_of leadId (events w0)) in
           let rows := replayed MAX_SCORE (scoringRules w0) leadId evs 0 in
           let total := final_score 0 rows in
           match c with
           | Return r =>
               same_store w (saved (Lead.rescore total now lead)
                               (inserted now rows (deleted leadId w0))) /\
               r = mkRecalcResult leadId (Lead.currentScore lead) total (List.length evs)
           | Throw _ =>
               same_store w w0 \/
               same_store w (deleted leadId w0) \/
               same_store w (inserted now rows (deleted leadId w0))
           end
       end).
Proof.
  unfold recalculateLeadScore, Lead_findById. apply hoare_query.
  - apply same_store_stable.
  - reflexivity.
  - intros w Hw. destruct (find_lead leadId (leads w0)).
    + left. assumption.
    + split; [assumption | intros; discriminate].
  - intros lead.
    apply (hoare_pure (find_lead leadId (leads w0) = lead)).
    { intros w [Hs Hq]. same_store_tac. }
    intros Hlead. rewrite Hlead. destruct lead as [lead|].
    2:{ apply hoare_throw. intros w [Hs _]. split; [assumption | intros; discriminate]. }
    eapply hoare_weaken with (P' := fun w => same_store w w0);
      [| intros w Hw; exact (proj1 Hw) | intros c w Hc; exact Hc].
    unfold Event_find_processed. apply hoare_query.
    + apply same_store_stable.
    + reflexivity.
    + intros w Hw. left. assumption.
    + intros evs.
      apply (hoare_pure (sort_by_timestamp (processed_events_of leadId (events w0)) = evs)).
      { intros w [Hs Hq]. same_store_tac. }
      intros Hevs. rewrite Hevs.
      eapply hoare_bind.
      * eapply hoare_weaken; [apply (replay_triple w0) | intros w Hw; exact (proj1 Hw) |].
        intros c w [Hs Hc].
        instantiate (1 := fun a w => same_store w w0 /\
          a = (final_score 0 (replayed MAX_SCORE (scoringRules w0) leadId evs 0),
               replayed MAX_SCORE (scoringRules w0) leadId evs 0)).
        destruct c as [v|]; simpl.
        -- split; assumption.
        -- left. assumption.
      * intros v.
        apply (hoare_pure (v = (final_score 0 (replayed MAX_SCORE (scoringRules w0) leadId evs 0),
                                replayed MAX_SCORE (scoringRules w0) leadId evs 0))).
        { intros w [_ Hv]. exact Hv. }
        intros ->. simpl fst. simpl snd.
        set (rows := replayed MAX_SCORE (scoringRules w0) leadId evs 0).
        unfold ScoreHistory_deleteMany.
        apply hoare_update with (P' := fun w => same_store w (deleted leadId w0)).
        -- intros w [Hs _]. left. assumption.
        -- intros n w [Hs _]. same_store_tac.
        -- assert (Hsave : hoare (fun w => same_store w (inserted now rows (deleted leadId w0)))
                      (Lead_save (Lead.rescore (final_score 0 rows) now lead);;
                       ret (mkRecalcResult leadId (Lead.currentScore lead)
                              (final_score 0 rows) (List.length evs)))
                      (fun c w =>
                         match c with
                         | Return r =>
                             same_store w (saved (Lead.rescore (final_score 0 rows) now lead)
                                             (inserted now rows (deleted leadId w0))) /\
                             r = mkRecalcResult leadId (Lead.currentScore lead)
                                   (final_score 0 rows) (List.length evs)
                         | Throw _ =>
                             same_store w w0 \/
                             same_store w (deleted leadId w0) \/
                             same_store w (inserted now rows (deleted leadId w0))
                         end)).
           { unfold Lead_save.
             apply hoare_update with
               (P' := fun w => same_store w (saved (Lead.rescore (final_score 0 rows) now lead)
                                               (inserted now rows (deleted leadId w0)))).
             - intros w Hs. right. right. assumption.
             - intros n w Hs. same_store_tac.
             - apply hoare_ret. intros w Hs. split; [assumption | reflexivity]. }
           destruct (0 <? List.length rows)%nat eqn:Hlen.
           ++ unfold ScoreHistory_insertMany.
              apply hoare_update with
                (P' := fun w => same_store w (inserted now rows (deleted leadId w0))).
              ** intros w Hs. right. left. assumption.
              ** intros n w Hs. same_store_tac.
              ** exact Hsave.
           ++ assert (Hnil : rows = []).
              { destruct rows; [reflexivity | discriminate]. }
              eapply hoare_weaken; [exact Hsave | | intros c w Hc; exact Hc].
              intros w Hs. rewrite Hnil. unfold inserted. simpl.
              unfold same_store in *. rewrite Hs. unfold deleted. simpl.
              rewrite app_nil_r. reflexivity.
Qed.

End RecalculationTriples.

(** ** A triple for [processEvent] *)

Section ProcessEventTriple.

Variable MAX_SCORE : Z.

(** [Inv] is an invariant of leads and score history, [OnReturn] and
    [OnThrow] what is wanted when [processEvent] returns or throws. *)
Variables Inv OnReturn OnThrow : World -> Prop.

Hypothesis Inv_reads :
  forall w w', leads w' = leads w -> scoreHistory w' = scoreHistory w -> Inv w -> Inv w'.
Hypothesis OnReturn_reads :
  forall w w', leads w' = leads w -> scoreHistory w' = scoreHistory w ->
               OnReturn w -> OnReturn w'.
Hypothesis Inv_return : forall w, Inv w -> OnReturn w.
Hypothesis Inv_throw : forall w, Inv w -> OnThrow w.
Hypothesis recalculation :
  forall now leadId,
    hoare Inv (recalculateLeadScore MAX_SCORE now leadId)
      (fun c w => match c with Return _ => OnReturn w | Throw _ => OnThrow w end).
Hypothesis local_delta :
  forall now lead s w, Inv w ->
    OnThrow (set_leads (replace_lead (Lead.rescore (cap MAX_SCORE s) now lead) (leads w)) w).

Lemma Inv_stable : stable Inv.
Proof. intros n w H. eapply Inv_reads; [| |exact H]; reflexivity. Qed.

Lemma processEvent_triple now eventData :
  hoare Inv (processEvent MAX_SCORE now eventData)
    (fun c w => match c with Return _ => OnReturn w | Throw _ => OnThrow w end).
Proof.
  set (post := fun (c : Completion ProcessResult) w =>
                 match c with Return _ => OnReturn w | Throw _ => OnThrow w end).
  unfold processEvent, Event_findOne. apply hoare_query.
  { apply Inv_stable. } { reflexivity. } { intros w Hw. apply Inv_throw, Hw. }
  intros existingEvent.
  eapply hoare_weaken with (P' := Inv) (Q' := post);
    [| intros w Hw; exact (proj1 Hw) | intros c w Hc; exact Hc].
  destruct (match existingEvent with Some e => Event.processed e | None => false end).
  { apply hoare_ret. intros w Hw. apply Inv_return, Hw. }
  unfold Lead_findById. apply hoare_query.
  { apply Inv_stable. } { reflexivity. } { intros w Hw. apply Inv_throw, Hw. }
  intros [lead|].
  2:{ apply hoare_throw. intros w [Hw _]. apply Inv_throw, Hw. }
  eapply hoare_weaken with (P' := Inv) (Q' := post);
    [| intros w Hw; exact (proj1 Hw) | intros c w Hc; exact Hc].
  unfold ScoringRule_findOne. apply hoare_query.
  { apply Inv_stable. } { reflexivity. } { intros w Hw. apply Inv_throw, Hw. }
  intros [rule|].
  2:{ apply hoare_throw. intros w [Hw _]. apply Inv_throw, Hw. }
  eapply hoare_weaken with (P' := Inv) (Q' := post);
    [| intros w Hw; exact (proj1 Hw) | intros c w Hc; exact Hc].
  eapply hoare_bind with (R := fun _ w => Inv w).
  { destruct existingEvent as [e|].
    - apply hoare_ret. intros w Hw. exact Hw.
    - unfold Event_insert. apply hoare_update with (P' := Inv).
      + intros w Hw. apply Inv_throw, Hw.
      + intros n w Hw. eapply Inv_reads; [| |exact Hw]; reflexivity.
      + apply hoare_ret. intros w Hw. exact Hw. }
  intros event. unfold ScoreHistory_findLatest. apply hoare_query.
  { apply Inv_stable. } { reflexivity. } { intros w Hw. apply Inv_throw, Hw. }
  intros latestHistory.
  eapply hoare_weaken with (P' := Inv) (Q' := post);
    [| intros w Hw; exact (proj1 Hw) | intros c w Hc; exact Hc].
  destruct (isOutOfOrder latestHistory (Event.timestamp event)).
  - unfold Event_save. apply hoare_update with (P' := Inv).
    + intros w Hw. apply Inv_throw, Hw.
    + intros n w Hw. eapply Inv_reads; [| |exact Hw]; reflexivity.
    + eapply hoare_bind with (R := fun _ w => OnReturn w).
      * apply recalculation.
      * intros r w Hw. unfold bind, emitScoreUpdate, ret.
        destruct (io w); simpl; [|exact Hw].
        eapply OnReturn_reads; [| |exact Hw]; reflexivity.
  - unfold Lead_save. apply hoare_update with
      (P' := fun w => OnThrow w).
    + intros w Hw. apply Inv_throw, Hw.
    + intros n w Hw.
      apply (local_delta now lead (Lead.currentScore lead + ScoringRule.points rule)
               (set_faults n w)).
      apply Inv_stable, Hw.
    + unfold unbound. intros w Hw. exact Hw.
Qed.

End ProcessEventTriple.

(** ** Scores within bounds *)

Lemma Forall_last {A} (P : A -> Prop) l d : Forall P l -> P d -> P (last l d).
Proof.
  intros Hl. revert d. induction Hl as [|a t Ha Ht IH]; intros d Hd; [exact Hd|].
  rewrite last_cons. apply IH, Ha.
Qed.

Section Bounds.

Variable MAX_SCORE : Z.
Hypothesis MAX_SCORE_nonneg : 0 <= MAX_SCORE.

Lemma clamp_bounds x : 0 <= clamp x 0 MAX_SCORE <= MAX_SCORE.
Proof. unfold clamp. lia. Qed.

Lemma replayed_bounded rules leadId evs : forall s,
  Forall (fun r => 0 <= ScoreHistory.f_score r <= MAX_SCORE)
    (replayed MAX_SCORE rules leadId evs s).
Proof.
  induction evs as [|e rest IH]; intros s; simpl; [constructor|].
  destruct (find_active_rule _ _); [constructor|]; auto.
  simpl. apply clamp_bounds.
Qed.

Lemma final_score_bounded rules leadId evs :
  0 <= final_score 0 (replayed MAX_SCORE rules leadId evs 0) <= MAX_SCORE.
Proof.
  unfold final_score.
  apply (Forall_last (fun s => 0 <= s <= MAX_SCORE)); [|lia].
  apply Forall_map, replayed_bounded.
Qed.

Lemma bounded_same_store a b : same_store a b -> bounded MAX_SCORE b -> bounded MAX_SCORE a.
Proof.
  intros Hs [Hl Hh]. apply same_store_fields in Hs.
  destruct Hs as (El & _ & Eh & _). unfold bounded. rewrite El, Eh. auto.
Qed.

Lemma bounded_reads w w' :
  leads w' = leads w -> scoreHistory w' = scoreHistory w ->
  bounded MAX_SCORE w -> bounded MAX_SCORE w'.
Proof. unfold bounded. intros -> ->. auto. Qed.

Lemma bounded_deleted leadId w : bounded MAX_SCORE w -> bounded MAX_SCORE (deleted leadId w).
Proof.
  intros [Hl Hh]. split; simpl; [assumption|].
  apply Forall_forall. intros h Hin. apply filter_In in Hin.
  rewrite Forall_forall in Hh. apply Hh, Hin.
Qed.

Lemma bounded_inserted now rows w :
  Forall (fun r => 0 <= ScoreHistory.f_score r <= MAX_SCORE) rows ->
  bounded MAX_SCORE w -> bounded MAX_SCORE (inserted now rows w).
Proof.
  intros Hr [Hl Hh]. split; simpl; [assumption|].
  apply Forall_app. split; [assumption|].
  apply Forall_map. exact Hr.
Qed.

Lemma bounded_saved l w :
  0 <= Lead.currentScore l <= MAX_SCORE ->
  bounded MAX_SCORE w -> bounded MAX_SCORE (saved l w).
Proof.
  intros Hs [Hl Hh]. split; simpl; [|assumption].
  unfold replace_lead. apply Forall_map.
  eapply Forall_impl; [|exact Hl]. simpl. intros y Hy.
  destruct (String.eqb _ _); assumption.
Qed.

Lemma recalculateLeadScore_bounded now leadId :
  hoare (bounded MAX_SCORE) (recalculateLeadScore MAX_SCORE now leadId)
    (fun _ w => bounded MAX_SCORE w).
Proof.
  intros w Hw.
  pose proof (recalculateLeadScore_triple MAX_SCORE now leadId w w (same_store_refl w)) as H.
  simpl in H.
  destruct (find_lead leadId (leads w)) as [lead|].
  - set (rows := replayed MAX_SCORE (scoringRules w) leadId
                   (sort_by_timestamp (processed_events_of leadId (events w))) 0) in *.
    assert (Hins : bounded MAX_SCORE (inserted now rows (deleted leadId w))).
    { apply bounded_inserted; [apply replayed_bounded | apply bounded_deleted, Hw]. }
    destruct (snd (recalculateLeadScore MAX_SCORE now leadId w)) as [r|e].
    + destruct H as [H _]. eapply bounded_same_store; [exact H|].
      apply bounded_saved; [|exact Hins]. simpl. apply final_score_bounded.
    + destruct H as [H|[H|H]]; (eapply bounded_same_store; [exact H|]);
        [exact Hw | apply bounded_deleted, Hw | exact Hins].
  - destruct H as [H _]. eapply bounded_same_store; [exact H | exact Hw].
Qed.

Lemma processEvent_bounded now eventData :
  hoare (bounded MAX_SCORE) (processEvent MAX_SCORE now eventData)
    (fun _ w => bounded MAX_SCORE w).
Proof.
  pose proof (processEvent_triple MAX_SCORE (bounded MAX_SCORE) (bounded MAX_SCORE)
                (bounded MAX_SCORE)) as H.
  intros w Hw.
  assert (Hpost : match snd (processEvent MAX_SCORE now eventData w) with
                  | Return _ => bounded MAX_SCORE (fst (processEvent MAX_SCORE now eventData w))
                  | Throw _ => bounded MAX_SCORE (fst (processEvent MAX_SCORE now eventData w))
                  end).
  { apply H; try assumption.
    - apply bounded_reads.
    - apply bounded_reads.
    - auto.
    - auto.
    - intros now' leadId w1 Hw1.
      pose proof (recalculateLeadScore_bounded now' leadId w1 Hw1) as Hb.
      destruct (snd _); exact Hb.
    - intros now' lead s w1 Hw1.
      apply (bounded_saved (Lead.rescore (cap MAX_SCORE s) now' lead) w1); [|exact Hw1].
      simpl. apply cap_bounds, MAX_SCORE_nonneg. }
  destruct (snd _); exact Hpost.
Qed.

End Bounds.

(** C5. With MAX not negative, [Lead.currentScore] and the score of every
    ScoreHistory entry stay within [0, MAX] through every sequence of
    [processEvent] and [recalculateLeadScore] calls, whether they return
    or fail partway, under every change of the rule table, negative points
    included. *)
Theorem scores_stay_bounded MAX_SCORE cs : forall w,
  0 <= MAX_SCORE ->
  bounded MAX_SCORE w ->
  bounded MAX_SCORE (exec_all MAX_SCORE cs w).
Proof.
  unfold exec_all. induction cs as [|c rest IH]; intros w Hmax Hw; simpl; [exact Hw|].
  apply IH; [exact Hmax|].
  destruct c as [now eventData|now leadId|rules|budget]; simpl.
  - apply (processEvent_bounded MAX_SCORE Hmax now eventData w Hw).
  - apply (recalculateLeadScore_bounded MAX_SCORE Hmax now leadId w Hw).
  - exact Hw.
  - exact Hw.
Qed.

(** ** The score the ledger stands for *)

Lemma greatest_from_new now rs : forall r,
  StronglySorted by_row_time (r :: rs) ->
  ScoreHistory.score (greatest_from (ScoreHistory.new now r) (map (ScoreHistory.new now) rs))
  = last (map ScoreHistory.f_score rs) (ScoreHistory.f_score r).
Proof.
  induction rs as [|r2 rs IH]; intros r Hs; [reflexivity|].
  change (map ScoreHistory.f_score (r2 :: rs))
    with (ScoreHistory.f_score r2 :: map ScoreHistory.f_score rs).
  rewrite last_cons.
  inversion Hs as [|? ? Hrest Hall]; subst.
  inversion Hall as [|? ? Hr2 _]; subst. unfold by_row_time in Hr2.
  apply Z.leb_le in Hr2.
  change (greatest_from (ScoreHistory.new now r) (map (ScoreHistory.new now) (r2 :: rs)))
    with (greatest_from
            (if ScoreHistory.f_timestamp r <=? ScoreHistory.f_timestamp r2
             then ScoreHistory.new now r2 else ScoreHistory.new now r)
            (map (ScoreHistory.new now) rs)).
  rewrite Hr2. apply IH, Hrest.
Qed.

Lemma ledger_score_new now rows :
  StronglySorted by_row_time rows ->
  match greatest (map (ScoreHistory.new now) rows) with
  | Some h => ScoreHistory.score h
  | None => 0
  end = last (map ScoreHistory.f_score rows) 0.
Proof.
  destruct rows as [|r rs]; intros Hs; [reflexivity|].
  simpl greatest. cbv iota. rewrite greatest_from_new by assumption.
  change (map ScoreHistory.f_score (r :: rs))
    with (ScoreHistory.f_score r :: map ScoreHistory.f_score rs).
  rewrite last_cons. reflexivity.
Qed.

Lemma replayed_after MAX_SCORE rules leadId t evs : forall s,
  Forall (fun e => t <= Event.timestamp e) evs ->
  Forall (fun r => t <= ScoreHistory.f_timestamp r) (replayed MAX_SCORE rules leadId evs s).
Proof.
  induction evs as [|e rest IH]; intros s Hall; simpl; [constructor|].
  inversion Hall; subst.
  destruct (find_active_rule _ _); [constructor|]; auto.
Qed.

Lemma replayed_ascending MAX_SCORE rules leadId evs : forall s,
  ascending evs ->
  StronglySorted by_row_time (replayed MAX_SCORE rules leadId evs s).
Proof.
  unfold ascending.
  induction evs as [|e rest IH]; intros s Hs; simpl; [constructor|].
  inversion Hs as [|? ? Hrest Hall]; subst.
  destruct (find_active_rule _ _); [|auto].
  constructor; [auto|].
  unfold by_row_time. simpl. apply replayed_after. exact Hall.
Qed.

Lemma filter_of_lead_other a b l :
  a <> b ->
  filter (of_lead a) (filter (fun h => negb (of_lead b h)) l) = filter (of_lead a) l.
Proof.
  intros Hab. induction l as [|h t IH]; simpl; [reflexivity|].
  destruct (of_lead b h) eqn:Hb; simpl.
  - assert (Ha : of_lead a h = false).
    { unfold of_lead in *. apply String.eqb_eq in Hb. apply String.eqb_neq. congruence. }
    rewrite Ha. exact IH.
  - rewrite IH. reflexivity.
Qed.

Lemma filter_of_lead_new_other now a b rows :
  a <> b ->
  Forall (fun r => ScoreHistory.f_leadId r = b) rows ->
  filter (of_lead a) (map (ScoreHistory.new now) rows) = [].
Proof.
  intros Hab. induction 1 as [|r rs Hr _ IH]; simpl; [reflexivity|].
  unfold of_lead at 1. simpl. rewrite Hr.
  destruct (String.eqb b a) eqn:E; [apply String.eqb_eq in E; congruence | assumption].
Qed.

Lemma ledger_consistent_reads w w' :
  leads w' = leads w -> scoreHistory w' = scoreHistory w ->
  ledger_consistent w -> ledger_consistent w'.
Proof. unfold ledger_consistent. intros -> ->. auto. Qed.

Lemma ledger_consistent_same_store a b :
  same_store a b -> ledger_consistent b -> ledger_consistent a.
Proof.
  intros Hs. apply same_store_fields in Hs. destruct Hs as (El & _ & Eh & _).
  apply ledger_consistent_reads; assumption.
Qed.

Lemma recalculated_consistent MAX_SCORE now leadId w lead :
  find_lead leadId (leads w) = Some lead ->
  ledger_consistent w ->
  let rows := replayed MAX_SCORE (scoringRules w) leadId
                (sort_by_timestamp (processed_events_of leadId (events w))) 0 in
  ledger_consistent
    (saved (Lead.rescore (final_score 0 rows) now lead)
       (inserted now rows (deleted leadId w))).
Proof.
  intros Hl Hc rows l Hin. simpl in Hin |- *.
  pose proof (find_lead_id _ _ _ Hl) as Hid.
  unfold replace_lead in Hin. apply in_map_iff in Hin.
  destruct Hin as (y & Hy & Hyin). simpl in Hy.
  unfold ledger_score.
  destruct (String.eqb (Lead._id y) (Lead._id lead)) eqn:E.
  - subst l. simpl. rewrite Hid.
    unfold rows. rewrite ledger_after_recalculation.
    rewrite ledger_score_new; [reflexivity|].
    apply replayed_ascending, sort_by_timestamp_ascending.
  - subst l. apply String.eqb_neq in E. rewrite Hid in E.
    rewrite filter_app, filter_of_lead_other by assumption.
    rewrite (filter_of_lead_new_other now (Lead._id y) leadId) by
      (try assumption; apply replayed_leadId).
    rewrite app_nil_r. apply (Hc y Hyin).
Qed.

Lemma recalculateLeadScore_consistent MAX_SCORE now leadId :
  hoare ledger_consistent (recalculateLeadScore MAX_SCORE now leadId)
    (fun c w => match c with Return _ => ledger_consistent w | Throw _ => True end).
Proof.
  intros w Hw.
  pose proof (recalculateLeadScore_triple MAX_SCORE now leadId w w (same_store_refl w)) as H.
  simpl in H.
  destruct (snd (recalculateLeadScore MAX_SCORE now leadId w)) as [r|e] eqn:Hc; [|exact I].
  destruct (find_lead leadId (leads w)) as [lead|] eqn:Hl.
  - destruct H as [H _]. eapply ledger_consistent_same_store; [exact H|].
    apply recalculated_consistent; assumption.
  - destruct H as [_ H]. exfalso. apply (H r). reflexivity.
Qed.

Lemma processEvent_consistent MAX_SCORE now eventData :
  hoare ledger_consistent (processEvent MAX_SCORE now eventData)
    (fun c w => match c with Return _ => ledger_consistent w | Throw _ => True end).
Proof.
  apply (processEvent_triple MAX_SCORE ledger_consistent ledger_consistent (fun _ => True)).
  - apply ledger_consistent_reads.
  - apply ledger_consistent_reads.
  - auto.
  - auto.
  - intros now' leadId. apply recalculateLeadScore_consistent.
  - auto.
Qed.

(** C6, amended. When [Lead.currentScore] of every lead equals the score of
    its ScoreHistory entry with the greatest (timestamp, position), or 0
    without entries, it does so again after every [recalculateLeadScore]
    and every [processEvent] that returns. *)
Theorem returning_operations_keep_ledger_score MAX_SCORE w :
  ledger_consistent w ->
  (forall now leadId w' r,
     recalculateLeadScore MAX_SCORE now leadId w = (w', Return r) -> ledger_consistent w') /\
  (forall now eventData w' r,
     processEvent MAX_SCORE now eventData w = (w', Return r) -> ledger_consistent w').
Proof.
  intros Hw. split.
  - intros now leadId w' r Hrun.
    pose proof (recalculateLeadScore_consistent MAX_SCORE now leadId w Hw) as H.
    rewrite Hrun in H. exact H.
  - intros now eventData w' r Hrun.
    pose proof (processEvent_consistent MAX_SCORE now eventData w Hw) as H.
    rewrite Hrun in H. exact H.
Qed.

(** C7, amended. [recalculateLeadScore] writes in three separate calls:
    it deletes the ledger of the lead, inserts the replacement, saves the
    score.  It leaves leads and score history untouched when it fails
    before the delete, the ledger deleted and the score old when it fails
    before the insert, the new ledger with the old score when it fails
    before the save, and the new ledger with the new score when it
    returns. *)
Theorem recalculation_stops_between_writes MAX_SCORE now leadId w :
  let w' := fst (recalculateLeadScore MAX_SCORE now leadId w) in
  let done := fst (recalculateLeadScore MAX_SCORE now leadId (set_faults None w)) in
  ((scoreHistory w' = scoreHistory w /\ leads w' = leads w) \/
   (scoreHistory w' = filter (fun h => negb (of_lead leadId h)) (scoreHistory w) /\
    leads w' = leads w) \/
   (scoreHistory w' = scoreHistory done /\ leads w' = leads w) \/
   (scoreHistory w' = scoreHistory done /\ leads w' = leads done)) /\
  (forall r, snd (recalculateLeadScore MAX_SCORE now leadId w) = Return r ->
     scoreHistory w' = scoreHistory done /\ leads w' = leads done).
Proof.
  intros w' done.
  pose proof (recalculateLeadScore_triple MAX_SCORE now leadId w w (same_store_refl w)) as H.
  simpl in H. fold w' in H.
  destruct (find_lead leadId (leads w)) as [lead|] eqn:Hl.
  - assert (Hdone : done = saved
                (Lead.rescore
                   (final_score 0
                      (replayed MAX_SCORE (scoringRules w) leadId
                         (sort_by_timestamp (processed_events_of leadId (events w))) 0))
                   now lead)
                (inserted now
                   (replayed MAX_SCORE (scoringRules w) leadId
                      (sort_by_timestamp (processed_events_of leadId (events w))) 0)
                   (deleted leadId (set_faults None w)))).
    { unfold done.
      rewrite (recalculateLeadScore_fault_free MAX_SCORE now leadId (set_faults None w) lead)
        by (simpl; auto).
      reflexivity. }
    destruct (snd (recalculateLeadScore MAX_SCORE now leadId w)) as [r|e].
    + destruct H as [H _]. apply same_store_fields in H.
      destruct H as (El & _ & Eh & _).
      assert (scoreHistory w' = scoreHistory done /\ leads w' = leads done)
        by (rewrite Hdone, El, Eh; split; reflexivity).
      split; [right; right; right; assumption | intros; assumption].
    + split; [|intros; discriminate].
      destruct H as [H|[H|H]]; apply same_store_fields in H;
        destruct H as (El & _ & Eh & _).
      * left. split; assumption.
      * right. left. split; assumption.
      * right. right. left. rewrite Hdone, El, Eh. split; reflexivity.
  - destruct H as [H Hret]. apply same_store_fields in H.
    destruct H as (El & _ & Eh & _).
    split; [left; split; assumption|].
    intros r Hr. exfalso. apply (Hret r Hr).
Qed.

(** ** Recalculating twice *)

Lemma replace_lead_In x l y :
  In y (replace_lead x l) -> Lead._id y = Lead._id x -> y = x.
Proof.
  unfold replace_lead. intros Hin Hid. apply in_map_iff in Hin.
  destruct Hin as (z & Hz & _).
  destruct (String.eqb (Lead._id z) (Lead._id x)) eqn:E; [congruence|].
  subst z. apply String.eqb_neq in E. contradiction.
Qed.

Lemma replace_lead_scores x l :
  (forall y, In y l -> Lead._id y = Lead._id x -> Lead.currentScore y = Lead.currentScore x) ->
  map Lead.currentScore (replace_lead x l) = map Lead.currentScore l.
Proof.
  unfold replace_lead. induction l as [|y t IH]; simpl; intros H; [reflexivity|].
  rewrite IH by (intros; apply H; auto).
  destruct (String.eqb (Lead._id y) (Lead._id x)) eqn:E; [|reflexivity].
  apply String.eqb_eq in E. rewrite (H y); auto.
Qed.

Lemma replace_lead_again x l : replace_lead x (replace_lead x l) = replace_lead x l.
Proof.
  unfold replace_lead. rewrite map_map. apply map_ext. intros y.
  destruct (String.eqb (Lead._id y) (Lead._id x)) eqn:E; [|rewrite E; reflexivity].
  rewrite String.eqb_refl. reflexivity.
Qed.

Lemma supplied_new now rows :
  map ScoreHistory.supplied (map (ScoreHistory.new now) rows) = rows.
Proof.
  induction rows as [|r rs IH]; simpl; [reflexivity|].
  rewrite IH. destruct r; reflexivity.
Qed.

(** What a returning recalculation leaves, for any fault budget. *)
Lemma recalculateLeadScore_returned MAX_SCORE now leadId w w' r :
  recalculateLeadScore MAX_SCORE now leadId w = (w', Return r) ->
  exists lead,
    find_lead leadId (leads w) = Some lead /\
    let rows := replayed MAX_SCORE (scoringRules w) leadId
                  (sort_by_timestamp (processed_events_of leadId (events w))) 0 in
    same_store w' (saved (Lead.rescore (final_score 0 rows) now lead)
                     (inserted now rows (deleted leadId w))) /\
    r = mkRecalcResult leadId (Lead.currentScore lead) (final_score 0 rows)
          (List.length (sort_by_timestamp (processed_events_of leadId (events w)))).
Proof.
  intros Hrun.
  pose proof (recalculateLeadScore_triple MAX_SCORE now leadId w w (same_store_refl w)) as H.
  simpl in H. rewrite Hrun in H. simpl in H.
  destruct (find_lead leadId (leads w)) as [lead|].
  - exists lead. split; [reflexivity | exact H].
  - destruct H as [_ H]. exfalso. apply (H r). reflexivity.
Qed.

(** C8, amended. Two recalculations of a lead in a row, with no event and
    no rule change in between, give the same ScoreHistory in every field
    the engine supplies and the same [currentScore] of every lead; the
    second reports the score of the first as previous and as new score.
    The [createdAt] of the rows is the time of each recalculation, so the
    collections are equal when both run at the same clock value. *)
Theorem recalculation_twice MAX_SCORE now1 now2 leadId w w1 w2 r1 r2 :
  recalculateLeadScore MAX_SCORE now1 leadId w = (w1, Return r1) ->
  recalculateLeadScore MAX_SCORE now2 leadId w1 = (w2, Return r2) ->
  map ScoreHistory.supplied (scoreHistory w2) = map ScoreHistory.supplied (scoreHistory w1) /\
  map Lead.currentScore (leads w2) = map Lead.currentScore (leads w1) /\
  r_newScore r2 = r_newScore r1 /\
  r_previousScore r2 = r_newScore r1 /\
  (now2 = now1 -> scoreHistory w2 = scoreHistory w1 /\ leads w2 = leads w1).
Proof.
  intros H1 H2.
  apply recalculateLeadScore_returned in H1. destruct H1 as (lead & Hl & Hs1 & Hr1).
  apply recalculateLeadScore_returned in H2. destruct H2 as (lead1 & Hl1 & Hs2 & Hr2).
  simpl in Hs1, Hs2.
  apply same_store_fields in Hs1. destruct Hs1 as (El1 & Ee1 & Eh1 & Er1 & _).
  apply same_store_fields in Hs2. destruct Hs2 as (El2 & _ & Eh2 & _).
  simpl in El1, Ee1, Eh1, Er1, El2, Eh2.
  rewrite Ee1, Er1 in *.
  set (rows := replayed MAX_SCORE (scoringRules w) leadId
                 (sort_by_timestamp (processed_events_of leadId (events w))) 0) in *.
  set (total := final_score 0 rows) in *.
  pose proof (find_lead_id _ _ _ Hl) as Hid.
  assert (Hlead1 : lead1 = Lead.rescore total now1 lead).
  { rewrite El1 in Hl1.
    rewrite (find_lead_replace leadId (leads w) lead (Lead.rescore total now1 lead) Hl Hid)
      in Hl1. congruence. }
  subst lead1.
  assert (Hothers : filter (fun h => negb (of_lead leadId h)) (scoreHistory w1)
                    = filter (fun h => negb (of_lead leadId h)) (scoreHistory w)).
  { rewrite Eh1. apply others_after_recalculation. }
  rewrite Hothers in Eh2.
  split.
  { rewrite Eh1, Eh2, !map_app, !supplied_new. reflexivity. }
  split.
  { rewrite El2. apply replace_lead_scores.
    intros y Hy Hyid. rewrite El1 in Hy.
    rewrite (replace_lead_In _ _ _ Hy Hyid). reflexivity. }
  split; [subst r1 r2; reflexivity|].
  split; [subst r1 r2; reflexivity|].
  intros ->. split.
  - rewrite Eh1, Eh2. reflexivity.
  - rewrite El2, El1. apply replace_lead_again.
Qed.

(** ** The in-order path *)

(** ** The claims at the small world *)

(** C1, at a failing input. The page view at time 300 is new, its lead is
    known, its rule is active and it is in order.  [processEvent] saves the
    score 10 = clamp(5 + 5, 0, 1000) and then throws the reference error
    for [change]: the ledger keeps its single row, the event is recorded
    but not marked processed, nothing is emitted, nothing is returned. *)
Theorem processEvent_in_order_stops_at_change :
  let run := processEvent 1000 7 later_view small_world in
  snd run = Throw (ReferenceError "change") /\
  leads (fst run) = [Lead.rescore 10 7 ann] /\
  scoreHistory (fst run) = [first_row] /\
  events (fst run) = [first_view; Event.new "e1" "page_view" "L1" 300 [] 7] /\
  already_processed "e1" (fst run) = false /\
  emitted (fst run) = [].
Proof. vm_compute. repeat split. Qed.

Lemma small_world_consistent : ledger_consistent small_world.
Proof. intros l [<-|[]]. reflexivity. Qed.

Lemma small_world_unique : unique_eventIds small_world.
Proof. unfold unique_eventIds. simpl. constructor; [intros [] | constructor]. Qed.

Lemma small_world_refers : history_refers_to_events small_world.
Proof.
  intros h [<-|[]]. exists first_view. split; [left; reflexivity | split; reflexivity].
Qed.

Lemma small_world_bounded : bounded 1000 small_world.
Proof.
  split; simpl; (constructor; [simpl; lia | constructor]).
Qed.


(** C6, the claim as stated fails. The recalculation of the lead is cut off
    by a failing [insertMany] after the [deleteMany]: the lead keeps score
    5 while its ledger is empty. *)
Lemma failed_recalculation_leaves_score_without_ledger :
  let run := recalculateLeadScore 1000 9 "L1" (set_faults (Some 4%nat) small_world) in
  ledger_consistent small_world /\
  snd run = Throw StoreError /\
  ~ ledger_consistent (fst run).
Proof.
  split; [exact small_world_consistent|].
  split; [reflexivity|].
  intros H. specialize (H (Lead.make "L1" "Ann" "ann@example.com" None 5 "new" 0 3)).
  vm_compute in H. specialize (H (or_introl eq_refl)). discriminate.
Qed.

(** C7, the claim as stated fails. After the same failure the ledger and
    score of the lead are neither the old pair nor the new pair: the ledger
    is deleted and no replacement is written. *)
Lemma failed_recalculation_is_a_mixture :
  let run := recalculateLeadScore 1000 9 "L1" (set_faults (Some 4%nat) small_world) in
  let done := recalculateLeadScore 1000 9 "L1" small_world in
  snd run = Throw StoreError /\
  ledger_of "L1" (fst run) = ([], Some 5) /\
  ledger_of "L1" (fst run) <> ledger_of "L1" small_world /\
  ledger_of "L1" (fst run) <> ledger_of "L1" (fst done).
Proof.
  vm_compute. repeat split; intros H; discriminate.
Qed.

(** C8, the claim as stated fails. Recalculations at clock values 9 and 10
    both return, and the two ScoreHistory collections differ in
    [createdAt]. *)
Lemma recalculation_twice_differs_in_createdAt :
  let first := recalculateLeadScore 1000 9 "L1" small_world in
  let second := recalculateLeadScore 1000 10 "L1" (fst first) in
  snd first = Return (mkRecalcResult "L1" 5 5 1) /\
  snd second = Return (mkRecalcResult "L1" 5 5 1) /\
  map ScoreHistory.createdAt (scoreHistory (fst first)) = [9] /\
  map ScoreHistory.createdAt (scoreHistory (fst second)) = [10] /\
  scoreHistory (fst second) <> scoreHistory (fst first).
Proof.
  vm_compute. repeat split. intros H. discriminate.
Qed.


(** ** The theorems at the small world *)

Lemma reprocessing_is_pure_observation_witness :
  let w' := fst (processEvent 1000 7 earlier_view small_world) in
  faults small_world = None /\
  processEvent 1000 7 earlier_view small_world
    = (w', Return (Recalculated "L1" 5 10 5 "page_view")) /\
  processEvent 1000 8 earlier_view w' = (w', Return Duplicate) /\
  rows_for "e2" (scoreHistory w') = 1%nat.
Proof.
  intros w'.
  assert (Hrun : processEvent 1000 7 earlier_view small_world
                 = (w', Return (Recalculated "L1" 5 10 5 "page_view")))
    by (vm_compute; reflexivity).
  assert (Hr : Recalculated "L1" 5 10 5 "page_view" <> Duplicate) by discriminate.
  assert (Hp : same_payload earlier_view small_world)
    by (intros e H; vm_compute in H; discriminate).
  destruct (reprocessing_is_pure_observation 1000 7 8 earlier_view earlier_view
              small_world w' _ eq_refl Hrun Hr eq_refl) as [Hdup Hrows].
  split; [reflexivity|]. split; [exact Hrun|]. split; [exact Hdup|].
  exact (proj1 (Hrows small_world_unique small_world_refers Hp)).
Defined.

Lemma busy_world_recent id score :
  In (id, score) [("e5", 15); ("e8", 20)] ->
  most_recent_entry "L1" (scoreHistory busy_world) (row_at id 400 score).
Proof.
  intros Hin. split.
  { destruct Hin as [E|[E|[]]]; injection E as <- <-; simpl; auto. }
  split; [reflexivity|].
  intros h' Hh' Hid. simpl in Hh'.
  destruct Hh' as [<-|[<-|[<-|[<-|[<-|[]]]]]]; try (simpl; lia).
  simpl in Hid. discriminate.
Qed.

Lemma out_of_order_event_recalculates_witness :
  faults busy_world = None /\
  most_recent_entry "L1" (scoreHistory busy_world) (row_at "e5" 400 15) /\
  Event.timestamp (snd (ledgered 7 between_view busy_world)) < 400 /\
  exists w3 r,
    snd (processEvent 1000 7 between_view busy_world)
      = Return (Recalculated "L1" 20 25 5 "page_view") /\
    r = mkRecalcResult "L1" 20 25 5 /\
    already_processed "e7" w3 = true /\
    option_map Lead.currentScore (find_lead "L1" (leads w3)) = Some 25 /\
    map ScoreHistory.score (filter (of_lead "L1") (scoreHistory w3)) = [5; 10; 15; 20; 25].
Proof.
  assert (Hrecent : most_recent_entry "L1" (scoreHistory busy_world) (row_at "e5" 400 15))
    by (apply busy_world_recent; simpl; auto).
  split; [reflexivity|]. split; [exact Hrecent|]. split; [reflexivity|].
  destruct (out_of_order_event_recalculates 1000 7 between_view busy_world
              (Lead.make "L1" "Ann" "ann@example.com" None 20 "new" 0 6)
              page_view_rule (row_at "e5" 400 15)
              eq_refl eq_refl eq_refl eq_refl Hrecent eq_refl)
    as (w3 & r & loaded & Hrec & Hrun & _ & _ & Hproc & _ & _ & _ & Hprev & _ & _ & Hscore & _).
  pose proof Hrec as Hc. vm_compute in Hc. injection Hc as Ew Er.
  exists w3, r. rewrite Hrun, <- Er in *.
  split; [reflexivity|]. split; [reflexivity|]. split; [exact Hproc|].
  split; [exact Hscore|]. rewrite <- Ew. reflexivity.
Defined.



Lemma scores_stay_bounded_witness :
  0 <= 1000 /\
  bounded 1000 small_world /\
  bounded 1000
    (exec_all 1000
       [ProcessEvent 7 later_view;
        ConfigureRules [ScoringRule.make "page_view" (-50) true None];
        ProcessEvent 8 earlier_view;
        InjectFaults (Some 4%nat);
        Recalculate 9 "L1"]
       small_world).
Proof.
  assert (H0 : 0 <= 1000) by lia.
  split; [exact H0|]. split; [exact small_world_bounded|].
  exact (scores_stay_bounded 1000 _ small_world H0 small_world_bounded).
Defined.

Lemma returning_operations_keep_ledger_score_witness :
  ledger_consistent small_world /\
  snd (processEvent 1000 7 earlier_view small_world)
    = Return (Recalculated "L1" 5 10 5 "page_view") /\
  ledger_consistent (fst (processEvent 1000 7 earlier_view small_world)).
Proof.
  split; [exact small_world_consistent|]. split; [reflexivity|].
  destruct (returning_operations_keep_ledger_score 1000 small_world small_world_consistent)
    as [_ H].
  apply (H 7 earlier_view _ (Recalculated "L1" 5 10 5 "page_view")).
  vm_compute. reflexivity.
Defined.

Lemma recalculation_twice_witness :
  let first := recalculateLeadScore 1000 9 "L1" small_world in
  let second := recalculateLeadScore 1000 10 "L1" (fst first) in
  snd first = Return (mkRecalcResult "L1" 5 5 1) /\
  snd second = Return (mkRecalcResult "L1" 5 5 1) /\
  map ScoreHistory.supplied (scoreHistory (fst second))
    = map ScoreHistory.supplied (scoreHistory (fst first)) /\
  map Lead.currentScore (leads (fst second)) = map Lead.currentScore (leads (fst first)).
Proof.
  intros first second.
  assert (H1 : recalculateLeadScore 1000 9 "L1" small_world
               = (fst first, Return (mkRecalcResult "L1" 5 5 1)))
    by (vm_compute; reflexivity).
  assert (H2 : recalculateLeadScore 1000 10 "L1" (fst first)
               = (fst second, Return (mkRecalcResult "L1" 5 5 1)))
    by (vm_compute; reflexivity).
  destruct (recalculation_twice 1000 9 10 "L1" small_world (fst first) (fst second) _ _ H1 H2)
    as (Hrows & Hscores & _).
  split; [reflexivity|]. split; [reflexivity|]. split; [exact Hrows | exact Hscores].
Defined.



Lemma equal_timestamp_is_in_order_witness :
  let run := processEvent 1000 7 tied_view busy_world in
  faults busy_world = None /\
  most_recent_entry "L1" (scoreHistory busy_world) (row_at "e8" 400 20) /\
  Event.timestamp (snd (ledgered 7 tied_view busy_world)) = 400 /\
  option_map Lead.currentScore (find_lead "L1" (leads (fst run))) = Some 25 /\
  scoreHistory (fst run) = scoreHistory busy_world /\
  already_processed "e9" (fst run) = false /\
  snd run = Throw (ReferenceError "change").
Proof.
  intros run.
  assert (Hrecent : most_recent_entry "L1" (scoreHistory busy_world) (row_at "e8" 400 20))
    by (apply busy_world_recent; simpl; auto).
  split; [reflexivity|]. split; [exact Hrecent|]. split; [reflexivity|].
  destruct (equal_timestamp_is_in_order 1000 7 tied_view busy_world
              (Lead.make "L1" "Ann" "ann@example.com" None 20 "new" 0 6)
              page_view_rule (row_at "e8" 400 20)
              eq_refl eq_refl eq_refl eq_refl Hrecent eq_refl)
    as (_ & Hscore & _ & Hhist & _ & Hnot & _ & Hthrow & _).
  split; [exact Hscore|]. split; [exact Hhist|]. split; [exact Hnot | exact Hthrow].
Defined.

(** * Beyond the claims: batches *)

Section BatchFacts.

Variable MAX_SCORE : Z.
Variable sort_events : list EventData -> list EventData.
Variable clock : nat -> Date.

Lemma processBatch_loop_accounts evs : forall i results w,
  exists w' r,
    processBatch_loop MAX_SCORE clock i evs results w = (w', Return r) /\
    (b_processed r + b_duplicates r + b_failed r
     = b_processed results + b_duplicates results + b_failed results + List.length evs)%nat /\
    (List.length (b_errors r) + b_failed results
     = List.length (b_errors results) + b_failed r)%nat /\
    (forall id, In id (map fst (b_errors r)) ->
       In id (map fst (b_errors results)) \/ In id (map d_eventId evs)).
Proof.
  induction evs as [|event rest IH]; intros i results w; simpl.
  - exists w, results. unfold ret. repeat split; auto; lia.
  - unfold bind, attempt.
    destruct (processEvent MAX_SCORE (clock i) event w) as [w1 [result|error]].
    + destruct (is_duplicate result).
      * destruct (IH (S i) (count_duplicate results) w1) as (w' & r & Hrun & Hsum & Herr & Hids).
        exists w', r. rewrite Hrun. simpl in *.
        repeat split; try lia. intros id Hid. destruct (Hids id Hid); auto.
      * destruct (IH (S i) (count_processed results) w1) as (w' & r & Hrun & Hsum & Herr & Hids).
        exists w', r. rewrite Hrun. simpl in *.
        repeat split; try lia. intros id Hid. destruct (Hids id Hid); auto.
    + destruct (IH (S i) (count_failed (d_eventId event) error results) w1)
        as (w' & r & Hrun & Hsum & Herr & Hids).
      exists w', r. rewrite Hrun. simpl in *. rewrite length_app in Herr. simpl in Herr.
      repeat split; try lia. intros id Hid. destruct (Hids id Hid) as [H|H]; auto.
      rewrite map_app in H. apply in_app_or in H. simpl in H.
      destruct H as [H|[H|[]]]; auto.
Qed.

Lemma processBatch_loop_bounded evs : forall i results w,
  0 <= MAX_SCORE ->
  bounded MAX_SCORE w ->
  bounded MAX_SCORE (fst (processBatch_loop MAX_SCORE clock i evs results w)).
Proof.
  induction evs as [|event rest IH]; intros i results w Hmax Hw; simpl; [exact Hw|].
  unfold bind, attempt.
  pose proof (processEvent_bounded MAX_SCORE Hmax (clock i) event w Hw) as Hb.
  destruct (processEvent MAX_SCORE (clock i) event w) as [w1 [result|error]]; simpl in Hb.
  - destruct (is_duplicate result); apply IH; assumption.
  - apply IH; assumption.
Qed.

End BatchFacts.

(** X1. [processBatch] never throws, whatever fails inside: every event of
    the batch is counted once as processed, duplicate or failed, [errors]
    has one entry per failure, and each entry names an event of the
    batch. *)
Theorem processBatch_accounts_for_every_event MAX_SCORE sort_events clock events w :
  (forall l, Permutation (sort_events l) l) ->
  exists w' r,
    processBatch MAX_SCORE sort_events clock events w = (w', Return r) /\
    (b_processed r + b_duplicates r + b_failed r = List.length events)%nat /\
    List.length (b_errors r) = b_failed r /\
    (forall id, In id (map fst (b_errors r)) -> In id (map d_eventId events)).
Proof.
  intros Hperm. unfold processBatch.
  destruct (processBatch_loop_accounts MAX_SCORE clock (sort_events events) 0%nat
              (mkBatchResults 0 0 0 []) w) as (w' & r & Hrun & Hsum & Herr & Hids).
  exists w', r. simpl in *.
  rewrite (Permutation_length (Hperm events)) in Hsum.
  split; [exact Hrun|]. split; [lia|]. split; [lia|].
  intros id Hid. destruct (Hids id Hid) as [[]|H].
  eapply Permutation_in; [|exact H]. apply Permutation_map, Hperm.
Qed.

(** X2. With MAX not negative, [processBatch] keeps every lead's score and
    every ScoreHistory score within [0, MAX], for every batch, order of the
    batch and failure inside it. *)
Theorem processBatch_keeps_scores_bounded MAX_SCORE sort_events clock events w :
  0 <= MAX_SCORE ->
  bounded MAX_SCORE w ->
  bounded MAX_SCORE (fst (processBatch MAX_SCORE sort_events clock events w)).
Proof. intros Hmax Hw. apply processBatch_loop_bounded; assumption. Qed.

(** * Beyond the claims: a store that has scored nothing yet *)

Lemma unscored_stable : stable unscored.
Proof. intros n w H. exact H. Qed.

Lemma unscored_same_store a b : same_store a b -> unscored b -> unscored a.
Proof.
  intros Hs [Hh He]. apply same_store_fields in Hs.
  destruct Hs as (_ & Ee & Eh & _). unfold unscored. rewrite Ee, Eh. auto.
Qed.

Lemma unscored_no_processed_events leadId w :
  unscored w -> processed_events_of leadId (events w) = [].
Proof.
  intros [_ He]. unfold processed_events_of.
  induction He as [|e t Hp _ IH]; simpl; [reflexivity|].
  rewrite Hp, andb_false_r. exact IH.
Qed.

Section Unscored.

Variable MAX_SCORE : Z.

Lemma processEvent_unscored now eventData :
  hoare unscored (processEvent MAX_SCORE now eventData)
    (fun c w => unscored w /\ forall r, c <> Return r).
Proof.
  unfold processEvent, Event_findOne. apply hoare_query.
  { apply unscored_stable. } { reflexivity. }
  { intros w Hw. split; [exact Hw | intros; discriminate]. }
  intros existingEvent.
  apply (hoare_pure (match existingEvent with
                     | Some e => Event.processed e
                     | None => false
                     end = false)).
  { intros w [[_ He] Hq]. destruct existingEvent as [e|]; [|reflexivity].
    unfold find_event in Hq. apply find_some in Hq. destruct Hq as [Hin _].
    rewrite Forall_forall in He. apply He, Hin. }
  intros Hnot. rewrite Hnot.
  eapply hoare_weaken with (P' := unscored);
    [| intros w Hw; exact (proj1 Hw) | intros c w Hc; exact Hc].
  unfold Lead_findById. apply hoare_query.
  { apply unscored_stable. } { reflexivity. }
  { intros w Hw. split; [exact Hw | intros; discriminate]. }
  intros [lead|].
  2:{ apply hoare_throw. intros w [Hw _]. split; [exact Hw | intros; discriminate]. }
  eapply hoare_weaken with (P' := unscored);
    [| intros w Hw; exact (proj1 Hw) | intros c w Hc; exact Hc].
  unfold ScoringRule_findOne. apply hoare_query.
  { apply unscored_stable. } { reflexivity. }
  { intros w Hw. split; [exact Hw | intros; discriminate]. }
  intros [rule|].
  2:{ apply hoare_throw. intros w [Hw _]. split; [exact Hw | intros; discriminate]. }
  eapply hoare_weaken with (P' := unscored);
    [| intros w Hw; exact (proj1 Hw) | intros c w Hc; exact Hc].
  eapply hoare_bind with (R := fun _ w => unscored w).
  { destruct existingEvent as [e|].
    - apply hoare_ret. intros w Hw. exact Hw.
    - unfold Event_insert. apply hoare_update with (P' := unscored).
      + intros w Hw. split; [exact Hw | intros; discriminate].
      + intros n w [Hh He]. split; [exact Hh|]. simpl.
        apply Forall_app. split; [exact He|]. constructor; [reflexivity | constructor].
      + apply hoare_ret. intros w Hw. exact Hw. }
  intros event. unfold ScoreHistory_findLatest. apply hoare_query.
  { apply unscored_stable. } { reflexivity. }
  { intros w Hw. split; [exact Hw | intros; discriminate]. }
  intros latestHistory.
  apply (hoare_pure (latestHistory = None)).
  { intros w [[Hh _] Hq]. rewrite Hh in Hq. simpl in Hq. congruence. }
  intros ->. simpl.
  eapply hoare_weaken with (P' := unscored);
    [| intros w Hw; exact (proj1 Hw) | intros c w Hc; exact Hc].
  unfold Lead_save. apply hoare_update with (P' := unscored).
  - intros w Hw. split; [exact Hw | intros; discriminate].
  - intros n w Hw. exact Hw.
  - unfold unbound. intros w Hw. simpl. split; [exact Hw | intros; discriminate].
Qed.

Lemma recalculateLeadScore_unscored now leadId :
  hoare unscored (recalculateLeadScore MAX_SCORE now leadId) (fun _ w => unscored w).
Proof.
  intros w Hw.
  pose proof (recalculateLeadScore_triple MAX_SCORE now leadId w w (same_store_refl w)) as H.
  simpl in H. rewrite (unscored_no_processed_events leadId w Hw) in H. simpl in H.
  assert (Hdel : unscored (deleted leadId w)).
  { destruct Hw as [Hh He]. split; simpl; [rewrite Hh; reflexivity | exact He]. }
  assert (Hins : unscored (inserted now [] (deleted leadId w))).
  { destruct Hw as [Hh He]. split; simpl; [rewrite Hh; reflexivity | exact He]. }
  destruct (find_lead leadId (leads w)) as [lead|].
  - destruct (snd (recalculateLeadScore MAX_SCORE now leadId w)) as [r|e].
    + destruct H as [H _]. eapply unscored_same_store; [exact H|]. exact Hins.
    + destruct H as [H|[H|H]]; (eapply unscored_same_store; [exact H|]); assumption.
  - destruct H as [H _]. eapply unscored_same_store; [exact H | exact Hw].
Qed.

Lemma processBatch_loop_unscored clock evs : forall i results w,
  unscored w ->
  exists w' r,
    processBatch_loop MAX_SCORE clock i evs results w = (w', Return r) /\
    unscored w' /\
    b_processed r = b_processed results /\
    b_duplicates r = b_duplicates results /\
    b_failed r = (b_failed results + List.length evs)%nat.
Proof.
  induction evs as [|event rest IH]; intros i results w Hw; simpl.
  - exists w, results. unfold ret.
    split; [reflexivity|]. split; [exact Hw|]. simpl. repeat split; lia.
  - unfold bind, attempt.
    pose proof (processEvent_unscored (clock i) event w Hw) as [Hw1 Hthrow].
    destruct (processEvent MAX_SCORE (clock i) event w) as [w1 [result|error]]; simpl in *.
    + exfalso. apply (Hthrow result). reflexivity.
    + destruct (IH (S i) (count_failed (d_eventId event) error results) w1 Hw1)
        as (w' & r & Hrun & Hu & Hp & Hd & Hf).
      exists w', r. simpl in *.
      split; [exact Hrun|]. split; [exact Hu|]. repeat split; lia.
Qed.

End Unscored.

(** X3. On a store with no ScoreHistory row and no processed event,
    [processEvent] never returns: every call throws, whatever the event and
    whichever store call fails. *)
Theorem processEvent_never_returns_on_unscored_store MAX_SCORE now eventData w :
  unscored w ->
  forall r, snd (processEvent MAX_SCORE now eventData w) <> Return r.
Proof. intros Hw. apply (processEvent_unscored MAX_SCORE now eventData w Hw). Qed.

(** X4. Such a store stays as it is under every sequence of [processEvent]
    and [recalculateLeadScore] calls, rule changes and store failures: no
    ScoreHistory row is ever written and no event is ever marked
    processed. *)
Theorem unscored_store_stays_unscored MAX_SCORE cs : forall w,
  unscored w -> unscored (exec_all MAX_SCORE cs w).
Proof.
  unfold exec_all. induction cs as [|c rest IH]; intros w Hw; simpl; [exact Hw|].
  apply IH. destruct c as [now eventData|now leadId|rules|budget]; simpl.
  - apply (processEvent_unscored MAX_SCORE now eventData w Hw).
  - apply (recalculateLeadScore_unscored MAX_SCORE now leadId w Hw).
  - exact Hw.
  - exact Hw.
Qed.

(** X5. On such a store [processBatch] reports every event of the batch as
    failed: processed and duplicates are 0, failed is the size of the
    batch, and the store is still without rows and processed events. *)
Theorem processBatch_on_unscored_store_fails_every_event
    MAX_SCORE sort_events clock events w :
  (forall l, Permutation (sort_events l) l) ->
  unscored w ->
  exists w' r,
    processBatch MAX_SCORE sort_events clock events w = (w', Return r) /\
    b_processed r = 0%nat /\ b_duplicates r = 0%nat /\
    b_failed r = List.length events /\
    unscored w'.
Proof.
  intros Hperm Hw. unfold processBatch.
  destruct (processBatch_loop_unscored MAX_SCORE clock (sort_events events) 0%nat
              (mkBatchResults 0 0 0 []) w Hw) as (w' & r & Hrun & Hu & Hp & Hd & Hf).
  exists w', r. simpl in *.
  rewrite (Permutation_length (Hperm events)) in Hf. auto.
Qed.

(** * Beyond the claims: the same event again *)

Lemma repeated_cap MAX_SCORE p s n :
  0 <= s <= MAX_SCORE ->
  Nat.iter n (fun x => cap MAX_SCORE (x + p)) s = clamp (s + Z.of_nat n * p) 0 MAX_SCORE.
Proof.
  intros Hs. induction n as [|n IH].
  - simpl. unfold clamp. lia.
  - rewrite Nat.iter_succ, IH, cap_clamp. unfold clamp.
    replace (Z.of_nat (S n)) with (Z.of_nat n + 1) by lia.
    destruct (Z.le_gt_cases 0 p) as [Hp|Hp].
    + assert (0 <= Z.of_nat n * p) by (apply Z.mul_nonneg_nonneg; lia). lia.
    + assert (Z.of_nat n * p <= 0) by (apply Z.mul_nonneg_nonpos; lia). lia.
Qed.

Lemma ledgered_again now now' eventData w leads' :
  ledgered now' eventData (set_leads leads' (fst (ledgered now eventData w)))
  = (set_leads leads' (fst (ledgered now eventData w)), snd (ledgered now eventData w)).
Proof.
  pose proof (ledgered_found now eventData w) as Hf.
  unfold ledgered at 1. simpl. rewrite Hf. reflexivity.
Qed.

Lemma attempts_in_order MAX_SCORE clock n : forall i eventData w lead rule,
  faults w = None ->
  already_processed (d_eventId eventData) w = false ->
  find_lead (d_leadId eventData) (leads w) = Some lead ->
  find_active_rule (d_eventType eventData) (scoringRules w) = Some rule ->
  isOutOfOrder (latest (filter (of_lead (d_leadId eventData)) (scoreHistory w)))
    (Event.timestamp (snd (ledgered (clock i) eventData w))) = false ->
  let w' := attempts MAX_SCORE clock i n eventData w in
  scoreHistory w' = scoreHistory w /\
  already_processed (d_eventId eventData) w' = false /\
  option_map Lead.currentScore (find_lead (d_leadId eventData) (leads w'))
  = Some (Nat.iter n (fun s => cap MAX_SCORE (s + ScoringRule.points rule))
            (Lead.currentScore lead)).
Proof.
  induction n as [|n IH]; intros i eventData w lead rule Hf Hdup Hl Hr Hin.
  - simpl. rewrite Hl. auto.
  - cbn [attempts]. cbv zeta.
    pose proof (in_order_path_throws MAX_SCORE (clock i) eventData w lead rule
                  Hf Hdup Hl Hr Hin) as Hstep.
    simpl in Hstep. destruct Hstep as (_ & Hh1 & _ & Hdup1 & Hl1).
    assert (Hw1 : fst (processEvent MAX_SCORE (clock i) eventData w)
                  = set_leads
                      (replace_lead
                         (Lead.rescore
                            (cap MAX_SCORE (Lead.currentScore lead + ScoringRule.points rule))
                            (clock i) lead)
                         (leads (fst (ledgered (clock i) eventData w))))
                      (fst (ledgered (clock i) eventData w))).
    { rewrite (processEvent_past_guards MAX_SCORE (clock i) eventData w lead rule
                 Hf Hdup Hl Hr).
      simpl. rewrite Hin. reflexivity. }
    destruct (ledgered_rest (clock i) eventData w) as (_ & _ & Hrules & Hfaults).
    set (w1 := fst (processEvent MAX_SCORE (clock i) eventData w)) in *.
    assert (Hf1 : faults w1 = None) by (rewrite Hw1; simpl; congruence).
    assert (Hr1 : find_active_rule (d_eventType eventData) (scoringRules w1) = Some rule)
      by (rewrite Hw1; simpl; congruence).
    assert (Hin1 : isOutOfOrder
                     (latest (filter (of_lead (d_leadId eventData)) (scoreHistory w1)))
                     (Event.timestamp (snd (ledgered (clock (S i)) eventData w1))) = false).
    { rewrite Hh1. rewrite Hw1, ledgered_again. simpl. exact Hin. }
    destruct (IH (S i) eventData w1 _ rule Hf1 Hdup1 Hl1 Hr1 Hin1) as (Hh & Hd & Hs).
    split; [congruence|]. split; [exact Hd|].
    rewrite Hs, Nat.iter_succ_r. cbn [Lead.currentScore Lead.rescore].
    rewrite (cap_clamp MAX_SCORE (Lead.currentScore lead + ScoringRule.points rule)).
    reflexivity.
Qed.

(** X6. An in-order event that is handed to [processEvent] again after it
    failed is applied again: without failing store calls, after n attempts
    the lead's score is clamp(score + n * points, 0, MAX) for a score that
    started within [0, MAX], while the ScoreHistory is unchanged and the
    event is still not marked processed. *)
Theorem retried_in_order_event_adds_its_points_again
    MAX_SCORE clock n i eventData w lead rule :
  faults w = None ->
  already_processed (d_eventId eventData) w = false ->
  find_lead (d_leadId eventData) (leads w) = Some lead ->
  find_active_rule (d_eventType eventData) (scoringRules w) = Some rule ->
  isOutOfOrder (latest (filter (of_lead (d_leadId eventData)) (scoreHistory w)))
    (Event.timestamp (snd (ledgered (clock i) eventData w))) = false ->
  0 <= Lead.currentScore lead <= MAX_SCORE ->
  let w' := attempts MAX_SCORE clock i n eventData w in
  option_map Lead.currentScore (find_lead (d_leadId eventData) (leads w'))
  = Some (clamp (Lead.currentScore lead + Z.of_nat n * ScoringRule.points rule) 0 MAX_SCORE) /\
  scoreHistory w' = scoreHistory w /\
  already_processed (d_eventId eventData) w' = false.
Proof.
  intros Hf Hdup Hl Hr Hin Hs w'.
  destruct (attempts_in_order MAX_SCORE clock n i eventData w lead rule Hf Hdup Hl Hr Hin)
    as (Hh & Hd & Hscore).
  fold w' in Hh, Hd, Hscore.
  split; [|split; assumption].
  rewrite Hscore, repeated_cap by assumption. reflexivity.
Qed.

(** * Beyond the claims: what a recalculation leaves *)

Lemma sort_by_timestamp_length l : List.length (sort_by_timestamp l) = List.length l.
Proof.
  induction l as [|e t IH]; simpl; [reflexivity|].
  rewrite <- IH. generalize (sort_by_timestamp t). intros s.
  induction s as [|x r IHs]; simpl; [reflexivity|].
  destruct (Event.timestamp e <=? Event.timestamp x); simpl; [reflexivity|].
  rewrite IHs. reflexivity.
Qed.

Lemma replayed_length MAX_SCORE rules leadId evs : forall s,
  List.length (replayed MAX_SCORE rules leadId evs s)
  = List.length (filter (has_active_rule rules) evs).
Proof.
  unfold has_active_rule.
  induction evs as [|e rest IH]; intros s; simpl; [reflexivity|].
  destruct (find_active_rule (Event.eventType e) rules); simpl; rewrite IH; reflexivity.
Qed.

Lemma chained_replayed MAX_SCORE now rules leadId evs : forall s,
  chained s (map (ScoreHistory.new now) (replayed MAX_SCORE rules leadId evs s)).
Proof.
  induction evs as [|e rest IH]; intros s; simpl; [exact I|].
  destruct (find_active_rule (Event.eventType e) rules); simpl; auto.
Qed.

Lemma total_points_insert rules e l :
  total_points rules (insert_by_timestamp e l) = total_points rules (e :: l).
Proof.
  induction l as [|x r IH]; simpl; [reflexivity|].
  destruct (Event.timestamp e <=? Event.timestamp x); [reflexivity|].
  simpl in *. rewrite IH.
  destruct (find_active_rule (Event.eventType x) rules),
           (find_active_rule (Event.eventType e) rules); lia.
Qed.

Lemma total_points_sort rules l :
  total_points rules (sort_by_timestamp l) = total_points rules l.
Proof.
  induction l as [|e r IH]; simpl; [reflexivity|].
  rewrite total_points_insert. simpl. rewrite IH. reflexivity.
Qed.

Lemma find_active_rule_active eventType rules rule :
  find_active_rule eventType rules = Some rule ->
  In rule rules /\ ScoringRule.active rule = true.
Proof.
  unfold find_active_rule. intros H. apply find_some in H.
  destruct H as [Hin H]. apply andb_true_iff in H. tauto.
Qed.

Lemma total_points_nonneg rules evs :
  (forall rule, In rule rules -> ScoringRule.active rule = true ->
                0 <= ScoringRule.points rule) ->
  0 <= total_points rules evs.
Proof.
  intros Hpos. induction evs as [|e rest IH]; simpl; [lia|].
  destruct (find_active_rule (Event.eventType e) rules) as [rule|] eqn:Hr; [|exact IH].
  apply find_active_rule_active in Hr. destruct Hr as [Hin Hact].
  specialize (Hpos rule Hin Hact). lia.
Qed.

Lemma final_score_nonneg_rules MAX_SCORE rules leadId evs :
  (forall rule, In rule rules -> ScoringRule.active rule = true ->
                0 <= ScoringRule.points rule) ->
  forall s, 0 <= s <= MAX_SCORE ->
  final_score s (replayed MAX_SCORE rules leadId evs s)
  = Z.min MAX_SCORE (s + total_points rules evs).
Proof.
  intros Hpos. unfold final_score.
  induction evs as [|e rest IH]; intros s Hs; simpl; [lia|].
  destruct (find_active_rule (Event.eventType e) rules) as [rule|] eqn:Hr.
  - simpl map. rewrite last_cons.
    pose proof (find_active_rule_active _ _ _ Hr) as [Hin Hact].
    pose proof (Hpos rule Hin Hact) as Hp.
    pose proof (total_points_nonneg rules rest Hpos) as Hrest.
    rewrite IH by (unfold clamp; lia). unfold clamp. lia.
  - apply IH, Hs.
Qed.

(** What a returning recalculation leaves for its lead, for any fault
    budget. *)
Lemma recalculateLeadScore_ledger MAX_SCORE now leadId w w' r :
  recalculateLeadScore MAX_SCORE now leadId w = (w', Return r) ->
  exists lead,
    find_lead leadId (leads w) = Some lead /\
    let evs := sort_by_timestamp (processed_events_of leadId (events w)) in
    let rows := replayed MAX_SCORE (scoringRules w) leadId evs 0 in
    filter (of_lead leadId) (scoreHistory w') = map (ScoreHistory.new now) rows /\
    find_lead leadId (leads w') = Some (Lead.rescore (final_score 0 rows) now lead) /\
    r = mkRecalcResult leadId (Lead.currentScore lead) (final_score 0 rows)
          (List.length evs) /\
    events w' = events w /\ scoringRules w' = scoringRules w.
Proof.
  intros Hrun.
  apply recalculateLeadScore_returned in Hrun. destruct Hrun as (lead & Hl & Hs & Hr).
  exists lead. split; [exact Hl|]. simpl in *.
  apply same_store_fields in Hs. destruct Hs as (El & Ee & Eh & Er & _). simpl in *.
  rewrite Eh, El.
  split; [apply ledger_after_recalculation|].
  split.
  { eapply find_lead_replace; [exact Hl|]. simpl. eapply find_lead_id; exact Hl. }
  auto.
Qed.

(** X7. A recalculation that returns puts the lead's score in step with its
    ledger, whatever score and rows the lead had before: [currentScore] is
    the score of the entry with the greatest (timestamp, position), 0
    without entries, and it is the newScore returned. *)
Theorem recalculation_repairs_the_score MAX_SCORE now leadId w w' r :
  recalculateLeadScore MAX_SCORE now leadId w = (w', Return r) ->
  exists lead',
    find_lead leadId (leads w') = Some lead' /\
    Lead.currentScore lead' = ledger_score leadId (scoreHistory w') /\
    r_newScore r = Lead.currentScore lead'.
Proof.
  intros Hrun. apply recalculateLeadScore_ledger in Hrun.
  destruct Hrun as (lead & _ & Hrows & Hlead & Hr & _). simpl in *.
  eexists. split; [exact Hlead|]. split.
  - unfold ledger_score. rewrite Hrows, ledger_score_new; [reflexivity|].
    apply replayed_ascending, sort_by_timestamp_ascending.
  - rewrite Hr. reflexivity.
Qed.

(** X8. The rows a recalculation writes for its lead read as a chain from
    0: the first row has previousScore 0, every later row starts at the
    score of the row before it, and every row's change is its score minus
    its previousScore. *)
Theorem recalculated_history_is_a_chain MAX_SCORE now leadId w w' r :
  recalculateLeadScore MAX_SCORE now leadId w = (w', Return r) ->
  chained 0 (filter (of_lead leadId) (scoreHistory w')).
Proof.
  intros Hrun. apply recalculateLeadScore_ledger in Hrun.
  destruct Hrun as (lead & _ & Hrows & _). simpl in *.
  rewrite Hrows. apply chained_replayed.
Qed.

(** X9. After a recalculation the lead has one ScoreHistory row for each of
    its processed events whose type has an active rule, while
    eventsProcessed counts all its processed events: events of a type
    without an active rule are counted but leave no row. *)
Theorem recalculation_writes_a_row_per_ruled_event MAX_SCORE now leadId w w' r :
  recalculateLeadScore MAX_SCORE now leadId w = (w', Return r) ->
  List.length (filter (of_lead leadId) (scoreHistory w'))
  = List.length (filter (has_active_rule (scoringRules w))
                   (processed_events_of leadId (events w))) /\
  r_eventsProcessed r = List.length (processed_events_of leadId (events w)).
Proof.
  intros Hrun. apply recalculateLeadScore_ledger in Hrun.
  destruct Hrun as (lead & _ & Hrows & _ & Hr & _). simpl in *.
  split.
  - rewrite Hrows, length_map, replayed_length. apply filter_sort_by_timestamp.
  - rewrite Hr. simpl. apply sort_by_timestamp_length.
Qed.

(** X10. When no active rule has negative points and MAX is not negative,
    the recalculated score is the sum of the points of the lead's processed
    events that have an active rule, capped at MAX; the order of the events
    plays no part. *)
Theorem recalculated_score_is_the_capped_sum MAX_SCORE now leadId w w' r :
  0 <= MAX_SCORE ->
  (forall rule, In rule (scoringRules w) -> ScoringRule.active rule = true ->
                0 <= ScoringRule.points rule) ->
  recalculateLeadScore MAX_SCORE now leadId w = (w', Return r) ->
  r_newScore r
  = Z.min MAX_SCORE (total_points (scoringRules w) (processed_events_of leadId (events w))).
Proof.
  intros Hmax Hpos Hrun. apply recalculateLeadScore_ledger in Hrun.
  destruct Hrun as (lead & _ & _ & _ & Hr & _). simpl in *.
  rewrite Hr. simpl.
  rewrite final_score_nonneg_rules by (try assumption; lia).
  rewrite total_points_sort. reflexivity.
Qed.

(** * Beyond the claims: replaying every lead *)

Lemma replace_lead_ids x l : map Lead._id (replace_lead x l) = map Lead._id l.
Proof.
  unfold replace_lead. rewrite map_map. apply map_ext_in. intros y _.
  destruct (String.eqb (Lead._id y) (Lead._id x)) eqn:E; [|reflexivity].
  apply String.eqb_eq in E. congruence.
Qed.

Lemma find_lead_In id l : In id (map Lead._id l) -> exists x, find_lead id l = Some x.
Proof.
  unfold find_lead. induction l as [|y t IH]; simpl; [contradiction|].
  intros [H|H].
  - subst id. rewrite String.eqb_refl. eauto.
  - destruct (String.eqb (Lead._id y) id); eauto.
Qed.

Lemma consistent_for_incl ids ids' w :
  (forall id, In id ids' -> In id ids) -> consistent_for ids w -> consistent_for ids' w.
Proof. intros Hincl H l Hl Hid. apply H; auto. Qed.

Section ReplayAll.

Variable MAX_SCORE : Z.

Lemma recalculateLeadScore_step now leadId w w' r :
  recalculateLeadScore MAX_SCORE now leadId w = (w', Return r) ->
  map Lead._id (leads w') = map Lead._id (leads w) /\
  forall ids, consistent_for ids w -> consistent_for (leadId :: ids) w'.
Proof.
  intros Hrun.
  destruct (recalculateLeadScore_ledger MAX_SCORE now leadId w w' r Hrun)
    as (lead & Hl & Hrows & Hlead' & _).
  simpl in Hrows, Hlead'.
  apply recalculateLeadScore_returned in Hrun. destruct Hrun as (lead0 & Hl0 & Hs & _).
  rewrite Hl in Hl0. injection Hl0 as <-.
  simpl in Hs. apply same_store_fields in Hs. destruct Hs as (El & _ & Eh & _).
  simpl in El, Eh.
  pose proof (find_lead_id _ _ _ Hl) as Hid.
  split.
  { rewrite El. apply replace_lead_ids. }
  intros ids Hc l Hin Hids.
  rewrite El in Hin. unfold replace_lead in Hin. apply in_map_iff in Hin.
  destruct Hin as (y & Hy & Hyin). simpl in Hy.
  destruct (String.eqb (Lead._id y) (Lead._id lead)) eqn:E.
  - subst l. simpl. rewrite Hid. unfold ledger_score. rewrite Hrows.
    rewrite ledger_score_new; [reflexivity|].
    apply replayed_ascending, sort_by_timestamp_ascending.
  - subst l. apply String.eqb_neq in E. rewrite Hid in E.
    destruct Hids as [Hids|Hids]; [congruence|].
    unfold ledger_score. rewrite Eh.
    rewrite filter_app, filter_of_lead_other by assumption.
    rewrite (filter_of_lead_new_other now (Lead._id y) leadId) by
      (try assumption; apply replayed_leadId).
    rewrite app_nil_r. apply (Hc y Hyin Hids).
Qed.

Lemma replay_all_loop_returned clock ls : forall i results w w' res,
  replay_all_loop MAX_SCORE clock i ls results w = (w', Return res) ->
  map Lead._id (leads w') = map Lead._id (leads w) /\
  (forall ids, consistent_for ids w -> consistent_for (map Lead._id ls ++ ids) w') /\
  List.length res = (List.length results + List.length ls)%nat.
Proof.
  induction ls as [|lead rest IH]; intros i results w w' res Hrun; simpl in Hrun.
  - injection Hrun as <- <-. simpl.
    split; [reflexivity|]. split; [auto | lia].
  - unfold bind in Hrun.
    destruct (recalculateLeadScore MAX_SCORE (clock i) (Lead._id lead) w)
      as [w1 [r1|e]] eqn:Hrec;
      [|discriminate].
    apply recalculateLeadScore_step in Hrec. destruct Hrec as [Hids1 Hc1].
    apply IH in Hrun. destruct Hrun as (Hids & Hc & Hlen).
    split; [congruence|]. split.
    + intros ids Hcons.
      eapply consistent_for_incl; [|apply (Hc (Lead._id lead :: ids)), Hc1, Hcons].
      intros id Hid. simpl in Hid. apply in_or_app.
      destruct Hid as [Hid|Hid]; [right; left; exact Hid|].
      apply in_app_or in Hid. destruct Hid; [left | right; right]; assumption.
    + rewrite Hlen, length_app. simpl. lia.
Qed.

Lemma replay_all_loop_fault_free clock ls : forall i results w,
  faults w = None ->
  (forall lead, In lead ls -> In (Lead._id lead) (map Lead._id (leads w))) ->
  exists w' res, replay_all_loop MAX_SCORE clock i ls results w = (w', Return res).
Proof.
  induction ls as [|lead rest IH]; intros i results w Hf Hin; simpl.
  - exists w, results. reflexivity.
  - destruct (find_lead_In (Lead._id lead) (leads w) (Hin lead (or_introl eq_refl)))
      as [x Hx].
    unfold bind.
    rewrite (recalculateLeadScore_fault_free MAX_SCORE (clock i) (Lead._id lead) w x Hf Hx).
    apply IH.
    + exact Hf.
    + intros l Hl. simpl. rewrite replace_lead_ids. apply Hin. right. exact Hl.
Qed.

End ReplayAll.

(** X11. The replay route recalculates every lead in turn.  When it
    returns, every lead's [currentScore] is the score of its greatest
    ledger entry (0 without entries), whatever the scores were before,
    and there is one result row per lead; without failing store calls it
    returns. *)
Theorem replay_all_puts_every_lead_in_step MAX_SCORE clock w :
  (forall w' resp,
     replay_all MAX_SCORE clock w = (w', Return resp) ->
     ledger_consistent w' /\
     List.length (p_results resp) = List.length (leads w) /\
     map Lead._id (leads w') = map Lead._id (leads w)) /\
  (faults w = None ->
   exists w' resp, replay_all MAX_SCORE clock w = (w', Return resp)).
Proof.
  split.
  - intros w' resp Hrun. unfold replay_all, Lead_find_all, bind in Hrun.
    destruct (await_cases (query (fun w => leads w)) w) as [E|[n E]];
      rewrite E in Hrun; [discriminate|]. simpl in Hrun.
    destruct (replay_all_loop MAX_SCORE clock 0 (leads w) [] (set_faults n w))
      as [w1 [res|e]] eqn:Hloop; [|discriminate].
    injection Hrun as <- <-.
    apply replay_all_loop_returned in Hloop. destruct Hloop as (Hids & Hc & Hlen).
    simpl in Hids, Hlen.
    split; [|split; [exact Hlen | exact Hids]].
    intros l Hl.
    apply (Hc [] (fun l0 _ Hno => match Hno with end) l Hl).
    rewrite app_nil_r, <- Hids. apply in_map, Hl.
  - intros Hf. unfold replay_all, Lead_find_all.
    rewrite bind_await_query by assumption.
    destruct (replay_all_loop_fault_free MAX_SCORE clock (leads w) 0%nat [] w Hf)
      as (w' & res & Hloop).
    { intros lead Hl. apply in_map, Hl. }
    unfold bind. rewrite Hloop. unfold ret. eauto.
Qed.

(** * Beyond the claims: deleting a lead *)

Lemma remove_lead_none id l : find_lead id l = None -> remove_lead id l = l.
Proof.
  unfold find_lead. induction l as [|x t IH]; simpl; [reflexivity|].
  destruct (String.eqb (Lead._id x) id); [discriminate|].
  intros H. rewrite IH by assumption. reflexivity.
Qed.

Lemma remove_lead_In id l x : In x (remove_lead id l) -> In x l.
Proof.
  induction l as [|y t IH]; simpl; [auto|].
  destruct (String.eqb (Lead._id y) id); simpl; [auto|].
  intros [H|H]; auto.
Qed.

Lemma remove_lead_gone id l :
  NoDup (map Lead._id l) -> forall x, In x (remove_lead id l) -> Lead._id x <> id.
Proof.
  induction l as [|y t IH]; simpl; intros Hnd x Hin; [contradiction|].
  inversion Hnd as [|? ? Hy Ht]; subst.
  destruct (String.eqb (Lead._id y) id) eqn:E.
  - apply String.eqb_eq in E. intros Hx. apply Hy. rewrite E, <- Hx.
    apply in_map, Hin.
  - destruct Hin as [<-|Hin]; [apply String.eqb_neq, E | apply IH; assumption].
Qed.

Lemma remove_lead_other id other l :
  other <> id -> find_lead other (remove_lead id l) = find_lead other l.
Proof.
  unfold find_lead. intros Hne. induction l as [|y t IH]; simpl; [reflexivity|].
  destruct (String.eqb (Lead._id y) id) eqn:E; simpl.
  - apply String.eqb_eq in E.
    destruct (String.eqb (Lead._id y) other) eqn:E2; [|reflexivity].
    apply String.eqb_eq in E2. congruence.
  - rewrite IH. reflexivity.
Qed.

Lemma find_lead_none_iff id l :
  (forall x, In x l -> Lead._id x <> id) -> find_lead id l = None.
Proof.
  unfold find_lead. induction l as [|y t IH]; simpl; intros H; [reflexivity|].
  destruct (String.eqb (Lead._id y) id) eqn:E.
  - apply String.eqb_eq in E. exfalso. apply (H y); auto.
  - apply IH. intros x Hx. apply H. auto.
Qed.

Lemma delete_lead_fault_free id w :
  faults w = None ->
  delete_lead id w =
    match find_lead id (leads w) with
    | None => (set_leads (remove_lead id (leads w)) w, Return LeadNotFound404)
    | Some lead =>
        (deleted id
           (set_events (filter (fun e => negb (String.eqb (Event.leadId e) id)) (events w))
              (set_leads (remove_lead id (leads w)) w)),
         Return (LeadDeleted (Lead.name lead)))
    end.
Proof.
  intros Hf. unfold delete_lead, Lead_findByIdAndDelete, bind at 1, await.
  rewrite Hf. simpl.
  destruct (find_lead id (leads w)) as [lead|]; [|reflexivity].
  unfold Event_deleteMany, ScoreHistory_deleteMany.
  rewrite bind_await_update by (simpl; assumption).
  rewrite bind_await_update by (simpl; assumption).
  reflexivity.
Qed.

(** X12. The delete route, without failing store calls and with leads that
    have distinct ids.  For an id that no lead carries nothing changes and
    the answer is not the success message.  For a known lead it removes the
    lead, all its events and all its ScoreHistory rows and leaves every
    other lead, event and row as it was; scores stay in step with the
    ledgers; and afterwards an event sent for the deleted lead fails with
    the lead-not-found error of [processEvent], a recalculation of it with
    that of [recalculateLeadScore], neither changing anything. *)
Theorem delete_lead_removes_the_lead_and_its_ledger MAX_SCORE id w :
  faults w = None ->
  NoDup (map Lead._id (leads w)) ->
  let w' := fst (delete_lead id w) in
  (find_lead id (leads w) = None ->
   w' = w /\ forall name, snd (delete_lead id w) <> Return (LeadDeleted name)) /\
  (forall lead, find_lead id (leads w) = Some lead ->
     snd (delete_lead id w) = Return (LeadDeleted (Lead.name lead)) /\
     find_lead id (leads w') = None /\
     filter (fun e => String.eqb (Event.leadId e) id) (events w') = [] /\
     filter (of_lead id) (scoreHistory w') = [] /\
     (forall other, other <> id ->
        find_lead other (leads w') = find_lead other (leads w) /\
        filter (fun e => String.eqb (Event.leadId e) other) (events w')
        = filter (fun e => String.eqb (Event.leadId e) other) (events w) /\
        filter (of_lead other) (scoreHistory w') = filter (of_lead other) (scoreHistory w)) /\
     (ledger_consistent w -> ledger_consistent w') /\
     (forall now eventData,
        d_leadId eventData = id ->
        already_processed (d_eventId eventData) w' = false ->
        processEvent MAX_SCORE now eventData w'
        = (w', Throw (Error ("Lead " ++ id ++ " not found")))) /\
     (forall now,
        recalculateLeadScore MAX_SCORE now id w' = (w', Throw (Error "Lead not found")))).
Proof.
  intros Hf Hnd w'. subst w'. rewrite (delete_lead_fault_free id w Hf).
  split.
  - intros Hnone. rewrite Hnone, remove_lead_none by assumption.
    split; [destruct w; reflexivity|]. intros name. discriminate.
  - intros lead Hl. rewrite Hl. simpl.
    assert (Hgone : find_lead id (remove_lead id (leads w)) = None).
    { apply find_lead_none_iff. apply remove_lead_gone. exact Hnd. }
    split; [reflexivity|]. split; [exact Hgone|].
    split.
    { induction (events w) as [|e t IH]; simpl; [reflexivity|].
      destruct (String.eqb (Event.leadId e) id) eqn:E; simpl; [exact IH|].
      rewrite E. exact IH. }
    split; [apply filter_of_lead_deleted|].
    split.
    { intros other Hne. split; [apply remove_lead_other; exact Hne|]. split.
      - induction (events w) as [|e t IH]; simpl; [reflexivity|].
        destruct (String.eqb (Event.leadId e) id) eqn:E; simpl.
        + apply String.eqb_eq in E.
          destruct (String.eqb (Event.leadId e) other) eqn:E2; [|exact IH].
          apply String.eqb_eq in E2. congruence.
        + rewrite IH. reflexivity.
      - apply filter_of_lead_other. exact Hne. }
    split.
    { intros Hc l Hin. simpl.
      pose proof (remove_lead_gone id (leads w) Hnd l Hin) as Hne.
      unfold ledger_score. rewrite filter_of_lead_other by exact Hne.
      apply Hc. eapply remove_lead_In. exact Hin. }
    split.
    { intros now eventData Hid Hdup. subst id.
      apply processEvent_unknown_lead; [exact Hf | exact Hdup | exact Hgone]. }
    intros now. apply recalculateLeadScore_unknown_lead; [exact Hf | exact Hgone].
Qed.

(** * Beyond the claims: the default rules *)

Lemma set_scoringRules_same w : set_scoringRules (scoringRules w) w = w.
Proof. destruct w; reflexivity. Qed.

Lemma upsert_all_fault_free rules : forall w,
  faults w = None ->
  upsert_all rules w =
    (set_scoringRules
       (fold_left (fun acc r => upsert_rule (fst (fst r)) (snd (fst r)) (snd r) acc)
          rules (scoringRules w)) w,
     Return tt).
Proof.
  induction rules as [|[[t p] d] rest IH]; intros w Hf; simpl.
  - unfold ret. rewrite set_scoringRules_same. reflexivity.
  - unfold ScoringRule_findOneAndUpdate.
    rewrite bind_await_update by assumption.
    rewrite IH by (simpl; assumption). reflexivity.
Qed.

Lemma find_rule_upsert_same t p d l :
  find_rule t (upsert_rule t p d l) =
  Some (ScoringRule.make t p
          (match find_rule t l with Some r => ScoringRule.active r | None => true end)
          (Some d)).
Proof.
  unfold find_rule. induction l as [|r rest IH]; simpl.
  - rewrite String.eqb_refl. reflexivity.
  - destruct (String.eqb (ScoringRule.eventType r) t) eqn:E; simpl.
    + rewrite String.eqb_refl. reflexivity.
    + rewrite E. exact IH.
Qed.

Lemma find_rule_upsert_other t t' p d l :
  t' <> t -> find_rule t' (upsert_rule t p d l) = find_rule t' l.
Proof.
  unfold find_rule. intros Hne. induction l as [|r rest IH]; simpl.
  - destruct (String.eqb t t') eqn:E; [|reflexivity].
    apply String.eqb_eq in E. congruence.
  - destruct (String.eqb (ScoringRule.eventType r) t) eqn:E; simpl.
    + apply String.eqb_eq in E.
      destruct (String.eqb t t') eqn:E1; [apply String.eqb_eq in E1; congruence|].
      destruct (String.eqb (ScoringRule.eventType r) t') eqn:E2; [|reflexivity].
      apply String.eqb_eq in E2. congruence.
    + destruct (String.eqb (ScoringRule.eventType r) t'); [reflexivity | exact IH].
Qed.

Lemma upsert_rule_fixed t p d l r :
  find_rule t l = Some r ->
  ScoringRule.points r = p -> ScoringRule.description r = Some d ->
  upsert_rule t p d l = l.
Proof.
  unfold find_rule. intros Hfind Hp Hd.
  induction l as [|x rest IH]; simpl in *; [discriminate|].
  destruct (String.eqb (ScoringRule.eventType x) t) eqn:E.
  - injection Hfind as ->. apply String.eqb_eq in E.
    destruct r; simpl in *; subst. reflexivity.
  - rewrite IH by assumption. reflexivity.
Qed.

Lemma default_rule_installed l t p d :
  In (t, p, d) defaultRules ->
  find_rule t (with_default_rules l) =
  Some (ScoringRule.make t p
          (match find_rule t l with Some r => ScoringRule.active r | None => true end)
          (Some d)).
Proof.
  unfold with_default_rules. simpl.
  intros [H|[H|[H|[H|[H|[]]]]]]; injection H as <- <- <-;
    repeat (rewrite find_rule_upsert_other by discriminate);
    rewrite find_rule_upsert_same;
    repeat (rewrite find_rule_upsert_other by discriminate);
    reflexivity.
Qed.

Lemma other_rules_kept l t :
  ~ In t (map (fun r => fst (fst r)) defaultRules) ->
  find_rule t (with_default_rules l) = find_rule t l.
Proof.
  unfold with_default_rules. simpl. intros Hno.
  repeat (rewrite find_rule_upsert_other by (intros ->; apply Hno; auto 10)).
  reflexivity.
Qed.

Lemma upserts_fixed rules : forall l,
  (forall t p d, In (t, p, d) rules ->
     exists r, find_rule t l = Some r /\
               ScoringRule.points r = p /\ ScoringRule.description r = Some d) ->
  fold_left (fun acc r => upsert_rule (fst (fst r)) (snd (fst r)) (snd r) acc) rules l = l.
Proof.
  induction rules as [|[[t p] d] rest IH]; intros l H; simpl; [reflexivity|].
  destruct (H t p d (or_introl eq_refl)) as (r & Hr & Hp & Hd).
  rewrite (upsert_rule_fixed t p d l r Hr Hp Hd).
  apply IH. intros t' p' d' Hin. apply H. right. exact Hin.
Qed.

(** X13. Without failing store calls [initializeScoringRules] leaves, for
    each of the five default event types, a rule with the default points
    and description: points edited before are overwritten, while a rule
    that existed keeps its [active] flag, also when it was switched off.
    Rules of other types and all other collections are untouched. *)
Theorem initializeScoringRules_installs_the_defaults w :
  faults w = None ->
  let w' := fst (initializeScoringRules w) in
  snd (initializeScoringRules w) = Return tt /\
  (forall t p d, In (t, p, d) defaultRules ->
     exists r, find_rule t (scoringRules w') = Some r /\
               ScoringRule.points r = p /\
               ScoringRule.description r = Some d /\
               (forall r0, find_rule t (scoringRules w) = Some r0 ->
                           ScoringRule.active r = ScoringRule.active r0)) /\
  (forall t, ~ In t (map (fun r => fst (fst r)) defaultRules) ->
     find_rule t (scoringRules w') = find_rule t (scoringRules w)) /\
  leads w' = leads w /\ events w' = events w /\ scoreHistory w' = scoreHistory w.
Proof.
  intros Hf w'. subst w'. unfold initializeScoringRules.
  rewrite (upsert_all_fault_free defaultRules w Hf). cbn [fst snd].
  split; [reflexivity|]. split.
  - intros t p d Hin. eexists. split.
    + apply (default_rule_installed (scoringRules w) t p d Hin).
    + simpl. repeat split. intros r0 Hr0. rewrite Hr0. reflexivity.
  - split; [|repeat split].
    intros t Hno. apply (other_rules_kept (scoringRules w) t Hno).
Qed.

(** X14. Running [initializeScoringRules] a second time changes nothing:
    without failing store calls the world after two runs is the world
    after one. *)
Theorem initializeScoringRules_twice w :
  faults w = None ->
  fst (initializeScoringRules (fst (initializeScoringRules w)))
  = fst (initializeScoringRules w).
Proof.
  intros Hf. unfold initializeScoringRules.
  rewrite (upsert_all_fault_free defaultRules w Hf). cbn [fst].
  set (w1 := set_scoringRules _ w).
  assert (Hf1 : faults w1 = None) by exact Hf.
  rewrite (upsert_all_fault_free defaultRules w1 Hf1). cbn [fst].
  rewrite upserts_fixed; [apply set_scoringRules_same|].
  intros t p d Hin. eexists. split.
  - apply (default_rule_installed (scoringRules w) t p d Hin).
  - split; reflexivity.
Qed.

(** * Beyond the claims: the notifier *)

Lemma same_data_refl w : same_data w w.
Proof. unfold same_data. auto. Qed.

Lemma deaf_ret {A} (a : A) : deaf (ret a).
Proof. intros x y H. split; [exact H | reflexivity]. Qed.

Lemma deaf_throw {A} e : deaf (@throw A e).
Proof. intros x y H. split; [exact H | reflexivity]. Qed.

Lemma deaf_bind {A B} (m : M A) (f : A -> M B) :
  deaf m -> (forall a, deaf (f a)) -> deaf (bind m f).
Proof.
  intros Hm Hf x y H. unfold bind.
  destruct (Hm x y H) as [Hw Hc].
  destruct (m x) as [x1 cx], (m y) as [y1 cy]. simpl in *. subst cy.
  destruct cx as [a|e].
  - apply Hf, Hw.
  - split; [exact Hw | reflexivity].
Qed.

Lemma deaf_query {A} (q : World -> A) :
  (forall a b, same_data a b -> q a = q b) ->
  (forall n w, q (set_faults n w) = q w) ->
  deaf (await (query q)).
Proof.
  intros Hq Hn x y H. unfold await, query.
  pose proof H as (_ & _ & _ & _ & Hf). rewrite Hf.
  destruct (faults y) as [[|k]|]; simpl.
  - split; [exact H | reflexivity].
  - rewrite !Hn, (Hq x y H). split; [|reflexivity].
    unfold same_data in *. simpl. tauto.
  - rewrite (Hq x y H). split; [exact H | reflexivity].
Qed.

Lemma deaf_update (u : World -> World) :
  (forall a b, same_data a b -> same_data (u a) (u b)) ->
  deaf (await (update u)).
Proof.
  intros Hu x y H. unfold await, update.
  pose proof H as (_ & _ & _ & _ & Hf). rewrite Hf.
  destruct (faults y) as [[|k]|]; simpl.
  - split; [exact H | reflexivity].
  - split; [|reflexivity]. apply Hu. unfold same_data in *. simpl. tauto.
  - split; [|reflexivity]. apply Hu, H.
Qed.

Lemma deaf_emitScoreUpdate data : deaf (emitScoreUpdate data).
Proof.
  intros x y H. unfold emitScoreUpdate.
  destruct (io x), (io y); simpl; (split; [exact H | reflexivity]).
Qed.

Ltac deaf_call :=
  first [ apply deaf_query;
          [ intros ? ? (? & ? & ? & ? & ?); simpl; congruence | reflexivity ]
        | apply deaf_update;
          intros ? ? (? & ? & ? & ? & ?); unfold same_data; simpl;
          repeat split; congruence ].

Section Deaf.

Variable MAX_SCORE : Z.

Lemma deaf_replay leadId evs : forall totalScore newHistory,
  deaf (replay MAX_SCORE leadId evs totalScore newHistory).
Proof.
  induction evs as [|e rest IH]; intros totalScore newHistory; simpl.
  - apply deaf_ret.
  - apply deaf_bind; [unfold ScoringRule_findOne; deaf_call|].
    intros [rule|]; apply IH.
Qed.

Lemma deaf_recalculateLeadScore now leadId :
  deaf (recalculateLeadScore MAX_SCORE now leadId).
Proof.
  unfold recalculateLeadScore.
  apply deaf_bind; [unfold Lead_findById; deaf_call|].
  intros [lead|]; [|apply deaf_throw].
  apply deaf_bind; [unfold Event_find_processed; deaf_call|]. intros evs.
  apply deaf_bind; [apply deaf_replay|]. intros r.
  apply deaf_bind; [unfold ScoreHistory_deleteMany; deaf_call|]. intros _.
  apply deaf_bind.
  { destruct (0 <? List.length (snd r))%nat;
      [unfold ScoreHistory_insertMany; deaf_call | apply deaf_ret]. }
  intros _.
  apply deaf_bind; [unfold Lead_save; deaf_call|]. intros _.
  apply deaf_ret.
Qed.

Lemma deaf_processEvent now eventData : deaf (processEvent MAX_SCORE now eventData).
Proof.
  unfold processEvent.
  apply deaf_bind; [unfold Event_findOne; deaf_call|]. intros existingEvent.
  destruct (match existingEvent with Some e => Event.processed e | None => false end);
    [apply deaf_ret|].
  apply deaf_bind; [unfold Lead_findById; deaf_call|].
  intros [lead|]; [|apply deaf_throw].
  apply deaf_bind; [unfold ScoringRule_findOne; deaf_call|].
  intros [rule|]; [|apply deaf_throw].
  apply deaf_bind.
  { destruct existingEvent as [e|]; [apply deaf_ret|].
    apply deaf_bind; [unfold Event_insert; deaf_call|]. intros _. apply deaf_ret. }
  intros event.
  apply deaf_bind; [unfold ScoreHistory_findLatest; deaf_call|]. intros latestHistory.
  destruct (isOutOfOrder latestHistory (Event.timestamp event)).
  - apply deaf_bind; [unfold Event_save; deaf_call|]. intros _.
    apply deaf_bind; [apply deaf_recalculateLeadScore|]. intros r.
    apply deaf_bind; [apply deaf_emitScoreUpdate|]. intros _.
    apply deaf_ret.
  - apply deaf_bind; [unfold Lead_save; deaf_call|]. intros _.
    apply deaf_bind; [apply deaf_throw|]. intros change.
    apply deaf_bind; [unfold ScoreHistory_save; deaf_call|]. intros _.
    apply deaf_bind; [unfold Event_save; deaf_call|]. intros _.
    apply deaf_bind; [apply deaf_emitScoreUpdate|]. intros _.
    apply deaf_ret.
Qed.

End Deaf.

(** X15. Notifications are fire and forget: what [processEvent] and
    [recalculateLeadScore] return and what they leave in the four
    collections does not depend on whether the socket server is up nor on
    the messages sent so far, for every event and every failing store
    call. *)
Theorem engine_does_not_depend_on_the_notifier MAX_SCORE now a b :
  same_data a b ->
  (forall eventData,
     same_data (fst (processEvent MAX_SCORE now eventData a))
               (fst (processEvent MAX_SCORE now eventData b)) /\
     snd (processEvent MAX_SCORE now eventData a)
     = snd (processEvent MAX_SCORE now eventData b)) /\
  (forall leadId,
     same_data (fst (recalculateLeadScore MAX_SCORE now leadId a))
               (fst (recalculateLeadScore MAX_SCORE now leadId b)) /\
     snd (recalculateLeadScore MAX_SCORE now leadId a)
     = snd (recalculateLeadScore MAX_SCORE now leadId b)).
Proof.
  intros H. split.
  - intros eventData. apply deaf_processEvent, H.
  - intros leadId. apply deaf_recalculateLeadScore, H.
Qed.

Section Announcements.

Variable MAX_SCORE : Z.

Lemma recalculateLeadScore_quiet now leadId E b :
  hoare (fun w => emitted w = E /\ io w = b)
    (recalculateLeadScore MAX_SCORE now leadId)
    (fun _ w => emitted w = E /\ io w = b).
Proof.
  intros w [HE Hb].
  pose proof (recalculateLeadScore_triple MAX_SCORE now leadId w w (same_store_refl w)) as H.
  simpl in H.
  assert (Hs : forall x, same_store (fst (recalculateLeadScore MAX_SCORE now leadId w)) x ->
                         emitted x = emitted w -> io x = io w ->
                         emitted (fst (recalculateLeadScore MAX_SCORE now leadId w)) = E /\
                         io (fst (recalculateLeadScore MAX_SCORE now leadId w)) = b).
  { intros x Hx H1 H2. apply same_store_fields in Hx.
    destruct Hx as (_ & _ & _ & _ & Hio & Hem). split; congruence. }
  destruct (find_lead leadId (leads w)) as [lead|].
  - destruct (snd (recalculateLeadScore MAX_SCORE now leadId w)) as [r|e].
    + destruct H as [H _]. apply (Hs _ H); reflexivity.
    + destruct H as [H|[H|H]]; apply (Hs _ H); reflexivity.
  - destruct H as [H _]. apply (Hs _ H); reflexivity.
Qed.

Lemma processEvent_announces now eventData E b :
  hoare (fun w => emitted w = E /\ io w = b)
    (processEvent MAX_SCORE now eventData)
    (fun c w => announced b E (emitted w) c /\ io w = b).
Proof.
  set (P := fun w => emitted w = E /\ io w = b).
  assert (HP : stable P) by (intros n w H; exact H).
  assert (Hthrow : forall e w, P w ->
            announced b E (emitted w) (@Throw ProcessResult e) /\ io w = b).
  { intros e w [H1 H2]. split; [exact H1 | exact H2]. }
  unfold processEvent, Event_findOne. apply hoare_query.
  { exact HP. } { reflexivity. } { intros w Hw. exact (Hthrow _ w Hw). }
  intros existingEvent.
  eapply hoare_weaken with (P' := P);
    [| intros w Hw; exact (proj1 Hw) | intros c w Hc; exact Hc].
  destruct (match existingEvent with Some e => Event.processed e | None => false end).
  { apply hoare_ret. intros w [H1 H2]. split; [exact H1 | exact H2]. }
  unfold Lead_findById. apply hoare_query.
  { exact HP. } { reflexivity. } { intros w Hw. exact (Hthrow _ w Hw). }
  intros [lead|].
  2:{ apply hoare_throw. intros w [Hw _]. exact (Hthrow _ w Hw). }
  eapply hoare_weaken with (P' := P);
    [| intros w Hw; exact (proj1 Hw) | intros c w Hc; exact Hc].
  unfold ScoringRule_findOne. apply hoare_query.
  { exact HP. } { reflexivity. } { intros w Hw. exact (Hthrow _ w Hw). }
  intros [rule|].
  2:{ apply hoare_throw. intros w [Hw _]. exact (Hthrow _ w Hw). }
  eapply hoare_weaken with (P' := P);
    [| intros w Hw; exact (proj1 Hw) | intros c w Hc; exact Hc].
  eapply hoare_bind with (R := fun _ w => P w).
  { destruct existingEvent as [e|].
    - apply hoare_ret. intros w Hw. exact Hw.
    - unfold Event_insert. apply hoare_update with (P' := P).
      + intros w Hw. exact (Hthrow _ w Hw).
      + intros n w Hw. exact Hw.
      + apply hoare_ret. intros w Hw. exact Hw. }
  intros event. unfold ScoreHistory_findLatest. apply hoare_query.
  { exact HP. } { reflexivity. } { intros w Hw. exact (Hthrow _ w Hw). }
  intros latestHistory.
  eapply hoare_weaken with (P' := P);
    [| intros w Hw; exact (proj1 Hw) | intros c w Hc; exact Hc].
  destruct (isOutOfOrder latestHistory (Event.timestamp event)).
  - unfold Event_save. apply hoare_update with (P' := P).
    + intros w Hw. exact (Hthrow _ w Hw).
    + intros n w Hw. exact Hw.
    + eapply hoare_bind with (R := fun _ w => P w).
      * eapply hoare_weaken; [apply (recalculateLeadScore_quiet now _ E b) | |].
        -- intros w Hw. exact Hw.
        -- intros c w Hw. destruct c; [exact Hw | exact (Hthrow _ w Hw)].
      * intros r w [H1 H2]. unfold bind, emitScoreUpdate, ret.
        rewrite H2. destruct b; simpl.
        -- split; [|exact H2]. eexists. rewrite H1. repeat split.
        -- split; [exact H1 | exact H2].
  - unfold Lead_save. apply hoare_update with (P' := P).
    + intros w Hw. exact (Hthrow _ w Hw).
    + intros n w Hw. exact Hw.
    + unfold unbound. intros w Hw. exact (Hthrow (ReferenceError "change") w Hw).
Qed.

End Announcements.

(** X16. [processEvent] notifies only when it returns an out-of-order
    result and the socket server is up: it then sends one broadcast and one
    message to the room of the lead, both carrying the returned
    previousScore, newScore and change with outOfOrder true.  A duplicate
    and every failing call, at whichever step it fails, send nothing. *)
Theorem processEvent_notifies_only_on_success MAX_SCORE now eventData w :
  announced (io w) (emitted w)
    (emitted (fst (processEvent MAX_SCORE now eventData w)))
    (snd (processEvent MAX_SCORE now eventData w)) /\
  io (fst (processEvent MAX_SCORE now eventData w)) = io w.
Proof.
  apply (processEvent_announces MAX_SCORE now eventData (emitted w) (io w) w).
  split; reflexivity.
Qed.

(** * Beyond the claims: priorities and request validation *)

(** X17. Every event type the validators accept has a default rule and a
    numeric queue priority between 1 and 5; among these types a higher
    default score means a more urgent (smaller) priority; a type that is
    neither in the table nor a key every object inherits gets priority
    5. *)
Theorem priorities_follow_default_points :
  (forall t, In t validEventTypes ->
     exists q p d, getPriority t = Some q /\ 1 <= q <= 5 /\ In (t, p, d) defaultRules) /\
  (forall t1 p1 d1 q1 t2 p2 d2 q2,
     In (t1, p1, d1) defaultRules -> In (t2, p2, d2) defaultRules ->
     getPriority t1 = Some q1 -> getPriority t2 = Some q2 ->
     (p1 < p2 <-> q2 < q1)) /\
  (forall t, assoc t priorities = None -> ~ In t inherited_keys ->
     getPriority t = Some 5).
Proof.
  split; [|split].
  - intros t Ht. simpl in Ht.
    repeat (destruct Ht as [<-|Ht]; [do 3 eexists; split; [vm_compute; reflexivity|];
                                     split; [lia | simpl; eauto 10]|]).
    contradiction.
  - intros t1 p1 d1 q1 t2 p2 d2 q2 H1 H2 Hq1 Hq2. simpl in H1, H2.
    repeat (destruct H1 as [H1|H1]; [injection H1 as <- <- <-|]); try contradiction;
      repeat (destruct H2 as [H2|H2]; [injection H2 as <- <- <-|]); try contradiction;
      vm_compute in Hq1, Hq2; injection Hq1 as <-; injection Hq2 as <-; lia.
  - intros t Hnone Hno. unfold getPriority. rewrite Hnone.
    destruct (existsb (String.eqb t) inherited_keys) eqn:E; [|reflexivity].
    apply existsb_exists in E. destruct E as (k & Hk & Hkt).
    apply String.eqb_eq in Hkt. subst k. contradiction.
Qed.

Lemma app_nil_both {A} (l l' : list A) : (l ++ l' = [] <-> l = [] /\ l' = [])%list.
Proof.
  split.
  - destruct l; simpl; [auto | discriminate].
  - intros [-> ->]. reflexivity.
Qed.

Lemma one_error_nil (c : bool) (x : string) : (if c then [x] else []) = [] <-> c = false.
Proof. destruct c; split; intros H; try reflexivity; discriminate. Qed.

Lemma required_string v :
  negb (truthy v) || negb (is_string v) = false <-> exists s, v = JString s /\ s <> "".
Proof.
  split.
  - destruct v as [| |b|n|s|items|fields]; simpl; intros H;
      rewrite ?orb_true_r in H; try discriminate.
    rewrite orb_false_r in H. apply negb_false_iff, negb_true_iff in H.
    exists s. split; [reflexivity|]. apply String.eqb_neq. exact H.
  - intros (s & -> & Hs). simpl. apply String.eqb_neq in Hs. rewrite Hs. reflexivity.
Qed.

Lemma includes_type_In v :
  includes_type v = true <-> exists t, v = JString t /\ In t validEventTypes.
Proof.
  split.
  - destruct v as [| |b|n|s|items|fields]; cbn [includes_type]; try discriminate.
    intros H. apply existsb_exists in H. destruct H as (t & Ht & He).
    apply String.eqb_eq in He. subst t. eauto.
  - intros (t & -> & Ht). cbn [includes_type]. apply existsb_exists. exists t.
    split; [exact Ht | apply String.eqb_refl].
Qed.

Lemma includes_type_truthy v : includes_type v = true -> truthy v = true.
Proof.
  intros H. apply includes_type_In in H. destruct H as (t & -> & Ht). simpl in *.
  repeat (destruct Ht as [<-|Ht]; [reflexivity|]). contradiction.
Qed.

Section ValidationFacts.

Variable ObjectId_isValid : JsValue -> bool.
Variable is_date : JsValue -> bool.

Lemma validateEvent_Next body :
  validateEvent ObjectId_isValid is_date body = Next <->
  validateEvent_errors ObjectId_isValid is_date body = [].
Proof.
  unfold validateEvent.
  destruct body as [| |b|n|s|items|fields]; simpl nullish; cbv iota;
    try (split; intros H; [discriminate | vm_compute in H; discriminate]);
    (destruct (validateEvent_errors ObjectId_isValid is_date _); simpl;
     split; intros H; try reflexivity; discriminate).
Qed.

Lemma batch_event_errors_nil index event :
  batch_event_errors ObjectId_isValid index event = [] <->
  batch_event_ok ObjectId_isValid event.
Proof.
  unfold batch_event_errors, batch_event_ok.
  rewrite !app_nil_both, !one_error_nil.
  rewrite negb_false_iff, !orb_false_iff, !negb_false_iff.
  split.
  - intros (H1 & (_ & H2) & H3 & H4). auto.
  - intros (H1 & H2 & H3 & H4). repeat split; auto.
    apply includes_type_truthy, H2.
Qed.

End ValidationFacts.

Section ValidationTheorems.

Variable ObjectId_isValid : JsValue -> bool.
Variable is_date : JsValue -> bool.

Lemma validateEvent_accepts body :
  validateEvent ObjectId_isValid is_date body = Next <->
  (exists s, field "eventId" body = JString s /\ s <> "") /\
  (exists t, field "eventType" body = JString t /\ In t validEventTypes) /\
  (exists l, field "leadId" body = JString l /\ l <> "" /\
             ObjectId_isValid (JString l) = true) /\
  (truthy (field "timestamp" body) = false \/ is_date (field "timestamp" body) = true).
Proof.
  rewrite validateEvent_Next. unfold validateEvent_errors. cbv zeta.
  rewrite !app_nil_both, !one_error_nil.
  rewrite !required_string.
  split.
  - intros (H1 & H2 & H3 & H4 & H5 & H6).
    split; [exact H1|]. split.
    { destruct H2 as (t & Ht & Hne). rewrite Ht in *.
      assert (Htr : truthy (JString t) = true).
      { simpl. apply String.eqb_neq in Hne. rewrite Hne. reflexivity. }
      rewrite Htr, andb_true_l in H3. apply negb_false_iff in H3.
      apply includes_type_In in H3. destruct H3 as (t' & Heq & Hin).
      injection Heq as <-. eauto. }
    split.
    { destruct H4 as (l & Hl & Hne). rewrite Hl in *.
      assert (Htr : truthy (JString l) = true).
      { simpl. apply String.eqb_neq in Hne. rewrite Hne. reflexivity. }
      rewrite Htr, andb_true_l in H5. apply negb_false_iff in H5. eauto. }
    destruct (truthy (field "timestamp" body)); [|auto].
    rewrite andb_true_l in H6. apply negb_false_iff in H6. auto.
  - intros (H1 & (t & Ht & Hin) & (l & Hl & Hne & Hv) & H6).
    split; [exact H1|].
    assert (Hinc : includes_type (field "eventType" body) = true).
    { apply includes_type_In. eauto. }
    split.
    { exists t. split; [exact Ht|]. pose proof (includes_type_truthy _ Hinc) as Htr.
      rewrite Ht in Htr. simpl in Htr. apply negb_true_iff, String.eqb_neq in Htr. exact Htr. }
    split; [rewrite Hinc; apply andb_false_r|].
    split; [eauto|].
    split; [rewrite Hl, Hv; apply andb_false_r|].
    destruct H6 as [H6|H6]; rewrite H6; [reflexivity | apply andb_false_r].
Qed.

Lemma batch_errors_nil events : forall index,
  batch_errors ObjectId_isValid index events = [] <->
  Forall (batch_event_ok ObjectId_isValid) events.
Proof.
  induction events as [|e rest IH]; intros index; simpl.
  - split; [constructor | reflexivity].
  - rewrite app_nil_both, batch_event_errors_nil, IH. split.
    + intros [H1 H2]. constructor; assumption.
    + intros H. inversion H; subst. auto.
Qed.


Lemma validateEvent_batch_event_ok body :
  validateEvent ObjectId_isValid is_date body = Next ->
  batch_event_ok ObjectId_isValid body.
Proof.
  intros H. apply validateEvent_accepts in H.
  destruct H as ((s & Hs & Hsne) & (t & Ht & Hin) & (l & Hl & Hlne & Hv) & _).
  unfold batch_event_ok. rewrite Hs, Ht, Hl. simpl truthy.
  apply String.eqb_neq in Hsne, Hlne. rewrite Hsne, Hlne.
  repeat split; try reflexivity; try assumption.
  apply includes_type_In. eauto.
Qed.

Lemma validateEvent_errors_length body :
  (List.length (validateEvent_errors ObjectId_isValid is_date body) <= 6)%nat.
Proof.
  unfold validateEvent_errors. cbv zeta. rewrite !length_app.
  repeat match goal with
         | |- context [if ?c then _ else _] => destruct c
         end; simpl; lia.
Qed.

(** X18. [validateEvent] lets a request through exactly when eventId is a
    non-empty string, eventType is one of the five event types, leadId is a
    non-empty string that is a valid ObjectId, and timestamp is either
    absent (or falsy) or a valid date.  Every other object body gets the
    400 answer with one to six error lines. *)
Theorem validateEvent_accepts_exactly body :
  (validateEvent ObjectId_isValid is_date body = Next <->
   (exists s, field "eventId" body = JString s /\ s <> "") /\
   (exists t, field "eventType" body = JString t /\ In t validEventTypes) /\
   (exists l, field "leadId" body = JString l /\ l <> "" /\
              ObjectId_isValid (JString l) = true) /\
   (truthy (field "timestamp" body) = false \/ is_date (field "timestamp" body) = true)) /\
  (nullish body = false ->
   validateEvent ObjectId_isValid is_date body <> Next ->
   exists details,
     validateEvent ObjectId_isValid is_date body
     = Status400 "Validation failed" details None /\
     (1 <= List.length details <= 6)%nat).
Proof.
  split; [apply validateEvent_accepts|].
  intros Hbody Hno. unfold validateEvent in *. rewrite Hbody in *.
  pose proof (validateEvent_errors_length body) as Hlen.
  destruct (validateEvent_errors ObjectId_isValid is_date body) as [|e rest] eqn:E.
  - exfalso. apply Hno. reflexivity.
  - exists (e :: rest). split; [reflexivity|]. simpl in *. lia.
Qed.

Lemma batch_event_ok_not_nullish events :
  Forall (batch_event_ok ObjectId_isValid) events -> existsb nullish events = false.
Proof.
  induction 1 as [|e rest He _ IH]; simpl; [reflexivity|].
  rewrite IH, orb_false_r.
  destruct He as [He _].
  destruct e as [| |b|n|s|items|fields]; try reflexivity; discriminate.
Qed.

(** X19. For a body that is an object, [validateBatchEvents] rejects an
    [events] that is not an array, an empty array, and an array of more
    than 1000 events whatever they contain.  For 1 to 1000 events it throws
    a TypeError when one of them is [null], and it passes exactly when
    every event has a truthy eventId, one of the five event types and a
    truthy leadId that is a valid ObjectId. *)
Theorem validateBatchEvents_limits body :
  nullish body = false ->
  ((forall events, field "events" body <> JArray events) ->
   validateBatchEvents ObjectId_isValid body
   = Status400 "events must be an array" [] None) /\
  (field "events" body = JArray [] ->
   validateBatchEvents ObjectId_isValid body
   = Status400 "events array cannot be empty" [] None) /\
  (forall events, field "events" body = JArray events ->
     (1000 < List.length events)%nat ->
     validateBatchEvents ObjectId_isValid body
     = Status400 "Maximum 1000 events allowed per batch" [] None) /\
  (forall events, field "events" body = JArray events ->
     (1 <= List.length events <= 1000)%nat ->
     (existsb nullish events = true ->
      validateBatchEvents ObjectId_isValid body = ThrowsTypeError) /\
     (validateBatchEvents ObjectId_isValid body = Next <->
      Forall (batch_event_ok ObjectId_isValid) events)).
Proof.
  intros Hbody. unfold validateBatchEvents. rewrite Hbody.
  split; [|split; [|split]].
  - intros Hno. destruct (field "events" body) as [| |b|n|s|items|fields];
      try reflexivity. exfalso. apply (Hno items). reflexivity.
  - intros H. rewrite H. reflexivity.
  - intros events H Hlen. rewrite H.
    destruct (List.length events =? 0)%nat eqn:E0; [apply Nat.eqb_eq in E0; lia|].
    apply Nat.ltb_lt in Hlen. rewrite Hlen. reflexivity.
  - intros events H Hlen. rewrite H.
    destruct (List.length events =? 0)%nat eqn:E0; [apply Nat.eqb_eq in E0; lia|].
    destruct (1000 <? List.length events)%nat eqn:E1; [apply Nat.ltb_lt in E1; lia|].
    split.
    + intros Hnull. rewrite Hnull. reflexivity.
    + destruct (existsb nullish events) eqn:Hnull.
      * split; [discriminate|]. intros Hok.
        rewrite (batch_event_ok_not_nullish events Hok) in Hnull. discriminate.
      * cbv zeta. rewrite <- (batch_errors_nil events 0%nat).
        destruct (batch_errors ObjectId_isValid 0 events); simpl;
          split; intros Hx; try reflexivity; discriminate.
Qed.

(** X20. The batch validator is no stricter than the single one: a batch
    of 1 to 1000 events, each of which [validateEvent] lets through on its
    own, passes [validateBatchEvents]. *)
Theorem validated_events_pass_as_a_batch events :
  (1 <= List.length events <= 1000)%nat ->
  Forall (fun e => validateEvent ObjectId_isValid is_date e = Next) events ->
  validateBatchEvents ObjectId_isValid (JObject [("events", JArray events)]) = Next.
Proof.
  intros Hlen Hall. unfold validateBatchEvents.
  change (nullish (JObject [("events", JArray events)])) with false.
  change (field "events" (JObject [("events", JArray events)])) with (JArray events).
  cbv iota.
  destruct (List.length events =? 0)%nat eqn:E0; [apply Nat.eqb_eq in E0; lia|].
  destruct (1000 <? List.length events)%nat eqn:E1; [apply Nat.ltb_lt in E1; lia|].
  assert (Hok : Forall (batch_event_ok ObjectId_isValid) events).
  { eapply Forall_impl; [|exact Hall].
    intros e He. apply validateEvent_batch_event_ok, He. }
  rewrite (batch_event_ok_not_nullish events Hok). cbv zeta.
  apply (batch_errors_nil events 0%nat) in Hok. rewrite Hok. reflexivity.
Qed.


End ValidationTheorems.

(** * Beyond the claims: guards and orders *)

Lemma processEvent_unknown_lead_any_budget MAX_SCORE now eventData w :
  already_processed (d_eventId eventData) w = false ->
  find_lead (d_leadId eventData) (leads w) = None ->
  exists w' e,
    processEvent MAX_SCORE now eventData w = (w', Throw e) /\
    same_store w' w /\
    (e = StoreError \/ e = Error ("Lead " ++ d_leadId eventData ++ " not found")).
Proof.
  intros Hdup Hl. unfold already_processed in Hdup.
  unfold processEvent. cbv zeta.
  unfold Event_findOne. unfold bind at 1.
  destruct (await_cases (query (fun w => find_event (d_eventId eventData) (events w))) w)
    as [H1|[n H1]]; rewrite H1.
  - exists w, StoreError.
    split; [reflexivity|]. split; [apply same_store_refl | left; reflexivity].
  - cbn [fst snd query events set_faults]. rewrite Hdup.
    unfold Lead_findById. unfold bind at 1.
    destruct (await_cases (query (fun w => find_lead (d_leadId eventData) (leads w)))
                (set_faults n w)) as [H2|[k H2]]; rewrite H2.
    + eexists _, StoreError.
      split; [reflexivity|]. split; [|left; reflexivity].
      unfold same_store. destruct w; reflexivity.
    + cbn [fst snd query leads set_faults]. rewrite Hl. unfold throw.
      eexists _, _. split; [reflexivity|]. split; [|right; reflexivity].
      unfold same_store. destruct w; reflexivity.
Qed.

(** X22. The guards of [processEvent] come in a fixed order.  An event that
    is already processed is answered as a duplicate, the store staying as
    it was, even when its lead is gone or its type has no rule (no failing
    store calls).  An event that is not, for an id that no lead carries,
    never gets as far as the rule: whichever store call fails,
    [processEvent] returns nothing, does not fail with the no-active-rule
    error, and leaves every collection as it was. *)
Theorem processEvent_guard_order MAX_SCORE now eventData w :
  (faults w = None ->
   already_processed (d_eventId eventData) w = true ->
   processEvent MAX_SCORE now eventData w = (w, Return Duplicate)) /\
  (already_processed (d_eventId eventData) w = false ->
   find_lead (d_leadId eventData) (leads w) = None ->
   same_store (fst (processEvent MAX_SCORE now eventData w)) w /\
   (forall r, snd (processEvent MAX_SCORE now eventData w) <> Return r) /\
   snd (processEvent MAX_SCORE now eventData w)
   <> Throw (Error ("No active scoring rule found for event type: "
                    ++ d_eventType eventData))).
Proof.
  split.
  - intros Hf. apply processEvent_already_processed, Hf.
  - intros Hdup Hl.
    destruct (processEvent_unknown_lead_any_budget MAX_SCORE now eventData w Hdup Hl)
      as (w' & e & Hrun & Hs & He).
    rewrite Hrun. simpl. split; [exact Hs|]. split; [intros r; discriminate|].
    destruct He as [-> | ->]; [discriminate|].
    simpl. intros E. discriminate E.
Qed.

(** X23. [recalculateLeadScore] for an id that no lead carries never returns
    and leaves every collection as it was, whichever store call fails:
    nothing is deleted, written or emitted for a lead that is not there. *)
Theorem recalculateLeadScore_unknown_lead_changes_nothing MAX_SCORE now leadId w :
  find_lead leadId (leads w) = None ->
  same_store (fst (recalculateLeadScore MAX_SCORE now leadId w)) w /\
  (forall r, snd (recalculateLeadScore MAX_SCORE now leadId w) <> Return r).
Proof.
  intros Hl.
  pose proof (recalculateLeadScore_triple MAX_SCORE now leadId w w (same_store_refl w)) as H.
  simpl in H. rewrite Hl in H. exact H.
Qed.

Lemma sort_by_timestamp_of_permutation l1 l2 :
  Permutation l1 l2 -> NoDup (map Event.timestamp l1) ->
  sort_by_timestamp l1 = sort_by_timestamp l2.
Proof.
  intros Hp Hnd.
  assert (Hp1 : Permutation (sort_by_timestamp l1) l1) by apply sort_by_timestamp_perm.
  assert (Hp2 : Permutation (sort_by_timestamp l2) l2) by apply sort_by_timestamp_perm.
  apply strictly_sorted_unique.
  - apply ascending_strict; [apply sort_by_timestamp_ascending|].
    eapply Permutation_NoDup; [|exact Hnd].
    apply Permutation_map. symmetry. exact Hp1.
  - apply ascending_strict; [apply sort_by_timestamp_ascending|].
    eapply Permutation_NoDup; [|exact Hnd].
    apply Permutation_map. rewrite Hp. symmetry. exact Hp2.
  - intros x. split; intros Hx.
    + eapply Permutation_in; [symmetry; exact Hp2|].
      eapply Permutation_in; [exact Hp|].
      eapply Permutation_in; [exact Hp1 | exact Hx].
    + eapply Permutation_in; [symmetry; exact Hp1|].
      eapply Permutation_in; [symmetry; exact Hp|].
      eapply Permutation_in; [exact Hp2 | exact Hx].
Qed.

(** X24. The order in which events reached the ledger does not matter to a
    recalculation when their timestamps are distinct: two stores with the
    same rules whose processed events of the lead are the same up to order
    get the same rows for the lead and the same new score. *)
Theorem recalculation_converges_over_delivery_orders
    MAX_SCORE now leadId w1 w2 w1' w2' r1 r2 :
  scoringRules w1 = scoringRules w2 ->
  Permutation (processed_events_of leadId (events w1))
              (processed_events_of leadId (events w2)) ->
  NoDup (map Event.timestamp (processed_events_of leadId (events w1))) ->
  recalculateLeadScore MAX_SCORE now leadId w1 = (w1', Return r1) ->
  recalculateLeadScore MAX_SCORE now leadId w2 = (w2', Return r2) ->
  filter (of_lead leadId) (scoreHistory w1') = filter (of_lead leadId) (scoreHistory w2') /\
  r_newScore r1 = r_newScore r2.
Proof.
  intros Hrules Hperm Hnd H1 H2.
  apply recalculateLeadScore_ledger in H1. destruct H1 as (l1 & _ & Hrows1 & _ & Hr1 & _).
  apply recalculateLeadScore_ledger in H2. destruct H2 as (l2 & _ & Hrows2 & _ & Hr2 & _).
  simpl in *.
  rewrite (sort_by_timestamp_of_permutation _ _ Hperm Hnd), Hrules in *.
  split; [congruence|]. rewrite Hr1, Hr2. reflexivity.
Qed.

(** * The further theorems at sample data *)

Lemma insert_event_data_perm d l : Permutation (insert_event_data d l) (d :: l).
Proof.
  induction l as [|x t IH]; simpl; [reflexivity|].
  destruct (batch_time d <=? batch_time x); [reflexivity|].
  rewrite IH. apply perm_swap.
Qed.

Lemma sort_batch_perm l : Permutation (sort_batch l) l.
Proof.
  induction l as [|d t IH]; simpl; [reflexivity|].
  rewrite insert_event_data_perm, IH. reflexivity.
Qed.

Lemma fresh_world_unscored : unscored fresh_world.
Proof. split; [reflexivity | constructor]. Qed.

Lemma small_world_rules_nonneg :
  forall rule, In rule (scoringRules small_world) -> ScoringRule.active rule = true ->
               0 <= ScoringRule.points rule.
Proof. intros rule [<-|[<-|[]]] _; simpl; lia. Qed.

Lemma small_world_lead_ids : NoDup (map Lead._id (leads small_world)).
Proof. simpl. constructor; [intros [] | constructor]. Qed.

Lemma processBatch_accounts_for_every_event_witness :
  (forall l, Permutation (sort_batch l) l) /\
  exists w' r,
    processBatch 1000 sort_batch ticking [later_view; earlier_view] small_world
      = (w', Return r) /\
    (b_processed r + b_duplicates r + b_failed r = 2)%nat /\
    List.length (b_errors r) = b_failed r.
Proof.
  split; [exact sort_batch_perm|].
  destruct (processBatch_accounts_for_every_event 1000 sort_batch ticking
              [later_view; earlier_view] small_world sort_batch_perm)
    as (w' & r & Hrun & Hsum & Herr & _).
  exists w', r. auto.
Defined.

Lemma processBatch_keeps_scores_bounded_witness :
  0 <= 1000 /\ bounded 1000 small_world /\
  bounded 1000
    (fst (processBatch 1000 sort_batch ticking [later_view; earlier_view] small_world)).
Proof.
  assert (H0 : 0 <= 1000) by lia.
  split; [exact H0|]. split; [exact small_world_bounded|].
  exact (processBatch_keeps_scores_bounded 1000 sort_batch ticking _ small_world
           H0 small_world_bounded).
Defined.

Lemma processEvent_never_returns_on_unscored_store_witness :
  unscored fresh_world /\
  forall r, snd (processEvent 1000 7 later_view fresh_world) <> Return r.
Proof.
  split; [exact fresh_world_unscored|].
  exact (processEvent_never_returns_on_unscored_store 1000 7 later_view fresh_world
           fresh_world_unscored).
Defined.

Lemma unscored_store_stays_unscored_witness :
  unscored fresh_world /\
  unscored
    (exec_all 1000
       [ProcessEvent 7 later_view; ProcessEvent 8 earlier_view;
        Recalculate 9 "L1"; ProcessEvent 10 later_view]
       fresh_world).
Proof.
  split; [exact fresh_world_unscored|].
  exact (unscored_store_stays_unscored 1000 _ fresh_world fresh_world_unscored).
Defined.

Lemma processBatch_on_unscored_store_fails_every_event_witness :
  (forall l, Permutation (sort_batch l) l) /\ unscored fresh_world /\
  exists w' r,
    processBatch 1000 sort_batch ticking [later_view; earlier_view] fresh_world
      = (w', Return r) /\
    b_processed r = 0%nat /\ b_duplicates r = 0%nat /\ b_failed r = 2%nat.
Proof.
  split; [exact sort_batch_perm|]. split; [exact fresh_world_unscored|].
  destruct (processBatch_on_unscored_store_fails_every_event 1000 sort_batch ticking
              [later_view; earlier_view] fresh_world sort_batch_perm fresh_world_unscored)
    as (w' & r & Hrun & Hp & Hd & Hf & _).
  exists w', r. auto.
Defined.

Lemma retried_in_order_event_adds_its_points_again_witness :
  faults small_world = None /\
  already_processed "e1" small_world = false /\
  find_lead "L1" (leads small_world) = Some ann /\
  find_active_rule "page_view" (scoringRules small_world) = Some page_view_rule /\
  0 <= Lead.currentScore ann <= 1000 /\
  option_map Lead.currentScore
    (find_lead "L1" (leads (attempts 1000 ticking 0 3 later_view small_world)))
  = Some 20 /\
  scoreHistory (attempts 1000 ticking 0 3 later_view small_world) = [first_row].
Proof.
  assert (Hs : 0 <= Lead.currentScore ann <= 1000) by (simpl; lia).
  repeat (split; [reflexivity|]). split; [exact Hs|].
  destruct (retried_in_order_event_adds_its_points_again 1000 ticking 3 0 later_view
              small_world ann page_view_rule eq_refl eq_refl eq_refl eq_refl eq_refl Hs)
    as (Hscore & Hhist & _).
  split; [exact Hscore | exact Hhist].
Defined.

Lemma recalculation_repairs_the_score_witness :
  let run := recalculateLeadScore 1000 9 "L1" small_world in
  snd run = Return (mkRecalcResult "L1" 5 5 1) /\
  exists lead',
    find_lead "L1" (leads (fst run)) = Some lead' /\
    Lead.currentScore lead' = ledger_score "L1" (scoreHistory (fst run)).
Proof.
  intros run. split; [reflexivity|].
  destruct (recalculation_repairs_the_score 1000 9 "L1" small_world (fst run)
              (mkRecalcResult "L1" 5 5 1)) as (lead' & Hl & Hs & _).
  { vm_compute. reflexivity. }
  exists lead'. split; assumption.
Defined.

Lemma recalculated_history_is_a_chain_witness :
  let run := recalculateLeadScore 1000 9 "L1" world_in_order in
  snd run = Return (mkRecalcResult "L1" 5 10 2) /\
  chained 0 (filter (of_lead "L1") (scoreHistory (fst run))).
Proof.
  intros run. split; [reflexivity|].
  apply (recalculated_history_is_a_chain 1000 9 "L1" world_in_order (fst run)
           (mkRecalcResult "L1" 5 10 2)).
  vm_compute. reflexivity.
Defined.

Lemma recalculation_writes_a_row_per_ruled_event_witness :
  let run := recalculateLeadScore 1000 9 "L1" world_in_order in
  snd run = Return (mkRecalcResult "L1" 5 10 2) /\
  List.length (filter (of_lead "L1") (scoreHistory (fst run))) = 2%nat.
Proof.
  intros run. split; [reflexivity|].
  destruct (recalculation_writes_a_row_per_ruled_event 1000 9 "L1" world_in_order (fst run)
              (mkRecalcResult "L1" 5 10 2)) as [Hrows _].
  { vm_compute. reflexivity. }
  exact Hrows.
Defined.

Lemma recalculated_score_is_the_capped_sum_witness :
  0 <= 1000 /\
  recalculateLeadScore 1000 9 "L1" small_world
    = (fst (recalculateLeadScore 1000 9 "L1" small_world),
       Return (mkRecalcResult "L1" 5 5 1)) /\
  5 = Z.min 1000 (total_points (scoringRules small_world)
                    (processed_events_of "L1" (events small_world))).
Proof.
  assert (H0 : 0 <= 1000) by lia.
  assert (Hrun : recalculateLeadScore 1000 9 "L1" small_world
                 = (fst (recalculateLeadScore 1000 9 "L1" small_world),
                    Return (mkRecalcResult "L1" 5 5 1))) by (vm_compute; reflexivity).
  split; [exact H0|]. split; [exact Hrun|].
  exact (recalculated_score_is_the_capped_sum 1000 9 "L1" small_world _ _
           H0 small_world_rules_nonneg Hrun).
Defined.

Lemma replay_all_puts_every_lead_in_step_witness :
  faults small_world = None /\
  exists w' resp,
    replay_all 1000 ticking small_world = (w', Return resp) /\ ledger_consistent w'.
Proof.
  split; [reflexivity|].
  destruct (replay_all_puts_every_lead_in_step 1000 ticking small_world) as [Hret Hruns].
  destruct (Hruns eq_refl) as (w' & resp & Hrun).
  exists w', resp. split; [exact Hrun|]. apply (Hret w' resp Hrun).
Defined.

Lemma delete_lead_removes_the_lead_and_its_ledger_witness :
  let w' := fst (delete_lead "L1" busy_world) in
  faults busy_world = None /\ NoDup (map Lead._id (leads busy_world)) /\
  snd (delete_lead "L1" busy_world) = Return (LeadDeleted "Ann") /\
  find_lead "L1" (leads w') = None /\
  filter (of_lead "L1") (scoreHistory w') = [] /\
  find_lead "L2" (leads w') = Some bob /\
  recalculateLeadScore 1000 9 "L1" w' = (w', Throw (Error "Lead not found")).
Proof.
  intros w'.
  assert (Hnd : NoDup (map Lead._id (leads busy_world))).
  { simpl. repeat constructor; simpl; intuition discriminate. }
  split; [reflexivity|]. split; [exact Hnd|].
  destruct (delete_lead_removes_the_lead_and_its_ledger 1000 "L1" busy_world
              eq_refl Hnd) as [_ H].
  destruct (H _ eq_refl) as (Hres & Hgone & _ & Hrows & Hother & _ & _ & Hrecalc).
  split; [exact Hres|]. split; [exact Hgone|]. split; [exact Hrows|].
  split; [|exact (Hrecalc 9)].
  destruct (Hother "L2") as [Hbob _]; [discriminate|]. exact Hbob.
Defined.

Lemma initializeScoringRules_installs_the_defaults_witness :
  faults small_world = None /\
  snd (initializeScoringRules small_world) = Return tt /\
  exists r, find_rule "purchase" (scoringRules (fst (initializeScoringRules small_world)))
            = Some r /\
            ScoringRule.points r = 100 /\ ScoringRule.active r = false.
Proof.
  split; [reflexivity|].
  destruct (initializeScoringRules_installs_the_defaults small_world eq_refl)
    as (Hret & Hdefaults & _).
  split; [exact Hret|].
  destruct (Hdefaults "purchase" 100 "Lead made a purchase") as (r & Hr & Hp & _ & Ha).
  { simpl. auto 10. }
  exists r. split; [exact Hr|]. split; [exact Hp|].
  apply (Ha purchase_rule_off). reflexivity.
Defined.

Lemma initializeScoringRules_twice_witness :
  faults small_world = None /\
  fst (initializeScoringRules (fst (initializeScoringRules small_world)))
  = fst (initializeScoringRules small_world).
Proof.
  split; [reflexivity|].
  exact (initializeScoringRules_twice small_world eq_refl).
Defined.

Lemma engine_does_not_depend_on_the_notifier_witness :
  same_data small_world quiet_world /\
  snd (processEvent 1000 7 earlier_view small_world)
  = snd (processEvent 1000 7 earlier_view quiet_world) /\
  same_data (fst (processEvent 1000 7 earlier_view small_world))
            (fst (processEvent 1000 7 earlier_view quiet_world)).
Proof.
  assert (H : same_data small_world quiet_world) by (unfold same_data; simpl; auto).
  split; [exact H|].
  destruct (engine_does_not_depend_on_the_notifier 1000 7 small_world quiet_world H)
    as [Hp _].
  destruct (Hp earlier_view) as [Hw Hc].
  split; [exact Hc | exact Hw].
Defined.

Lemma validated_events_pass_as_a_batch_witness :
  validateEvent sample_isValid sample_is_date sample_event = Next /\
  validateBatchEvents sample_isValid (JObject [("events", JArray [sample_event])]) = Next.
Proof.
  assert (H : validateEvent sample_isValid sample_is_date sample_event = Next)
    by reflexivity.
  split; [exact H|].
  apply (validated_events_pass_as_a_batch sample_isValid sample_is_date [sample_event]).
  - simpl. lia.
  - constructor; [exact H | constructor].
Defined.


Lemma processEvent_guard_order_witness :
  let known := mkEventData "e0" "purchase" "L2" None None in
  let stray := mkEventData "e1" "purchase" "L2" None None in
  faults small_world = None /\
  already_processed "e0" small_world = true /\
  processEvent 1000 7 known small_world = (small_world, Return Duplicate) /\
  already_processed "e1" small_world = false /\
  find_lead "L2" (leads small_world) = None /\
  same_store (fst (processEvent 1000 7 stray small_world)) small_world /\
  forall r, snd (processEvent 1000 7 stray small_world) <> Return r.
Proof.
  intros known stray.
  split; [reflexivity|]. split; [reflexivity|].
  split.
  { exact (proj1 (processEvent_guard_order 1000 7 known small_world) eq_refl eq_refl). }
  split; [reflexivity|]. split; [reflexivity|].
  destruct (proj2 (processEvent_guard_order 1000 7 stray small_world) eq_refl eq_refl)
    as (Hs & Hr & _).
  split; [exact Hs | exact Hr].
Defined.

Lemma recalculateLeadScore_unknown_lead_changes_nothing_witness :
  let w := set_faults (Some 3%nat) small_world in
  find_lead "L2" (leads w) = None /\
  same_store (fst (recalculateLeadScore 1000 9 "L2" w)) w /\
  forall r, snd (recalculateLeadScore 1000 9 "L2" w) <> Return r.
Proof.
  intros w. split; [reflexivity|].
  exact (recalculateLeadScore_unknown_lead_changes_nothing 1000 9 "L2" w eq_refl).
Defined.

Lemma recalculation_converges_over_delivery_orders_witness :
  let a := recalculateLeadScore 1000 9 "L1" world_in_order in
  let b := recalculateLeadScore 1000 9 "L1" world_reordered in
  Permutation (processed_events_of "L1" (events world_in_order))
              (processed_events_of "L1" (events world_reordered)) /\
  NoDup (map Event.timestamp (processed_events_of "L1" (events world_in_order))) /\
  filter (of_lead "L1") (scoreHistory (fst a)) = filter (of_lead "L1") (scoreHistory (fst b)).
Proof.
  intros a b.
  assert (Hp : Permutation (processed_events_of "L1" (events world_in_order))
                           (processed_events_of "L1" (events world_reordered)))
    by apply perm_swap.
  assert (Hnd : NoDup (map Event.timestamp (processed_events_of "L1" (events world_in_order)))).
  { simpl. constructor; [intros [H|[]]; discriminate|].
    constructor; [intros [] | constructor]. }
  split; [exact Hp|]. split; [exact Hnd|].
  destruct (recalculation_converges_over_delivery_orders 1000 9 "L1"
              world_in_order world_reordered (fst a) (fst b)
              (mkRecalcResult "L1" 5 10 2) (mkRecalcResult "L1" 5 10 2)
              eq_refl Hp Hnd) as [Hrows _].
  - vm_compute. reflexivity.
  - vm_compute. reflexivity.
  - exact Hrows.
Defined.

Lemma validateBatchEvents_limits_witness :
  nullish (JObject [("events", JArray [sample_event])]) = false /\
  validateBatchEvents sample_isValid (JObject [("events", JArray [sample_event])]) = Next.
Proof.
  split; [reflexivity|].
  destruct (validateBatchEvents_limits sample_isValid
              (JObject [("events", JArray [sample_event])]) eq_refl)
    as (_ & _ & _ & H).
  destruct (H [sample_event] eq_refl) as [_ Hiff].
  - simpl. lia.
  - apply Hiff. constructor; [|constructor].
    unfold batch_event_ok. repeat split; reflexivity.
Defined.

(** * Beyond the claims: an in-order event and the next recalculation *)

Lemma ledgered_processed_events now eventData w leadId :
  already_processed (d_eventId eventData) w = false ->
  processed_events_of leadId (events (fst (ledgered now eventData w)))
  = processed_events_of leadId (events w).
Proof.
  intros _. unfold ledgered.
  destruct (find_event (d_eventId eventData) (events w)); simpl; [reflexivity|].
  unfold processed_events_of. rewrite filter_app. simpl.
  rewrite andb_false_r. apply app_nil_r.
Qed.

(** X25. The delta of an in-order event does not survive a recalculation.
    After [processEvent] took the in-order path (no failing store calls),
    a recalculation of the lead reports the score the event left as its
    previousScore and gives the rows and the new score that a
    recalculation before the event gives: the event, never marked
    processed, counts for nothing. *)
Theorem recalculation_discards_the_in_order_delta
    MAX_SCORE now now' eventData w lead rule w1' r1 w0' r0 :
  faults w = None ->
  already_processed (d_eventId eventData) w = false ->
  find_lead (d_leadId eventData) (leads w) = Some lead ->
  find_active_rule (d_eventType eventData) (scoringRules w) = Some rule ->
  isOutOfOrder (latest (filter (of_lead (d_leadId eventData)) (scoreHistory w)))
    (Event.timestamp (snd (ledgered now eventData w))) = false ->
  recalculateLeadScore MAX_SCORE now' (d_leadId eventData)
    (fst (processEvent MAX_SCORE now eventData w)) = (w1', Return r1) ->
  recalculateLeadScore MAX_SCORE now' (d_leadId eventData) w = (w0', Return r0) ->
  r_previousScore r1
  = clamp (Lead.currentScore lead + ScoringRule.points rule) 0 MAX_SCORE /\
  r_newScore r1 = r_newScore r0 /\
  filter (of_lead (d_leadId eventData)) (scoreHistory w1')
  = filter (of_lead (d_leadId eventData)) (scoreHistory w0').
Proof.
  intros Hf Hdup Hl Hr Hin H1 H0.
  pose proof (in_order_path_throws MAX_SCORE now eventData w lead rule Hf Hdup Hl Hr Hin)
    as Hstep.
  simpl in Hstep. destruct Hstep as (_ & _ & _ & _ & Hlead1).
  assert (Hev : processed_events_of (d_leadId eventData)
                  (events (fst (processEvent MAX_SCORE now eventData w)))
                = processed_events_of (d_leadId eventData) (events w)).
  { rewrite (processEvent_past_guards MAX_SCORE now eventData w lead rule Hf Hdup Hl Hr).
    simpl. rewrite Hin. simpl. apply ledgered_processed_events, Hdup. }
  assert (Hrules : scoringRules (fst (processEvent MAX_SCORE now eventData w))
                   = scoringRules w).
  { rewrite (processEvent_past_guards MAX_SCORE now eventData w lead rule Hf Hdup Hl Hr).
    simpl. rewrite Hin. simpl. apply (ledgered_rest now eventData w). }
  apply recalculateLeadScore_ledger in H1.
  destruct H1 as (lead1 & Hl1 & Hrows1 & _ & Hr1 & _).
  apply recalculateLeadScore_ledger in H0.
  destruct H0 as (lead0 & _ & Hrows0 & _ & Hr0 & _).
  simpl in *. rewrite Hev, Hrules in *.
  rewrite Hlead1 in Hl1. injection Hl1 as <-.
  rewrite Hr1, Hr0, Hrows1, Hrows0. simpl. auto.
Qed.

Lemma recalculation_discards_the_in_order_delta_witness :
  let w1 := fst (processEvent 1000 7 later_view small_world) in
  faults small_world = None /\
  option_map Lead.currentScore (find_lead "L1" (leads w1)) = Some 10 /\
  snd (recalculateLeadScore 1000 9 "L1" w1) = Return (mkRecalcResult "L1" 10 5 1) /\
  filter (of_lead "L1") (scoreHistory (fst (recalculateLeadScore 1000 9 "L1" w1)))
  = filter (of_lead "L1") (scoreHistory (fst (recalculateLeadScore 1000 9 "L1" small_world))).
Proof.
  intros w1. split; [reflexivity|]. split; [reflexivity|]. split; [reflexivity|].
  destruct (recalculation_discards_the_in_order_delta 1000 7 9 later_view small_world
              ann page_view_rule
              (fst (recalculateLeadScore 1000 9 "L1" w1)) (mkRecalcResult "L1" 10 5 1)
              (fst (recalculateLeadScore 1000 9 "L1" small_world))
              (mkRecalcResult "L1" 5 5 1)
              eq_refl eq_refl eq_refl eq_refl eq_refl) as (_ & _ & Hrows).
  - vm_compute. reflexivity.
  - vm_compute. reflexivity.
  - exact Hrows.
Defined.
